(** * worker-model-sync-tts: a shallow embedding of the synchronisation core

    The development follows the TypeScript sources:
    - [src/utils/fileValidator.ts]       (module [FileValidator])
    - [src/services/S3Service.ts]        (module [S3Service])
    - [src/services/ModelSyncService.ts] (module [ModelSyncService])
    - [src/services/HealthCheckService.ts] (module [HealthCheckService])
    - [src/services/ApiService.ts]       (module [ApiService])
    - [src/index.ts]                     (module [Index])

    Asynchronous functions are embedded in a state-and-exception monad that
    also writes a trace of observable events (log lines and the outcome of
    each call into the filesystem, the object store and the queues).  A
    rejected promise is an exception; [await] is sequencing. *)

From Stdlib Require Import ZArith String Ascii List Lia.

From stdpp Require Import base option gmap strings list pretty.

Local Open Scope string_scope.

Local Open Scope list_scope.

Local Open Scope Z_scope.

(** ** JavaScript errors and results *)

Record JsError := mkError { err_name : string; err_message : string }.

Inductive Res (A : Type) : Type :=
| Ok (a : A)
| Throw (e : JsError).

Arguments Ok {A} a.

Arguments Throw {A} e.

Definition TypeError (msg : string) : JsError := mkError "TypeError" msg.

Definition URIError (msg : string) : JsError := mkError "URIError" msg.

Definition SyntaxError (msg : string) : JsError := mkError "SyntaxError" msg.

Definition Error (msg : string) : JsError := mkError "Error" msg.

(** [String(error)], as a template literal renders an error. *)
Definition error_string (e : JsError) : string :=
  err_name e +:+ ": " +:+ err_message e.

(** ** Observable events *)

Inductive Level := LDebug | LInfo | LWarn | LError.

Inductive FsOp :=
| OpExists      (* fs.pathExists *)
| OpAccess      (* fs.access *)
| OpStat        (* fs.stat *)
| OpRemove      (* fs.remove *)
| OpEnsureDir   (* fs.ensureDir *)
| OpOpen        (* the write stream opens its file *)
| OpWrite       (* one chunk is written *)
| OpClose       (* the write stream is flushed and closed *)
| OpRead.       (* fs.createReadStream, read to the end *)

Inductive S3Op := OpHead | OpGet | OpList.

Inductive SqsOp := OpReceive | OpDelete | OpSend.

(** [ok] tells whether the call resolved ([true]) or was rejected
    ([false]). *)
Inductive Event :=
| EvLog (lvl : Level) (msg : string)
| EvFault (msg : string)
| EvFs (op : FsOp) (path : string) (ok : bool)
| EvMove (src dst : string) (ok : bool)
| EvData (path : string) (n : Z)
| EvS3 (op : S3Op) (key : string) (ok : bool)
| EvSqs (op : SqsOp) (ok : bool).

Global Instance Level_eq_dec : EqDecision Level.
Proof. solve_decision. Defined.

Global Instance FsOp_eq_dec : EqDecision FsOp.
Proof. solve_decision. Defined.

Global Instance S3Op_eq_dec : EqDecision S3Op.
Proof. solve_decision. Defined.

Global Instance SqsOp_eq_dec : EqDecision SqsOp.
Proof. solve_decision. Defined.

Global Instance Event_eq_dec : EqDecision Event.
Proof. solve_decision. Defined.

(** ** The monad: state, exceptions and an event trace *)

Record Out (S A : Type) : Type :=
  mkOut { out_res : Res A; out_st : S; out_ev : list Event }.

Arguments mkOut {S A} out_res out_st out_ev.

Arguments out_res {S A} o.

Arguments out_st {S A} o.

Arguments out_ev {S A} o.

Definition M (S A : Type) : Type := S -> Out S A.

Definition ret {S A} (a : A) : M S A := fun s => mkOut (Ok a) s [].

Definition throw {S A} (e : JsError) : M S A := fun s => mkOut (Throw e) s [].

Definition bind {S A B} (m : M S A) (k : A -> M S B) : M S B := fun s =>
  let o := m s in
  match out_res o with
  | Ok a => let o' := k a (out_st o) in
            mkOut (out_res o') (out_st o') (out_ev o ++ out_ev o')
  | Throw e => mkOut (Throw e) (out_st o) (out_ev o)
  end.

(** [try { m } catch (error) { h error }] *)
Definition try_catch {S A} (m : M S A) (h : JsError -> M S A) : M S A := fun s =>
  let o := m s in
  match out_res o with
  | Ok a => o
  | Throw e => let o' := h e (out_st o) in
               mkOut (out_res o') (out_st o') (out_ev o ++ out_ev o')
  end.

Definition emit {S} (ev : Event) : M S unit := fun s => mkOut (Ok tt) s [ev].

Definition gets {S A} (f : S -> A) : M S A := fun s => mkOut (Ok (f s)) s [].

Definition modify {S} (f : S -> S) : M S unit := fun s => mkOut (Ok tt) (f s) [].

Definition of_res {S A} (r : Res A) : M S A := fun s => mkOut r s [].

(** A mutable local variable of type [L] that a closure or a [catch] block
    can still read after an exception: the state is extended by the
    variable for the extent of its scope. *)
Definition lift {L S A} (m : M S A) : M (L * S) A := fun ls =>
  let o := m (snd ls) in mkOut (out_res o) (fst ls, out_st o) (out_ev o).

Definition with_local {L S A} (init : L) (m : M (L * S) A) : M S A := fun s =>
  let o := m (init, s) in mkOut (out_res o) (snd (out_st o)) (out_ev o).

Definition get_local {L S} : M (L * S) L := gets fst.

Definition modify_local {L S} (f : L -> L) : M (L * S) unit :=
  modify (fun ls => (f (fst ls), snd ls)).

Declare Scope js_scope.

Delimit Scope js_scope with js.

Notation "'let!' x ':=' m 'in' k" := (bind m (fun x => k))
  (at level 10, x name, m at level 100, k at level 200) : js_scope.

Notation "m ';;;' k" := (bind m (fun _ => k))
  (at level 100, k at level 200, right associativity) : js_scope.

Local Open Scope js_scope.

(** The logger of [src/utils/logger.ts]: writes a line, never throws. *)
Module logger.
Definition debug {S} (msg : string) : M S unit := emit (EvLog LDebug msg).
Definition info {S} (msg : string) : M S unit := emit (EvLog LInfo msg).
Definition warn {S} (msg : string) : M S unit := emit (EvLog LWarn msg).
Definition error {S} (msg : string) : M S unit := emit (EvLog LError msg).
End logger.

(** ** Weakest preconditions for the monad *)

Definition wp {S A} (m : M S A) (s : S)
    (Q : A -> S -> list Event -> Prop)
    (E : JsError -> S -> list Event -> Prop) : Prop :=
  match out_res (m s) with
  | Ok a => Q a (out_st (m s)) (out_ev (m s))
  | Throw e => E e (out_st (m s)) (out_ev (m s))
  end.

(** ** JavaScript strings

    A string stands for the UTF-8 encoding of the JavaScript string. *)
Module JsString.

Definition is_upper (c : ascii) : bool :=
  let n := nat_of_ascii c in (65 <=? n)%nat && (n <=? 90)%nat.

Definition lower_ascii (c : ascii) : ascii :=
  if is_upper c then ascii_of_nat (nat_of_ascii c + 32) else c.

(** [String.prototype.toLowerCase].  ASCII letters are lowered, and so is
    the one other character whose lower case is an ASCII letter, the
    Kelvin sign U+212A (bytes E2 84 AA, lower case [k]); every other
    character is kept, which leaves [endsWith] of an ASCII suffix as
    JavaScript computes it. *)
Fixpoint toLowerCase (s : string) : string :=
  match s with
  | EmptyString => EmptyString
  | String c s' =>
      match s' with
      | String c2 (String c3 r) =>
          if ((nat_of_ascii c =? 226) && (nat_of_ascii c2 =? 132)
              && (nat_of_ascii c3 =? 170))%nat
          then String "k" (toLowerCase r)
          else String (lower_ascii c) (toLowerCase s')
      | _ => String (lower_ascii c) (toLowerCase s')
      end
  end.

(** [s.endsWith(suffix)] *)
Definition endsWith (s suffix : string) : bool :=
  String.prefix (String.rev suffix) (String.rev s).

(** [s.includes(sub)] *)
Fixpoint includes (s sub : string) : bool :=
  String.prefix sub s ||
  match s with
  | EmptyString => false
  | String _ s' => includes s' sub
  end.

(** [s.split('/')]: never empty. *)
Fixpoint split_slash (s : string) : list string :=
  match s with
  | EmptyString => [EmptyString]
  | String c s' =>
      if Ascii.eqb c "/" then EmptyString :: split_slash s'
      else match split_slash s' with
           | [] => [String c EmptyString]
           | h :: t => String c h :: t
           end
  end.

Definition hex_digit (c : ascii) : option Z :=
  let n := Z.of_nat (nat_of_ascii c) in
  if (48 <=? n) && (n <=? 57) then Some (n - 48)
  else if (65 <=? n) && (n <=? 70) then Some (n - 55)
  else if (97 <=? n) && (n <=? 102) then Some (n - 87)
  else None.

(** The first pass of [decodeURIComponent]: a literal character, or the
    byte of an escape [%XX]. *)
Inductive Token := Lit (c : ascii) | Esc (b : Z).

Fixpoint tokens (s : string) : option (list Token) :=
  match s with
  | EmptyString => Some []
  | String c s' =>
      if Ascii.eqb c "%" then
        match s' with
        | String h1 (String h2 r) =>
            match hex_digit h1, hex_digit h2, tokens r with
            | Some d1, Some d2, Some ts => Some (Esc (16 * d1 + d2) :: ts)
            | _, _, _ => None
            end
        | _ => None
        end
      else option_map (cons (Lit c)) (tokens s')
  end.

Definition byte_char (b : Z) : ascii := ascii_of_nat (Z.to_nat b).

(** The second pass: escaped bytes of 0x80 and above must spell the UTF-8
    encoding of one code point.  [pending] continuation bytes are still
    expected for the code point [cp], whose encoding may not be shorter
    than [lo] allows. *)
Record Utf8 := mkUtf8 { pending : nat; cp : Z; lo : Z }.

Definition code_point_ok (u : Utf8) : bool :=
  (lo u <=? cp u) && (cp u <=? 1114111)
  && negb ((55296 <=? cp u) && (cp u <=? 57343)).

Fixpoint decode_tokens (ts : list Token) (u : Utf8) : option string :=
  match ts with
  | [] => match pending u with O => Some EmptyString | S _ => None end
  | Lit c :: r =>
      match pending u with
      | O => option_map (String c) (decode_tokens r u)
      | S _ => None
      end
  | Esc b :: r =>
      match pending u with
      | O =>
          if b <? 128 then option_map (String (byte_char b)) (decode_tokens r u)
          else if (192 <=? b) && (b <=? 223) then
            option_map (String (byte_char b))
                       (decode_tokens r (mkUtf8 1 (b - 192) 128))
          else if (224 <=? b) && (b <=? 239) then
            option_map (String (byte_char b))
                       (decode_tokens r (mkUtf8 2 (b - 224) 2048))
          else if (240 <=? b) && (b <=? 247) then
            option_map (String (byte_char b))
                       (decode_tokens r (mkUtf8 3 (b - 240) 65536))
          else None
      | S n =>
          if (128 <=? b) && (b <=? 191) then
            let u' := mkUtf8 n (64 * cp u + (b - 128)) (lo u) in
            match n with
            | O => if code_point_ok u'
                   then option_map (String (byte_char b))
                                   (decode_tokens r (mkUtf8 0 0 0))
                   else None
            | S _ => option_map (String (byte_char b)) (decode_tokens r u')
            end
          else None
      end
  end.

(** [decodeURIComponent(s)] for a string [s]: throws [URIError] on a
    malformed escape or on escaped bytes that are not valid UTF-8. *)
Definition decodeURIComponent (s : string) : Res string :=
  match tokens s with
  | Some ts =>
      match decode_tokens ts (mkUtf8 0 0 0) with
      | Some r => Ok r
      | None => Throw (URIError "URI malformed")
      end
  | None => Throw (URIError "URI malformed")
  end.

(** [path.dirname] of Node's posix implementation. *)
Fixpoint dirname_end (rev_tail : list ascii) (matchedSlash : bool) : option nat :=
  match rev_tail with
  | [] => None
  | c :: r =>
      if Ascii.eqb c "/" then
        if matchedSlash then dirname_end r true else Some (S (length r))
      else dirname_end r false
  end.

Definition dirname (path : string) : string :=
  match path with
  | EmptyString => "."
  | String c0 tl =>
      let hasRoot := Ascii.eqb c0 "/" in
      match dirname_end (rev (list_ascii_of_string tl)) true with
      | None => if hasRoot then "/" else "."
      | Some e =>
          if hasRoot && (e =? 1)%nat then "//"
          else substring 0 e path
      end
  end.

End JsString.

(** ** JavaScript values, as [JSON.parse] builds them

    Numbers are the integers.  An object keeps its members in source order;
    for a repeated name the last member is the one read. *)
Local Unset Elimination Schemes.

Inductive Js :=
| JUndefined
| JNull
| JBool (b : bool)
| JNum (n : Z)
| JStr (s : string)
| JArr (items : list Js)
| JObj (members : list (string * Js)).

Local Set Elimination Schemes.

Module JsValue.

Fixpoint lookup_member (k : string) (ms : list (string * Js)) : option Js :=
  match ms with
  | [] => None
  | (k', v) :: r =>
      match lookup_member k r with
      | Some v' => Some v'
      | None => if String.eqb k k' then Some v else None
      end
  end.

(** [v.k] for the member names the sources read ([Records], [s3],
    [object], [key], [bucket], [name], [size], [eventName], [eventTime]):
    none of them is a property of a primitive value or of an array. *)
Definition get (v : Js) (k : string) : Res Js :=
  match v with
  | JUndefined =>
      Throw (TypeError ("Cannot read properties of undefined (reading '" +:+ k +:+ "')"))
  | JNull =>
      Throw (TypeError ("Cannot read properties of null (reading '" +:+ k +:+ "')"))
  | JObj ms => Ok (default JUndefined (lookup_member k ms))
  | _ => Ok JUndefined
  end.

Definition join_comma (parts : list string) : string :=
  match parts with
  | [] => EmptyString
  | p :: r => fold_left (fun acc q => acc +:+ "," +:+ q) r p
  end.

(** [String(v)], the conversion a template literal and
    [decodeURIComponent] apply to their argument. *)
Fixpoint toString (v : Js) : string :=
  match v with
  | JUndefined => "undefined"
  | JNull => "null"
  | JBool true => "true"
  | JBool false => "false"
  | JNum n => pretty n
  | JStr s => s
  | JArr items =>
      join_comma (map (fun x => match x with
                                | JUndefined | JNull => EmptyString
                                | _ => toString x
                                end) items)
  | JObj _ => "[object Object]"
  end.

Definition is_str (s : string) (v : Js) : bool :=
  match v with JStr s' => String.eqb s s' | _ => false end.

(** [v.includes(s)] for a string [s]: a method of strings and of arrays;
    on anything else the call throws. *)
Definition includes (v : Js) (s : string) : Res bool :=
  match v with
  | JStr t => Ok (JsString.includes t s)
  | JArr items => Ok (existsb (is_str s) items)
  | JUndefined =>
      Throw (TypeError "Cannot read properties of undefined (reading 'includes')")
  | JNull =>
      Throw (TypeError "Cannot read properties of null (reading 'includes')")
  | _ => Throw (TypeError "eventName.includes is not a function")
  end.

End JsValue.

(** ** The environment of the service *)

(** A local file: its bytes and its modification time (ms since the epoch). *)
Record File := mkFile { f_data : string; f_mtime : Z }.

Definition file_size (f : File) : Z := Z.of_nat (String.length (f_data f)).

(** What [fs.stat] returns, as far as the sources read it. *)
Record Stats := mkStats { st_size : Z; st_mtime : Z }.

(** A remote object: the fields of the [HeadObject] response, each of which
    the SDK types as optional, and the body [GetObject] streams, as the
    chunks in which it arrives. *)
Record S3Object := mkS3Object {
  o_ContentLength : option Z;
  o_LastModified : option Z;
  o_ETag : option string;
  o_Body : option (list string) }.

(** An SQS message.  [m_Body] stands for the outcome of [JSON.parse] on the
    body text. *)
Record Message := mkMessage {
  m_MessageId : string;
  m_ReceiptHandle : string;
  m_Body : Res Js }.

(** [NotificationEvent] of [src/types/events.ts] with the two message
    attributes [notifyApplications] derives; [n_timestamp] is the time that
    the source renders with [toISOString]. *)
Record NotificationEvent := mkNotification {
  n_path : string;
  n_localPath : string;
  n_size : Z;
  n_timestamp : Z;
  n_downloadDuration : Z }.

Record SentMessage := mkSent {
  sent_body : NotificationEvent;
  sent_ModelType : string;
  sent_Category : string }.

(** State of [HealthCheckService]. *)
Record Health := mkHealth {
  lastProcessedTime : option Z;
  startTime : Z;
  isHealthy : bool }.

(** One step of the outside world: time passes, and the call in progress
    may fail. *)
Record Tick := mkTick { t_delay : N; t_fault : option string }.

Record World := mkWorld {
  w_fs : gmap string File;                 (* the local filesystem *)
  w_s3 : gmap string S3Object;             (* the bucket *)
  w_pages : list (list (option string));   (* its listing, page by page *)
  w_queue : list Message;                  (* the update queue *)
  w_sent : list SentMessage;               (* the notification queue *)
  w_health : Health;
  w_now : Z;                               (* Date.now() *)
  w_oracle : list Tick }.

Definition set_fs (f : gmap string File -> gmap string File) (w : World) : World :=
  mkWorld (f (w_fs w)) (w_s3 w) (w_pages w) (w_queue w) (w_sent w) (w_health w)
          (w_now w) (w_oracle w).

Definition set_queue (f : list Message -> list Message) (w : World) : World :=
  mkWorld (w_fs w) (w_s3 w) (w_pages w) (f (w_queue w)) (w_sent w) (w_health w)
          (w_now w) (w_oracle w).

Definition set_sent (f : list SentMessage -> list SentMessage) (w : World) : World :=
  mkWorld (w_fs w) (w_s3 w) (w_pages w) (w_queue w) (f (w_sent w)) (w_health w)
          (w_now w) (w_oracle w).

Definition set_health (f : Health -> Health) (w : World) : World :=
  mkWorld (w_fs w) (w_s3 w) (w_pages w) (w_queue w) (w_sent w) (f (w_health w))
          (w_now w) (w_oracle w).

Definition step_world (t : Tick) (rest : list Tick) (w : World) : World :=
  mkWorld (w_fs w) (w_s3 w) (w_pages w) (w_queue w) (w_sent w) (w_health w)
          (w_now w + Z.of_N (t_delay t)) rest.

(** Every call into the filesystem, the object store or a queue takes one
    step of the world.  With the oracle used up nothing fails any more. *)
Definition tick : M World unit := fun w =>
  match w_oracle w with
  | [] => mkOut (Ok tt) w []
  | t :: rest =>
      match t_fault t with
      | None => mkOut (Ok tt) (step_world t rest w) []
      | Some msg => mkOut (Throw (Error msg)) (step_world t rest w) [EvFault msg]
      end
  end.

(** A call that reports its rejection as the event [failed]. *)
Definition attempt (failed : Event) : M World unit :=
  try_catch tick (fun e => emit failed ;;; throw e).

Definition Date_now : M World Z := gets w_now.

(** [fs-extra], restricted to regular files named by their path text;
    directories are not part of the state. *)
Module fs.

(** [pathExists] resolves to [false] when the probe itself fails. *)
Definition pathExists (p : string) : M World bool :=
  try_catch
    (tick ;;;
     let! found := gets (fun w => bool_decide (is_Some (w_fs w !! p))) in
     emit (EvFs OpExists p true) ;;;
     ret found)
    (fun _ => emit (EvFs OpExists p false) ;;; ret false).

Definition ENOENT (call p : string) : JsError :=
  Error ("ENOENT: no such file or directory, " +:+ call +:+ " '" +:+ p +:+ "'").

Definition stat (p : string) : M World Stats :=
  attempt (EvFs OpStat p false) ;;;
  let! file := gets (fun w => w_fs w !! p) in
  match file with
  | Some f => emit (EvFs OpStat p true) ;;; ret (mkStats (file_size f) (f_mtime f))
  | None => emit (EvFs OpStat p false) ;;; throw (ENOENT "stat" p)
  end.

(** [remove] succeeds on a missing path. *)
Definition remove (p : string) : M World unit :=
  attempt (EvFs OpRemove p false) ;;;
  modify (set_fs (delete p)) ;;;
  emit (EvFs OpRemove p true).

(** [move(src, dst, { overwrite: true })] *)
Definition move (src dst : string) : M World unit :=
  attempt (EvMove src dst false) ;;;
  let! file := gets (fun w => w_fs w !! src) in
  match file with
  | Some f =>
      modify (set_fs (fun m => <[dst := f]> (delete src m))) ;;;
      emit (EvMove src dst true)
  | None => emit (EvMove src dst false) ;;; throw (ENOENT "rename" src)
  end.

Definition ensureDir (d : string) : M World unit :=
  attempt (EvFs OpEnsureDir d false) ;;; emit (EvFs OpEnsureDir d true).

(** [access] of a directory. *)
Definition access (d : string) : M World unit :=
  attempt (EvFs OpAccess d false) ;;; emit (EvFs OpAccess d true).

(** The write stream of [createWriteStream(p)]: opening creates or
    truncates the file. *)
Definition openWrite (p : string) : M World unit :=
  attempt (EvFs OpOpen p false) ;;;
  let! now := Date_now in
  modify (set_fs (<[p := mkFile EmptyString now]>)) ;;;
  emit (EvFs OpOpen p true).

Definition writeChunk (p chunk : string) : M World unit :=
  attempt (EvFs OpWrite p false) ;;;
  let! now := Date_now in
  let! file := gets (fun w => w_fs w !! p) in
  modify (set_fs (<[p := mkFile (f_data (default (mkFile EmptyString now) file) +:+ chunk) now]>)) ;;;
  emit (EvFs OpWrite p true).

Definition closeWrite (p : string) : M World unit :=
  attempt (EvFs OpClose p false) ;;; emit (EvFs OpClose p true).

(** The whole content, as a read stream delivers it. *)
Definition readAll (p : string) : M World string :=
  attempt (EvFs OpRead p false) ;;;
  let! file := gets (fun w => w_fs w !! p) in
  match file with
  | Some f => emit (EvFs OpRead p true) ;;; ret (f_data f)
  | None => emit (EvFs OpRead p false) ;;; throw (ENOENT "open" p)
  end.

End fs.

(** The S3 client, for the one bucket of the service. *)
Module s3Client.

Definition headObject (key : string) : M World S3Object :=
  attempt (EvS3 OpHead key false) ;;;
  let! obj := gets (fun w => w_s3 w !! key) in
  match obj with
  | Some o => emit (EvS3 OpHead key true) ;;; ret o
  | None => emit (EvS3 OpHead key false) ;;; throw (mkError "NotFound" "UnknownError")
  end.

(** Resolves to the [Body] of the response. *)
Definition getObject (key : string) : M World (option (list string)) :=
  attempt (EvS3 OpGet key false) ;;;
  let! obj := gets (fun w => w_s3 w !! key) in
  match obj with
  | Some o => emit (EvS3 OpGet key true) ;;; ret (o_Body o)
  | None =>
      emit (EvS3 OpGet key false) ;;;
      throw (mkError "NoSuchKey" "The specified key does not exist.")
  end.

(** One page of [ListObjectsV2]: the [Key] of each entry of [Contents]. *)
Definition listPage (page : list (option string)) : M World (list (option string)) :=
  attempt (EvS3 OpList EmptyString false) ;;;
  emit (EvS3 OpList EmptyString true) ;;;
  ret page.

End s3Client.

(** The SQS client. *)
Module sqsClient.

(** [ReceiveMessage] with [MaxNumberOfMessages: 10]. *)
Definition receive : M World (list Message) :=
  attempt (EvSqs OpReceive false) ;;;
  let! msgs := gets (fun w => firstn 10 (w_queue w)) in
  emit (EvSqs OpReceive true) ;;;
  ret msgs.

Definition deleteMessage (receiptHandle : string) : M World unit :=
  attempt (EvSqs OpDelete false) ;;;
  modify (set_queue (filter (fun m => m_ReceiptHandle m ≠ receiptHandle))) ;;;
  emit (EvSqs OpDelete true).

Definition sendMessage (msg : SentMessage) : M World unit :=
  attempt (EvSqs OpSend false) ;;;
  modify (set_sent (fun q => q ++ [msg])) ;;;
  emit (EvSqs OpSend true).

End sqsClient.

(** The digest of Node's [crypto] module: SHA-256 of the bytes, in hex. *)
Class Crypto := sha256_hex : string -> string.

(** [process.env]: a variable that is unset, or set to the empty string,
    is falsy. *)
Definition Env : Type := gmap string string.

(** [!!process.env[name]] *)
Definition env_set (env : Env) (name : string) : bool :=
  match env !! name with
  | Some v => negb (String.eqb v EmptyString)
  | None => false
  end.

(** [process.env[name] || fallback] *)
Definition env_or (env : Env) (name fallback : string) : string :=
  match env !! name with
  | Some v => if String.eqb v EmptyString then fallback else v
  | None => fallback
  end.

(** ** [src/utils/fileValidator.ts] *)
Module FileValidator.

Definition modelExtensions : list string :=
  [".pth"; ".bin"; ".onnx"; ".safetensors"; ".pkl"; ".json"; ".txt"].

Definition isModelFile (key : string) : bool :=
  let lowerKey := JsString.toLowerCase key in
  existsb (fun ext => JsString.endsWith lowerKey ext) modelExtensions.

(** Truth value of an optional number and of an optional string. *)
Definition truthy_num (n : option Z) : bool :=
  match n with Some v => negb (v =? 0) | None => false end.
Definition truthy_str (s : option string) : bool :=
  match s with Some v => negb (String.eqb v EmptyString) | None => false end.

Section WithCrypto.
Context `{Crypto}.

Definition calculateSHA256 (filePath : string) : M World string :=
  let! data := fs.readAll filePath in
  ret (sha256_hex data).

Definition verifyFileIntegrity (filePath : string) (expectedSize : option Z)
    (expectedHash : option string) : M World bool :=
  try_catch
    (let! stats := fs.stat filePath in
     if truthy_num expectedSize
        && negb (st_size stats =? default 0 expectedSize)
     then
       logger.warn ("File size mismatch: expected "
                    +:+ pretty (default 0 expectedSize)
                    +:+ ", got " +:+ pretty (st_size stats)) ;;;
       ret false
     else
       let! hashOk :=
         (if truthy_str expectedHash then
            let! actualHash := calculateSHA256 filePath in
            if negb (String.eqb actualHash (default EmptyString expectedHash))
            then
              logger.warn ("File hash mismatch: expected "
                           +:+ default EmptyString expectedHash
                           +:+ ", got " +:+ actualHash) ;;;
              ret false
            else ret true
          else ret true) in
       if hashOk then
         logger.info "File integrity verified successfully" ;;;
         ret true
       else ret false)
    (fun error =>
       logger.error ("Error verifying file integrity: " +:+ error_string error) ;;;
       ret false).

End WithCrypto.

Definition checkDiskSpace (targetPath : string) : M World bool :=
  try_catch
    (fs.access targetPath ;;; ret true)
    (fun error =>
       logger.error ("Error checking disk space: " +:+ error_string error) ;;;
       ret false).

Definition cleanupTempFile (filePath : string) : M World unit :=
  try_catch
    (let! found := fs.pathExists filePath in
     if found then
       fs.remove filePath ;;;
       logger.debug ("Cleaned up temp file: " +:+ filePath)
     else ret tt)
    (fun error =>
       logger.warn ("Failed to cleanup temp file: " +:+ error_string error)).

End FileValidator.

(** ** [src/services/S3Service.ts] *)
Module S3Service.

Record ObjectInfo := mkObjectInfo { size : Z; lastModified : Z; etag : string }.

Record DownloadResult := mkDownloadResult {
  success : bool;
  downloaded : Z;      (* the field [size] of the result *)
  duration : Z }.

(** The fields the constructor reads from the environment. *)
Record Config := mkConfig { region : string; bucketName : string }.

Definition constructor (env : Env) : Config :=
  mkConfig (env_or env "AWS_REGION" "us-west-2")
           (env_or env "S3_BUCKET_NAME" "gamania-voice-models").

Definition strip_quotes (s : string) : string :=
  string_of_list_ascii
    (filter (fun c => nat_of_ascii c ≠ 34%nat) (list_ascii_of_string s)).

(** The object literal [getObjectInfo] builds from a response at time
    [now]. *)
Definition objectInfo_of (now : Z) (o : S3Object) : ObjectInfo :=
  mkObjectInfo
    (match o_ContentLength o with
     | Some n => if n =? 0 then 0 else n
     | None => 0
     end)
    (default now (o_LastModified o))
    (match o_ETag o with
     | Some t => if String.eqb t EmptyString then EmptyString else strip_quotes t
     | None => EmptyString
     end).

Definition getObjectInfo (key : string) : M World (option ObjectInfo) :=
  try_catch
    (let! response := s3Client.headObject key in
     let! now := Date_now in
     ret (Some (objectInfo_of now response)))
    (fun error =>
       if String.eqb (err_name error) "NotFound" then ret None
       else
         logger.error ("Error getting S3 object info: " +:+ err_message error) ;;;
         throw error).

(** The body stream flowing into the write stream.  Each chunk first
    arrives (or the stream fails), is counted by the [data] listener in
    [downloadedSize], the local variable, and is then written. *)
Fixpoint pump (tempPath : string) (chunks : list string) : M (Z * World) unit :=
  match chunks with
  | [] => ret tt
  | chunk :: rest =>
      lift tick ;;;
      let len := Z.of_nat (String.length chunk) in
      modify_local (fun downloadedSize => downloadedSize + len) ;;;
      emit (EvData tempPath len) ;;;
      let! downloadedSize := get_local in
      (if downloadedSize mod (10 * 1024 * 1024) =? 0
       then lift (logger.debug "Download progress") else ret tt) ;;;
      lift (fs.writeChunk tempPath chunk) ;;;
      pump tempPath rest
  end.

(** [await pipeline(bodyStream, writeStream)]: resolves once the write
    stream has been flushed and closed. *)
Definition pipeline (tempPath : string) (chunks : list string) : M (Z * World) unit :=
  lift (fs.openWrite tempPath) ;;;
  pump tempPath chunks ;;;
  lift (fs.closeWrite tempPath).

Section WithCrypto.
Context `{Crypto}.

Definition downloadFile (s3Key localPath : string) : M World DownloadResult :=
  let! startTime := Date_now in
  with_local 0
    (try_catch
       (lift (logger.info ("Starting download from S3: " +:+ s3Key
                           +:+ " -> " +:+ localPath)) ;;;
        let! objectInfo := lift (getObjectInfo s3Key) in
        match objectInfo with
        | None => throw (Error ("S3 object not found: " +:+ s3Key))
        | Some objectInfo =>
            let targetDir := JsString.dirname localPath in
            lift (fs.ensureDir targetDir) ;;;
            let! hasSpace := lift (FileValidator.checkDiskSpace targetDir) in
            if negb hasSpace then
              throw (Error ("Insufficient disk space for download: "
                            +:+ pretty (size objectInfo) +:+ " bytes required"))
            else
              let! body := lift (s3Client.getObject s3Key) in
              match body with
              | None => throw (Error "Empty response body from S3")
              | Some chunks =>
                  let tempPath := localPath +:+ ".tmp" in
                  try_catch
                    (pipeline tempPath chunks ;;;
                     let! isValid :=
                       lift (FileValidator.verifyFileIntegrity
                               tempPath (Some (size objectInfo)) None) in
                     if negb isValid then
                       lift (FileValidator.cleanupTempFile tempPath) ;;;
                       throw (Error "Downloaded file failed integrity check")
                     else
                       lift (fs.move tempPath localPath) ;;;
                       let! now := lift Date_now in
                       let duration := now - startTime in
                       lift (logger.info "Successfully downloaded file from S3") ;;;
                       let! downloadedSize := get_local in
                       ret (mkDownloadResult true downloadedSize duration))
                    (fun error =>
                       lift (FileValidator.cleanupTempFile tempPath) ;;;
                       throw error)
              end
        end)
       (fun error =>
          let! now := lift Date_now in
          let duration := now - startTime in
          lift (logger.error ("Failed to download file from S3: "
                              +:+ err_message error)) ;;;
          let! downloadedSize := get_local in
          ret (mkDownloadResult false downloadedSize duration))).

End WithCrypto.

Definition shouldUpdateFile (s3Key localPath : string) : M World bool :=
  try_catch
    (let! found := fs.pathExists localPath in
     if negb found then
       logger.debug ("Local file does not exist, update needed: " +:+ localPath) ;;;
       ret true
     else
       let! s3Info := getObjectInfo s3Key in
       match s3Info with
       | None =>
           logger.warn ("S3 object not found: " +:+ s3Key) ;;;
           ret false
       | Some s3Info =>
           let! localStats := fs.stat localPath in
           if negb (st_size localStats =? size s3Info) then
             logger.debug "File size differs, update needed" ;;;
             ret true
           else if st_mtime localStats <? lastModified s3Info then
             logger.debug "S3 file is newer, update needed" ;;;
             ret true
           else
             logger.debug ("File is up to date: " +:+ localPath) ;;;
             ret false
       end)
    (fun error =>
       logger.error ("Error checking if file should update: " +:+ err_message error) ;;;
       ret true).

(** The [do ... while (continuationToken)] loop: [page] is the page the
    next request returns, [rest] those its continuation token stands for. *)
Fixpoint listLoop (page : list (option string)) (rest : list (list (option string)))
    (models : list string) : M World (list string) :=
  let! contents := s3Client.listPage page in
  let models' :=
    models ++ omap (fun key =>
                      match key with
                      | Some k =>
                          if negb (String.eqb k EmptyString)
                             && FileValidator.isModelFile k
                          then Some k else None
                      | None => None
                      end) contents in
  match rest with
  | [] => ret models'
  | next :: rest' => listLoop next rest' models'
  end.

Definition listAllModels : M World (list string) :=
  try_catch
    (let! pages := gets w_pages in
     let! models := listLoop (hd [] pages) (tl pages) [] in
     logger.info ("Found " +:+ pretty (Z.of_nat (length models))
                  +:+ " model files in S3 bucket") ;;;
     ret models)
    (fun error =>
       logger.error ("Error listing models from S3: " +:+ err_message error) ;;;
       throw error).

End S3Service.

(** ** [src/services/HealthCheckService.ts] *)
Module HealthCheckService.

(** What one call of [getHealth] reads from the runtime: [new Date()],
    the two calls of [Date.now()], [Math.floor(process.uptime())] and
    [process.memoryUsage()]. *)
Record Process := mkProcess {
  p_date : Z;
  p_now : Z;
  p_now' : Z;
  p_uptime : Z;
  p_memory : Z }.

Record HealthData := mkHealthData {
  status : string;
  uptime : Z;
  timestamp : Z;
  memory : Z;
  lastProcessed : option Z;
  timeSinceLastProcess : option Z }.

Definition set_status (s : string) (d : HealthData) : HealthData :=
  mkHealthData s (uptime d) (timestamp d) (memory d) (lastProcessed d)
               (timeSinceLastProcess d).

Definition constructor (now : Z) : Health := mkHealth None now true.

Definition maxIdleTime : Z := 10 * 60 * 1000.

Definition getHealth (p : Process) (this : Health) : HealthData * Health :=
  let healthData :=
    mkHealthData (if isHealthy this then "healthy" else "unhealthy")
                 (p_uptime p) (p_date p) (p_memory p)
                 (lastProcessedTime this)
                 (match lastProcessedTime this with
                  | Some t => Some (p_now p - t)
                  | None => None
                  end) in
  match lastProcessedTime this with
  | Some t =>
      if maxIdleTime <? p_now' p - t
      then (set_status "unhealthy" healthData,
            mkHealth (lastProcessedTime this) (startTime this) false)
      else (healthData, this)
  | None => (healthData, this)
  end.

Definition updateLastProcessed (now : Z) (this : Health) : Health :=
  mkHealth (Some now) (startTime this) true.

Definition setHealthy (healthy : bool) (this : Health) : Health :=
  mkHealth (lastProcessedTime this) (startTime this) healthy.

Definition getProcessCount (this : Health) : Z :=
  match lastProcessedTime this with Some _ => 1 | None => 0 end.

(** What [getMetrics] reads from the runtime besides the clock:
    [process.cpuUsage()], the environment, [process.version],
    [process.platform] and [process.arch]. *)
Record Runtime := mkRuntime {
  r_cpu : Z;
  r_env : Env;
  r_version : string;
  r_platform : string;
  r_arch : string }.

Record Metrics := mkMetrics {
  m_timestamp : Z;
  m_uptime : Z;
  m_memory : Z;
  m_cpu : Z;
  m_lastProcessed : option Z;
  processCount : Z;
  healthStatus : string;
  version : string;
  nodeVersion : string;
  platform : string;
  arch : string }.

Definition getMetrics (p : Process) (rt : Runtime) (this : Health) : Metrics :=
  mkMetrics (p_date p) (p_uptime p) (p_memory p) (r_cpu rt)
            (lastProcessedTime this)
            (getProcessCount this)
            (if isHealthy this then "healthy" else "unhealthy")
            (env_or (r_env rt) "npm_package_version" "1.0.0")
            (r_version rt) (r_platform rt) (r_arch rt).

Record Readiness := mkReadiness {
  ready : bool;
  missingEnvVars : option (list string) }.

Definition requiredEnvVars : list string :=
  ["AWS_ACCESS_KEY_ID"; "AWS_SECRET_ACCESS_KEY"; "AWS_REGION"; "S3_BUCKET_NAME";
   "SQS_UPDATE_QUEUE_URL"].

Definition isReady (env : Env) : Readiness :=
  let missingEnvVars :=
    List.filter (fun name => negb (env_set env name)) requiredEnvVars in
  mkReadiness (length missingEnvVars =? 0)%nat
              (if (0 <? length missingEnvVars)%nat then Some missingEnvVars else None).

Definition start {S} : M S unit := logger.info "Health check service initialized".

End HealthCheckService.

(** ** [src/services/ModelSyncService.ts] *)
Module ModelSyncService.

Inductive EventType := model_updated | model_deleted.

(** [ModelUpdateEvent]: the members copied from the record are not
    checked, so they are any JavaScript value. *)
Record ModelUpdateEvent := mkModelUpdateEvent {
  ev_type : EventType;
  ev_bucket : Js;
  ev_key : string;
  ev_size : Js;
  ev_timestamp : Js;
  ev_category : string;
  ev_modelType : string }.

Record SyncSummary := mkSyncSummary {
  success : bool;
  totalModels : Z;
  syncedModels : Z;
  errors : list string;
  duration : Z }.

(** The fields the constructor reads from the environment. *)
Record Config := mkConfig {
  region : string;
  s3Service : S3Service.Config;
  updateQueueUrl : string;
  notificationQueueUrl : string;
  modelsBasePath : string }.

Definition constructor (env : Env) : Res Config :=
  let region := env_or env "AWS_REGION" "us-west-2" in
  let s3Service := S3Service.constructor env in
  let updateQueueUrl := env_or env "SQS_UPDATE_QUEUE_URL" EmptyString in
  let notificationQueueUrl := env_or env "SQS_NOTIFICATION_QUEUE_URL" EmptyString in
  let modelsBasePath := env_or env "MODELS_BASE_PATH" "/models" in
  if String.eqb updateQueueUrl EmptyString || String.eqb notificationQueueUrl EmptyString
  then Throw (Error "SQS queue URLs are required")
  else Ok (mkConfig region s3Service updateQueueUrl notificationQueueUrl modelsBasePath).

(** [sleep(ms)]: the timer fires after [ms] milliseconds; it cannot fail. *)
Definition sleep (ms : Z) : M World unit :=
  modify (fun w => mkWorld (w_fs w) (w_s3 w) (w_pages w) (w_queue w) (w_sent w)
                           (w_health w) (w_now w + ms) (w_oracle w)).

Fixpoint for_each {S A} (body : A -> M S unit) (items : list A) : M S unit :=
  match items with
  | [] => ret tt
  | x :: rest => body x ;;; for_each body rest
  end.

(** [a || 'unknown'] for a path segment [a] that may be missing. *)
Definition or_unknown (seg : option string) : string :=
  match seg with
  | Some s => if String.eqb s EmptyString then "unknown" else s
  | None => "unknown"
  end.

Section Service.
Context `{Crypto}.
Variable modelsBasePath : string.

Definition getLocalModelPath (s3Key : string) : string :=
  modelsBasePath +:+ "/" +:+ s3Key.

Definition parseModelEvent (record : Js) (decodedKey : string)
    : M World (option ModelUpdateEvent) :=
  try_catch
    (let pathParts := JsString.split_slash decodedKey in
     if (length pathParts <? 2)%nat then ret None
     else
       let category := nth 0 pathParts EmptyString in
       let modelType := nth 1 pathParts EmptyString in
       let! eventName := of_res (JsValue.get record "eventName") in
       let! removed := of_res (JsValue.includes eventName "ObjectRemoved") in
       let! s3 := of_res (JsValue.get record "s3") in
       let! bucket := of_res (JsValue.get s3 "bucket") in
       let! name := of_res (JsValue.get bucket "name") in
       let! object := of_res (JsValue.get s3 "object") in
       let! size := of_res (JsValue.get object "size") in
       let! eventTime := of_res (JsValue.get record "eventTime") in
       ret (Some (mkModelUpdateEvent
                    (if removed then model_deleted else model_updated)
                    name decodedKey size eventTime category modelType)))
    (fun error => logger.error "Error parsing model event" ;;; ret None).

Definition notifyApplications (notification : NotificationEvent) : M World unit :=
  try_catch
    (let parts := JsString.split_slash (n_path notification) in
     sqsClient.sendMessage
       (mkSent notification (or_unknown (parts !! 1%nat)) (or_unknown (parts !! 0%nat))) ;;;
     logger.info "Notification sent to applications")
    (fun error =>
       logger.error ("Failed to notify applications: " +:+ err_message error) ;;;
       throw error).

Definition handleModelUpdate (event : ModelUpdateEvent) : M World unit :=
  try_catch
    (logger.info ("Processing model update: " +:+ ev_key event) ;;;
     let localPath := getLocalModelPath (ev_key event) in
     let! shouldUpdate := S3Service.shouldUpdateFile (ev_key event) localPath in
     if negb shouldUpdate then
       logger.info ("Model is already up to date: " +:+ ev_key event)
     else
       let! downloadResult := S3Service.downloadFile (ev_key event) localPath in
       if S3Service.success downloadResult then
         logger.info ("Model updated successfully: " +:+ ev_key event) ;;;
         let! now := Date_now in
         notifyApplications
           (mkNotification (ev_key event) localPath
                           (S3Service.downloaded downloadResult) now
                           (S3Service.duration downloadResult))
       else throw (Error "Model download failed"))
    (fun error =>
       logger.error ("Failed to update model: " +:+ err_message error) ;;;
       throw error).

Definition handleModelDeletion (event : ModelUpdateEvent) : M World unit :=
  try_catch
    (logger.info ("Processing model deletion: " +:+ ev_key event) ;;;
     let localPath := getLocalModelPath (ev_key event) in
     FileValidator.cleanupTempFile localPath ;;;
     logger.info ("Model deleted successfully: " +:+ ev_key event))
    (fun error =>
       logger.error ("Failed to delete model: " +:+ err_message error) ;;;
       throw error).

Definition handleS3Event (record : Js) : M World unit :=
  let! s3 := of_res (JsValue.get record "s3") in
  let! object := of_res (JsValue.get s3 "object") in
  let! rawKey := of_res (JsValue.get object "key") in
  let! key := of_res (JsString.decodeURIComponent (JsValue.toString rawKey)) in
  let! eventName := of_res (JsValue.get record "eventName") in
  logger.info ("Processing S3 event: " +:+ JsValue.toString eventName
               +:+ " for " +:+ key) ;;;
  if negb (FileValidator.isModelFile key) then
    logger.debug ("Skipping non-model file: " +:+ key)
  else
    let! modelEvent := parseModelEvent record key in
    match modelEvent with
    | None => logger.warn ("Failed to parse model event for: " +:+ key)
    | Some modelEvent =>
        let! created := of_res (JsValue.includes eventName "ObjectCreated") in
        let! update :=
          (if created then ret true
           else of_res (JsValue.includes eventName "ObjectModified")) in
        if update then handleModelUpdate modelEvent
        else
          let! removed := of_res (JsValue.includes eventName "ObjectRemoved") in
          if removed then handleModelDeletion modelEvent
          else logger.debug ("Unsupported event type: "
                             +:+ JsValue.toString eventName)
    end.

Definition handleMessage (message : Message) : M World unit :=
  try_catch
    (let! s3Event := of_res (m_Body message) in
     let! records := of_res (JsValue.get s3Event "Records") in
     match records with
     | JArr items => for_each handleS3Event items
     | _ => logger.warn "Invalid S3 event format, skipping"
     end)
    (fun error =>
       logger.error ("Error parsing SQS message: " +:+ err_message error) ;;;
       throw error).

Definition deleteMessage (message : Message) : M World unit :=
  try_catch
    (sqsClient.deleteMessage (m_ReceiptHandle message))
    (fun error =>
       logger.error ("Failed to delete SQS message: " +:+ err_message error)).

Definition updateLastProcessed : M World unit :=
  let! now := Date_now in
  modify (set_health (HealthCheckService.updateLastProcessed now)).

Definition processMessages : M World unit :=
  try_catch
    (let! messages := sqsClient.receive in
     match messages with
     | [] => ret tt
     | _ =>
         logger.info ("Received " +:+ pretty (Z.of_nat (length messages))
                      +:+ " messages from SQS") ;;;
         for_each
           (fun message =>
              try_catch
                (handleMessage message ;;;
                 deleteMessage message ;;;
                 updateLastProcessed)
                (fun error =>
                   logger.error ("Error processing message: "
                                 +:+ err_message error)))
           messages
     end)
    (fun error =>
       logger.error ("Error receiving messages from SQS: " +:+ err_message error)).

(** What the loop of [processMessages] does with one message. *)
Definition processMessage (message : Message) : M World unit :=
  try_catch
    (handleMessage message ;;;
     deleteMessage message ;;;
     updateLastProcessed)
    (fun error =>
       logger.error ("Error processing message: " +:+ err_message error)).

(** One round of the loop of [start]: the body of
    [while (this.isRunning)]. *)
Definition start_round : M World unit :=
  try_catch
    (processMessages ;;; sleep 5000)
    (fun error =>
       logger.error ("Error in main processing loop: " +:+ err_message error) ;;;
       sleep 10000).

(** The body of the loop of [triggerFullSync] for one key; the local
    variables are [errors] and [syncedModels]. *)
Definition syncModel (modelKey : string) : M ((list string * Z) * World) unit :=
  try_catch
    (let localPath := getLocalModelPath modelKey in
     let! shouldUpdate := lift (S3Service.shouldUpdateFile modelKey localPath) in
     if shouldUpdate then
       lift (logger.info ("Syncing model: " +:+ modelKey)) ;;;
       let! downloadResult := lift (S3Service.downloadFile modelKey localPath) in
       if S3Service.success downloadResult then
         modify_local (fun l => (fst l, snd l + 1)) ;;;
         lift (logger.info ("Successfully synced: " +:+ modelKey))
       else
         modify_local (fun l => (fst l ++ ["Failed to download " +:+ modelKey], snd l)) ;;;
         lift (logger.error ("Failed to sync: " +:+ modelKey))
     else lift (logger.debug ("Model already up to date: " +:+ modelKey)))
    (fun error =>
       modify_local (fun l => (fst l ++ ["Error syncing " +:+ modelKey +:+ ": "
                                         +:+ err_message error], snd l)) ;;;
       lift (logger.error ("Error syncing model " +:+ modelKey +:+ ": "
                           +:+ err_message error))).

Definition triggerFullSync : M World SyncSummary :=
  let! startTime := Date_now in
  with_local ([], 0)
    (try_catch
       (lift (logger.info "Starting manual full sync...") ;;;
        let! allModels := lift S3Service.listAllModels in
        if (length allModels =? 0)%nat then
          lift (logger.info "No models found in S3 bucket") ;;;
          let! now := lift Date_now in
          ret (mkSyncSummary true 0 0 [] (now - startTime))
        else
          lift (logger.info ("Found " +:+ pretty (Z.of_nat (length allModels))
                             +:+ " models in S3, starting sync...")) ;;;
          for_each syncModel allModels ;;;
          let! now := lift Date_now in
          let duration := now - startTime in
          let! locals := get_local in
          let success := (length (fst locals) =? 0)%nat in
          lift (logger.info "Full sync completed") ;;;
          ret (mkSyncSummary success (Z.of_nat (length allModels))
                             (snd locals) (fst locals) duration))
       (fun error =>
          let! now := lift Date_now in
          let duration := now - startTime in
          lift (logger.error ("Full sync failed: " +:+ err_message error)) ;;;
          let! locals := get_local in
          ret (mkSyncSummary false 0 (snd locals) [err_message error] duration))).

End Service.

End ModelSyncService.

(** ** [src/services/ApiService.ts]

    A route handler is the function from the state it reads to the
    response it sends ([res.status(code).json(body)]) and the state it
    leaves. *)
Module ApiService.

Record Response (B : Type) : Type := mkResponse { res_status : Z; res_body : B }.

Arguments mkResponse {B} res_status res_body.

Arguments res_status {B} r.

Arguments res_body {B} r.

(** [GET /health] *)
Definition health (p : HealthCheckService.Process) (this : Health)
    : Response HealthCheckService.HealthData * Health :=
  let r := HealthCheckService.getHealth p this in
  let health := fst r in
  (mkResponse (if String.eqb (HealthCheckService.status health) "healthy"
               then 200 else 503) health,
   snd r).

(** [GET /ready]: the body is [{ ready: isReady }]. *)
Definition ready (p : HealthCheckService.Process) (this : Health)
    : Response bool * Health :=
  let r := HealthCheckService.getHealth p this in
  let health := fst r in
  let isReady := String.eqb (HealthCheckService.status health) "healthy" in
  (mkResponse (if isReady then 200 else 503) isReady, snd r).

(** [GET /live]: the body is [{ alive: true }]. *)
Definition live : Response bool := mkResponse 200 true.

(** [GET /metrics] *)
Definition metrics (p : HealthCheckService.Process) (rt : HealthCheckService.Runtime)
    (this : Health) : Response HealthCheckService.Metrics :=
  mkResponse 200 (HealthCheckService.getMetrics p rt this).

Record ServiceStatus := mkServiceStatus {
  ss_status : string;
  ss_uptime : Z;
  ss_lastProcessed : option Z }.

Record SyncStatus := mkSyncStatus {
  service : ServiceStatus;
  status_metrics : HealthCheckService.Metrics }.

(** [GET /sync/status]: [getHealth] is called first, [getMetrics] after
    it; [p] and [p'] are what the two calls read from the runtime. *)
Definition sync_status (p p' : HealthCheckService.Process)
    (rt : HealthCheckService.Runtime) (this : Health)
    : Response SyncStatus * Health :=
  let r := HealthCheckService.getHealth p this in
  let health := fst r in
  let metrics := HealthCheckService.getMetrics p' rt (snd r) in
  (mkResponse 200
     (mkSyncStatus
        (mkServiceStatus (HealthCheckService.status health)
                         (HealthCheckService.uptime health)
                         (HealthCheckService.lastProcessed health))
        metrics),
   snd r).

Record SyncReply := mkSyncReply {
  reply_success : bool;
  reply_message : string;
  reply_data : option ModelSyncService.SyncSummary;
  reply_error : option string }.

(** [POST /sync/full] *)
Definition sync_full `{Crypto} (modelsBasePath : string) : M World (Response SyncReply) :=
  try_catch
    (logger.info "Manual full sync triggered via API" ;;;
     let! result := ModelSyncService.triggerFullSync modelsBasePath in
     if ModelSyncService.success result then
       ret (mkResponse 200 (mkSyncReply true "Full sync completed successfully"
                                        (Some result) None))
     else
       ret (mkResponse 207 (mkSyncReply false "Full sync completed with errors"
                                        (Some result) None)))
    (fun error =>
       let errorMessage := err_message error in
       logger.error ("API error during full sync: " +:+ errorMessage) ;;;
       ret (mkResponse 500 (mkSyncReply false "Internal server error during full sync"
                                        None (Some errorMessage)))).

(** The handler of every other route. *)
Definition not_found (method originalUrl : string) : Response (string * string) :=
  mkResponse 404 ("Not Found",
                  "Route " +:+ method +:+ " " +:+ originalUrl +:+ " not found").

End ApiService.

(** ** [src/index.ts] *)
Module Index.

Definition requiredEnvVars : list string :=
  ["AWS_ACCESS_KEY_ID"; "AWS_SECRET_ACCESS_KEY"; "AWS_REGION"; "S3_BUCKET_NAME";
   "SQS_UPDATE_QUEUE_URL"].

(** [main] up to the call of [start]: the service is constructed, or the
    error is logged and the process exits with the code 1.  Of the log
    lines only that of the error is kept. *)
Inductive Startup :=
| Started (service : ModelSyncService.Config)
| Exited (code : Z) (logged : string).

Definition main (env : Env) : Startup :=
  let attempt :=
    let missingEnvVars :=
      List.filter (fun name => negb (env_set env name)) requiredEnvVars in
    if (0 <? length missingEnvVars)%nat then
      Throw (Error ("Missing required environment variables: "
                    +:+ String.concat ", " missingEnvVars))
    else ModelSyncService.constructor env in
  match attempt with
  | Ok service => Started service
  | Throw error =>
      Exited 1 ("Failed to start Model Sync Service: " +:+ err_message error)
  end.

End Index.

(** * Specifications of runs *)

(** ** What a step of the world keeps *)

(** [rest w w']: from [w] to [w'] the bucket is unchanged and time has not
    gone back.  [later w w']: the local files are unchanged too. *)
Definition rest (w w' : World) : Prop :=
  w_s3 w' = w_s3 w /\ w_now w <= w_now w'.

Definition later (w w' : World) : Prop :=
  w_fs w' = w_fs w /\ rest w w'.

(** ** Outcomes of the filesystem calls *)

Inductive exists_outcome (p : string) (w : World) : bool -> World -> list Event -> Prop :=
| exists_probed w' :
    later w w' ->
    exists_outcome p w (bool_decide (is_Some (w_fs w !! p))) w' [EvFs OpExists p true]
| exists_failed w' msg :
    later w w' ->
    exists_outcome p w false w' [EvFault msg; EvFs OpExists p false].

Inductive stat_outcome (p : string) (w : World) : Res Stats -> World -> list Event -> Prop :=
| stat_found w' f :
    later w w' -> w_fs w !! p = Some f ->
    stat_outcome p w (Ok (mkStats (file_size f) (f_mtime f))) w' [EvFs OpStat p true]
| stat_missing w' :
    later w w' -> w_fs w !! p = None ->
    stat_outcome p w (Throw (fs.ENOENT "stat" p)) w' [EvFs OpStat p false]
| stat_failed w' msg :
    later w w' ->
    stat_outcome p w (Throw (Error msg)) w' [EvFault msg; EvFs OpStat p false].

Inductive remove_outcome (p : string) (w : World) : Res unit -> World -> list Event -> Prop :=
| remove_done w' :
    w_fs w' = delete p (w_fs w) -> rest w w' ->
    remove_outcome p w (Ok tt) w' [EvFs OpRemove p true]
| remove_failed w' msg :
    later w w' ->
    remove_outcome p w (Throw (Error msg)) w' [EvFault msg; EvFs OpRemove p false].

Inductive move_outcome (src dst : string) (w : World)
  : Res unit -> World -> list Event -> Prop :=
| move_done w' f :
    w_fs w !! src = Some f ->
    w_fs w' = <[dst := f]> (delete src (w_fs w)) -> rest w w' ->
    move_outcome src dst w (Ok tt) w' [EvMove src dst true]
| move_missing w' :
    later w w' -> w_fs w !! src = None ->
    move_outcome src dst w (Throw (fs.ENOENT "rename" src)) w' [EvMove src dst false]
| move_failed w' msg :
    later w w' ->
    move_outcome src dst w (Throw (Error msg)) w' [EvFault msg; EvMove src dst false].

(** A call that changes nothing: it resolves with the event [done], or is
    rejected with [failed]. *)
Inductive probe_outcome (done failed : Event) (w : World)
  : Res unit -> World -> list Event -> Prop :=
| probe_done w' : later w w' -> probe_outcome done failed w (Ok tt) w' [done]
| probe_failed w' msg :
    later w w' -> probe_outcome done failed w (Throw (Error msg)) w' [EvFault msg; failed].

Inductive open_outcome (p : string) (w : World) : Res unit -> World -> list Event -> Prop :=
| open_done w' t :
    w_fs w' = <[p := mkFile EmptyString t]> (w_fs w) -> rest w w' ->
    open_outcome p w (Ok tt) w' [EvFs OpOpen p true]
| open_failed w' msg :
    later w w' ->
    open_outcome p w (Throw (Error msg)) w' [EvFault msg; EvFs OpOpen p false].

Inductive write_outcome (p chunk : string) (w : World)
  : Res unit -> World -> list Event -> Prop :=
| write_done w' t :
    w_fs w' = <[p := mkFile (f_data (default (mkFile EmptyString t) (w_fs w !! p)) +:+ chunk) t]>
                (w_fs w) ->
    rest w w' ->
    write_outcome p chunk w (Ok tt) w' [EvFs OpWrite p true]
| write_failed w' msg :
    later w w' ->
    write_outcome p chunk w (Throw (Error msg)) w' [EvFault msg; EvFs OpWrite p false].

Inductive read_outcome (p : string) (w : World) : Res string -> World -> list Event -> Prop :=
| read_done w' f :
    later w w' -> w_fs w !! p = Some f ->
    read_outcome p w (Ok (f_data f)) w' [EvFs OpRead p true]
| read_missing w' :
    later w w' -> w_fs w !! p = None ->
    read_outcome p w (Throw (fs.ENOENT "open" p)) w' [EvFs OpRead p false]
| read_failed w' msg :
    later w w' ->
    read_outcome p w (Throw (Error msg)) w' [EvFault msg; EvFs OpRead p false].

(** ** Outcomes of the calls to the object store *)

Inductive head_outcome (key : string) (w : World)
  : Res S3Object -> World -> list Event -> Prop :=
| head_found w' o :
    later w w' -> w_s3 w !! key = Some o ->
    head_outcome key w (Ok o) w' [EvS3 OpHead key true]
| head_absent w' :
    later w w' -> w_s3 w !! key = None ->
    head_outcome key w (Throw (mkError "NotFound" "UnknownError")) w' [EvS3 OpHead key false]
| head_failed w' msg :
    later w w' ->
    head_outcome key w (Throw (Error msg)) w' [EvFault msg; EvS3 OpHead key false].

Inductive get_outcome (key : string) (w : World)
  : Res (option (list string)) -> World -> list Event -> Prop :=
| get_found w' o :
    later w w' -> w_s3 w !! key = Some o ->
    get_outcome key w (Ok (o_Body o)) w' [EvS3 OpGet key true]
| get_absent w' :
    later w w' -> w_s3 w !! key = None ->
    get_outcome key w (Throw (mkError "NoSuchKey" "The specified key does not exist."))
                w' [EvS3 OpGet key false]
| get_failed w' msg :
    later w w' ->
    get_outcome key w (Throw (Error msg)) w' [EvFault msg; EvS3 OpGet key false].

(** ** Outcomes of the helpers *)

Inductive info_outcome (key : string) (w : World)
  : Res (option S3Service.ObjectInfo) -> World -> list Event -> Prop :=
| info_found w' o :
    later w w' -> w_s3 w !! key = Some o ->
    info_outcome key w (Ok (Some (S3Service.objectInfo_of (w_now w') o))) w'
                 [EvS3 OpHead key true]
| info_absent w' :
    later w w' -> w_s3 w !! key = None ->
    info_outcome key w (Ok None) w' [EvS3 OpHead key false]
| info_failed w' msg :
    later w w' ->
    info_outcome key w (Throw (Error msg)) w'
                 [EvFault msg; EvS3 OpHead key false;
                  EvLog LError ("Error getting S3 object info: " +:+ msg)].

Inductive space_outcome (d : string) (w : World) : bool -> World -> list Event -> Prop :=
| space_checked w' : later w w' -> space_outcome d w true w' [EvFs OpAccess d true]
| space_failed w' msg :
    later w w' ->
    space_outcome d w false w'
                  [EvFault msg; EvFs OpAccess d false;
                   EvLog LError ("Error checking disk space: "
                                 +:+ error_string (Error msg))].

Inductive cleanup_outcome (p : string) (w : World) : World -> list Event -> Prop :=
| cleanup_absent w' :
    later w w' -> w_fs w !! p = None ->
    cleanup_outcome p w w' [EvFs OpExists p true]
| cleanup_unprobed w' msg :
    later w w' ->
    cleanup_outcome p w w' [EvFault msg; EvFs OpExists p false]
| cleanup_removed w' :
    is_Some (w_fs w !! p) -> w_fs w' = delete p (w_fs w) -> rest w w' ->
    cleanup_outcome p w w'
                    [EvFs OpExists p true; EvFs OpRemove p true;
                     EvLog LDebug ("Cleaned up temp file: " +:+ p)]
| cleanup_kept w' msg :
    is_Some (w_fs w !! p) -> later w w' ->
    cleanup_outcome p w w'
                    [EvFs OpExists p true; EvFault msg; EvFs OpRemove p false;
                     EvLog LWarn ("Failed to cleanup temp file: "
                                  +:+ error_string (Error msg))].

(** Unless the probe or the removal failed, the file is gone. *)
Definition cleanup_ok (p : string) (ev : list Event) : Prop :=
  ~ In (EvFs OpExists p false) ev /\ ~ In (EvFs OpRemove p false) ev.

Definition verified_msg : string := "File integrity verified successfully".

(** The check [downloadFile] asks for: the size only. *)
Inductive verify_outcome (p : string) (n : Z) (w : World)
  : bool -> World -> list Event -> Prop :=
| verify_passed w' f :
    later w w' -> w_fs w !! p = Some f -> n = 0 \/ file_size f = n ->
    verify_outcome p n w true w' [EvFs OpStat p true; EvLog LInfo verified_msg]
| verify_mismatch w' f :
    later w w' -> w_fs w !! p = Some f -> n <> 0 -> file_size f <> n ->
    verify_outcome p n w false w'
                   [EvFs OpStat p true;
                    EvLog LWarn ("File size mismatch: expected " +:+ pretty n
                                 +:+ ", got " +:+ pretty (file_size f))]
| verify_missing w' :
    later w w' -> w_fs w !! p = None ->
    verify_outcome p n w false w'
                   [EvFs OpStat p false;
                    EvLog LError ("Error verifying file integrity: "
                                  +:+ error_string (fs.ENOENT "stat" p))]
| verify_failed w' msg :
    later w w' ->
    verify_outcome p n w false w'
                   [EvFault msg; EvFs OpStat p false;
                    EvLog LError ("Error verifying file integrity: "
                                  +:+ error_string (Error msg))].

(** ** Reading a trace *)

Definition event_bytes (e : Event) : Z :=
  match e with EvData _ n => n | _ => 0 end.

Fixpoint data_bytes (ev : list Event) : Z :=
  match ev with
  | [] => 0
  | e :: r => event_bytes e + data_bytes r
  end.

(** The events of the body stream flowing into the staging file. *)
Definition pump_event (tmp : string) (e : Event) : Prop :=
  match e with
  | EvFault _ => True
  | EvLog LDebug _ => True
  | EvData p n => p = tmp /\ 0 <= n
  | EvFs OpWrite p _ => p = tmp
  | _ => False
  end.

Record pump_outcome (tmp : string) (l : Z) (w : World) (r : Res unit)
    (l' : Z) (w' : World) (ev : list Event) : Prop := {
  pump_rest : rest w w';
  pump_events : Forall (pump_event tmp) ev;
  pump_count : l' = l + data_bytes ev;
  pump_size : r = Ok tt -> forall f, w_fs w !! tmp = Some f ->
              exists f', w_fs w' !! tmp = Some f'
                         /\ file_size f' = file_size f + data_bytes ev }.

(** ** The order of the steps on a staging file

    A monitor reads the trace of a download.  The staging file [tmp] is
    [Writing] until its write stream is closed; only then may it be read
    ([fs.stat], a digest), and nothing writes to it any more; it is
    [Statted] by a successful [fs.stat], [Verified] by the line that
    [verifyFileIntegrity] logs before it returns [true], and only a
    [Verified] file is moved. *)
Inductive Phase := Writing | Closed | Statted | Verified.

Global Instance Phase_eq_dec : EqDecision Phase.
Proof. solve_decision. Defined.

Definition same (p q : string) : bool := String.eqb p q.

Arguments same : simpl never.

Definition while_writing (ph : Phase) : option Phase :=
  match ph with Writing => Some Writing | _ => None end.

Definition once_closed (ph : Phase) : option Phase :=
  match ph with Writing => None | _ => Some ph end.

Definition watch (tmp : string) (ph : Phase) (e : Event) : option Phase :=
  match e with
  | EvFs OpOpen p _ | EvFs OpWrite p _ | EvData p _ =>
      if same p tmp then while_writing ph else Some ph
  | EvFs OpClose p true =>
      if same p tmp then match ph with Writing => Some Closed | _ => None end
      else Some ph
  | EvFs OpStat p ok =>
      if same p tmp then
        match ph with
        | Writing => None
        | Closed => Some (if ok then Statted else Closed)
        | _ => Some ph
        end
      else Some ph
  | EvFs OpRead p _ => if same p tmp then once_closed ph else Some ph
  | EvLog LInfo msg =>
      Some match ph with
           | Statted => if same msg verified_msg then Verified else Statted
           | _ => ph
           end
  | EvMove src _ _ =>
      if same src tmp then match ph with Verified => Some Verified | _ => None end
      else Some ph
  | _ => Some ph
  end.

Fixpoint watch_all (tmp : string) (ph : Phase) (ev : list Event) : option Phase :=
  match ev with
  | [] => Some ph
  | e :: r =>
      match watch tmp ph e with
      | Some ph' => watch_all tmp ph' r
      | None => None
      end
  end.

Definition writes_to (tmp : string) (e : Event) : Prop :=
  match e with
  | EvFs OpOpen p _ | EvFs OpWrite p _ | EvData p _ => p = tmp
  | _ => False
  end.

(** What acceptance by the monitor means for a trace. *)
Record in_order (tmp : string) (ev : list Event) : Prop := {
  read_after_close : forall pre post op b,
    op = OpStat \/ op = OpRead ->
    ev = pre ++ EvFs op tmp b :: post -> In (EvFs OpClose tmp true) pre;
  closed_is_final : forall pre post,
    ev = pre ++ EvFs OpClose tmp true :: post ->
    Forall (fun e => ~ writes_to tmp e) post;
  move_after_verify : forall pre post dst b,
    ev = pre ++ EvMove tmp dst b :: post ->
    In (EvFs OpStat tmp true) pre /\ In (EvLog LInfo verified_msg) pre }.

(** ** The local paths and the keys a run touches *)

Definition touches (key localPath : string) (e : Event) : Prop :=
  match e with
  | EvFs _ p _ =>
      p = localPath \/ p = localPath +:+ ".tmp" \/ p = JsString.dirname localPath
  | EvMove src dst _ => src = localPath +:+ ".tmp" /\ dst = localPath
  | EvData p _ => p = localPath +:+ ".tmp"
  | EvS3 _ k _ => k = key
  | EvSqs OpSend _ => True
  | EvSqs _ _ => False
  | EvLog _ _ | EvFault _ => True
  end.

(** [await pipeline(bodyStream, writeStream)] *)
Record pipeline_outcome (tmp : string) (l : Z) (w : World) (r : Res unit)
    (l' : Z) (w' : World) (ev : list Event) : Prop := {
  pl_rest : rest w w';
  pl_count : l' = l + data_bytes ev;
  pl_watch : watch_all tmp Writing ev
             = Some (match r with Ok _ => Closed | Throw _ => Writing end);
  pl_touches : forall key lp, tmp = lp +:+ ".tmp" -> Forall (touches key lp) ev;
  pl_written : r = Ok tt ->
               exists f, w_fs w' !! tmp = Some f /\ file_size f = data_bytes ev }.

(** ** [downloadFile], step by step *)

Definition remote_size (o : S3Object) : Z :=
  S3Service.size (S3Service.objectInfo_of 0 o).

Record download_post (key lp : string) (w : World) (r : S3Service.DownloadResult)
    (w' : World) (ev : list Event) : Prop := {
  dl_rest : rest w w';
  dl_duration : S3Service.duration r = w_now w' - w_now w;
  dl_bytes : S3Service.downloaded r = data_bytes ev;
  dl_watch : is_Some (watch_all (lp +:+ ".tmp") Writing ev);
  dl_touches : Forall (touches key lp) ev;
  dl_installed :
    S3Service.success r = true ->
    exists o f, w_s3 w !! key = Some o
                /\ w_fs w' !! lp = Some f
                /\ file_size f = S3Service.downloaded r
                /\ (remote_size o = 0 \/ remote_size o = S3Service.downloaded r)
                /\ w_fs w' !! (lp +:+ ".tmp") = None;
  dl_cleaned :
    S3Service.success r = false ->
    In (EvFs OpOpen (lp +:+ ".tmp") true) ev ->
    (exists b, In (EvFs OpExists (lp +:+ ".tmp") b) ev)
    /\ (cleanup_ok (lp +:+ ".tmp") ev -> w_fs w' !! (lp +:+ ".tmp") = None) }.

(** ** [shouldUpdateFile], step by step *)

(** The decision as the specification words it: update when there is no
    local file; else do not when the remote object is absent; else update
    when the sizes differ; else update when the remote object is strictly
    newer; else do not. *)
Definition needsUpdate (local : option File) (remote : option S3Service.ObjectInfo) : bool :=
  match local with
  | None => true
  | Some f =>
      match remote with
      | None => false
      | Some info =>
          if negb (file_size f =? S3Service.size info) then true
          else if f_mtime f <? S3Service.lastModified info then true
          else false
      end
  end.

Definition faulted (ev : list Event) : Prop := exists msg, In (EvFault msg) ev.

Record update_post (key lp : string) (w : World) (b : bool) (w' : World)
    (ev : list Event) : Prop := {
  up_later : later w w';
  up_touches : Forall (touches key lp) ev;
  up_fault : faulted ev -> b = true;
  up_decision :
    ~ faulted ev ->
    exists t, w_now w <= t <= w_now w'
              /\ b = needsUpdate (w_fs w !! lp)
                                 (S3Service.objectInfo_of t <$> w_s3 w !! key);
  up_warning :
    ~ faulted ev -> is_Some (w_fs w !! lp) -> w_s3 w !! key = None ->
    In (EvLog LWarn ("S3 object not found: " +:+ key)) ev }.

(** * Scenarios and specification-level definitions *)

(** ** Worlds to run the service in *)

(** A stand-in for SHA-256, to run examples: the bytes themselves.  The
    theorems hold for every digest function. *)
Definition plain_digest : Crypto := fun data => data.

Definition bytes (n : nat) : string := string_of_list_ascii (repeat "x"%char n).

Definition model_key : string := "essential/voice/model.bin".

(** The object of scenario A: 1000 bytes, arriving as two chunks. *)
Definition model_obj : S3Object :=
  mkS3Object (Some 1000) (Some 1700000000000) (Some "5eb63bbbe01eeed0")
             (Some [bytes 600; bytes 400]).

Definition no_fault : Tick := mkTick 5 None.

Definition fault (msg : string) : Tick := mkTick 5 (Some msg).

Definition world0 (oracle : list Tick) : World :=
  mkWorld ∅ {[ model_key := model_obj ]} [[Some model_key; Some "README.md"]]
          [] [] (HealthCheckService.constructor 1700000100000) 1700000100000 oracle.

(** The body stream breaks before its second chunk (the 8th step of the
    world); in [world_busy] the removal of the staging file fails too (the
    10th step). *)
Definition world_broken : World :=
  world0 (repeat no_fault 7 ++ [fault "socket hang up"]).


Definition is_fs_event (e : Event) : bool :=
  match e with EvFs _ _ _ | EvMove _ _ _ | EvData _ _ => true | _ => false end.

Definition local_world (f : File) (o : S3Object) : World :=
  mkWorld {[ "/models/a.bin" := f ]} {[ "a.bin" := o ]} [] [] []
          (HealthCheckService.constructor 0) 2000 [].

Definition remote (size modified : Z) : S3Object :=
  mkS3Object (Some size) (Some modified) None None.

Definition staged_world (data : string) : World :=
  mkWorld {[ "/models/m.bin.tmp" := mkFile data 1000 ]} ∅ [] [] []
          (HealthCheckService.constructor 0) 2000 [].

(** ** The liveness tracker *)

(** The stored state after a series of calls of [getHealth]. *)
Fixpoint poll (readings : list HealthCheckService.Process) (this : Health) : Health :=
  match readings with
  | [] => this
  | p :: rest => poll rest (snd (HealthCheckService.getHealth p this))
  end.

(** ** Full reconciliation *)

Inductive KeyOutcome := UpToDate | Synced | Failed.

Global Instance KeyOutcome_eq_dec : EqDecision KeyOutcome.
Proof. solve_decision. Defined.

(** What the specification asks for each candidate key, on its own: decide
    whether an update is needed, and download if it is. *)
Definition reconcile_key `{Crypto} (modelsBasePath key : string) : M World KeyOutcome :=
  let localPath := ModelSyncService.getLocalModelPath modelsBasePath key in
  let! needed := S3Service.shouldUpdateFile key localPath in
  if needed then
    let! result := S3Service.downloadFile key localPath in
    ret (if S3Service.success result then Synced else Failed)
  else ret UpToDate.

(** Every key in turn, whatever became of the keys before it. *)
Fixpoint reconcile_all `{Crypto} (modelsBasePath : string) (keys : list string)
    : M World (list KeyOutcome) :=
  match keys with
  | [] => ret []
  | key :: rest =>
      let! o := reconcile_key modelsBasePath key in
      let! os := reconcile_all modelsBasePath rest in
      ret (o :: os)
  end.

Definition failure_of (key : string) (o : KeyOutcome) : list string :=
  match o with Failed => ["Failed to download " +:+ key] | _ => [] end.

Definition synced_of (o : KeyOutcome) : Z :=
  match o with Synced => 1 | _ => 0 end.

(** One error entry for each failed key, in the order of the keys. *)
Fixpoint failures (keys : list string) (outs : list KeyOutcome) : list string :=
  match keys, outs with
  | key :: keys', o :: outs' => failure_of key o ++ failures keys' outs'
  | _, _ => []
  end.

Fixpoint synced (outs : list KeyOutcome) : Z :=
  match outs with
  | [] => 0
  | o :: outs' => synced_of o + synced outs'
  end.

(** Three candidates of which the second cannot be downloaded (its body
    stream breaks): the first and the third are synced, and the error list
    is the one entry for the second. *)
Definition three_models : World :=
  mkWorld ∅
          {[ "a/b/one.bin" := model_obj; "a/b/two.bin" := model_obj;
             "a/b/three.bin" := model_obj ]}
          [[Some "a/b/one.bin"; Some "a/b/notes.md"; Some "a/b/two.bin"];
           [None; Some "a/b/three.bin"]]
          [] [] (HealthCheckService.constructor 0) 1000
          (repeat no_fault 21 ++ [fault "socket hang up"]).

(** ** Events of a computation, whatever the state *)


Definition is_log (e : Event) : Prop :=
  match e with EvLog _ _ => True | _ => False end.

(** ** Local paths *)

(** The URL-decoded object key of a record, as [handleS3Event] reads it. *)
Definition record_key (record : Js) : Res string :=
  match JsValue.get record "s3" with
  | Ok s3 =>
      match JsValue.get s3 "object" with
      | Ok object =>
          match JsValue.get object "key" with
          | Ok rawKey => JsString.decodeURIComponent (JsValue.toString rawKey)
          | Throw e => Throw e
          end
      | Throw e => Throw e
      end
  | Throw e => Throw e
  end.




(** An S3 event record, as the bucket notification sends it. *)
Definition s3_record (eventName key : string) : Js :=
  JObj [("eventVersion", JStr "2.1");
        ("eventSource", JStr "aws:s3");
        ("eventTime", JStr "2024-01-01T00:00:00.000Z");
        ("eventName", JStr eventName);
        ("s3", JObj [("bucket", JObj [("name", JStr "gamania-voice-models")]);
                     ("object", JObj [("key", JStr key);
                                      ("size", JNum 1000);
                                      ("eTag", JStr "5eb63bbbe01eeed0")])])].

Definition installed_world : World :=
  mkWorld {[ "/models/essential/voice/model.bin" := mkFile (bytes 1000) 1700000000500 ]}
          ∅ [] [] [] (HealthCheckService.constructor 0) 1700000100000 [].


(** ** Malformed records *)

(** A message of two records: the first lacks its [s3] member, the second
    is the well-formed creation event of scenario A. *)
Definition malformed_record : Js :=
  JObj [("eventName", JStr "ObjectCreated:Put")].

Definition mixed_message : Message :=
  mkMessage "msg-1" "receipt-1"
            (Ok (JObj [("Records", JArr [malformed_record;
                                         s3_record "ObjectCreated:Put" model_key])])).

Definition well_formed_message : Message :=
  mkMessage "msg-2" "receipt-2"
            (Ok (JObj [("Records", JArr [s3_record "ObjectCreated:Put" model_key])])).

Definition world_queue (queue : list Message) : World :=
  mkWorld ∅ {[ model_key := model_obj ]} [] queue []
          (HealthCheckService.constructor 1700000100000) 1700000100000 [].

(** Records that [parseModelEvent] rejects are skipped with a warning, and
    the records after them are processed: here a key of one segment, and a
    record without [eventName]. *)
Definition unparseable_message : Message :=
  mkMessage "msg-3" "receipt-3"
            (Ok (JObj [("Records",
                        JArr [s3_record "ObjectCreated:Put" "model.bin";
                              JObj [("s3", JObj [("object",
                                                  JObj [("key", JStr "a/b/c.bin")])])];
                              s3_record "ObjectCreated:Put" model_key])])).

(** ** Requests to the API

    The requests that read the health service, and the status codes a
    series of them is answered with. *)
Inductive Probe := GetHealth | GetReady | GetMetrics | GetSyncStatus.

Definition answer (probe : Probe) (p : HealthCheckService.Process)
    (rt : HealthCheckService.Runtime) (this : Health) : Z * Health :=
  match probe with
  | GetHealth =>
      let r := ApiService.health p this in (ApiService.res_status (fst r), snd r)
  | GetReady =>
      let r := ApiService.ready p this in (ApiService.res_status (fst r), snd r)
  | GetMetrics => (ApiService.res_status (ApiService.metrics p rt this), this)
  | GetSyncStatus =>
      let r := ApiService.sync_status p p rt this in (ApiService.res_status (fst r), snd r)
  end.

Fixpoint serve (requests : list (Probe * HealthCheckService.Process * HealthCheckService.Runtime))
    (this : Health) : list Z * Health :=
  match requests with
  | [] => ([], this)
  | (probe, p, rt) :: rest =>
      let a := answer probe p rt this in
      let r := serve rest (snd a) in
      (fst a :: fst r, snd r)
  end.

(** ** Environments to start the service in *)

Definition full_env : Env :=
  {[ "AWS_ACCESS_KEY_ID" := "AKIAEXAMPLE"; "AWS_SECRET_ACCESS_KEY" := "secret";
     "AWS_REGION" := "ap-northeast-1"; "S3_BUCKET_NAME" := "voice-models";
     "SQS_UPDATE_QUEUE_URL" := "https://sqs.example/update";
     "SQS_NOTIFICATION_QUEUE_URL" := "https://sqs.example/notify" ]}.

(** ** Keys *)

(** A character of the ASCII range. *)
Definition is_ascii (c : ascii) : bool := (nat_of_ascii c <? 128)%nat.

Definition starts_ascii (s : string) : bool :=
  match s with
  | EmptyString => true
  | String c _ => is_ascii c
  end.

Fixpoint has_percent (s : string) : bool :=
  match s with
  | EmptyString => false
  | String c s' => Ascii.eqb c "%" || has_percent s'
  end.

(** ** What a computation leaves as it is *)

(** [preserves R m]: every run of [m] takes a state to one that [R]
    relates it to, whether it returns or throws. *)
Definition preserves {S A} (R : S -> S -> Prop) (m : M S A) : Prop :=
  forall s, R s (out_st (m s)).

Definition on_snd {L S} (R : S -> S -> Prop) (ls ls' : L * S) : Prop :=
  R (snd ls) (snd ls').

(** The part [view] of the world is the same. *)
Definition keeps {V} (view : World -> V) (w w' : World) : Prop := view w' = view w.

(** Every local file outside [paths] is as it was. *)
Definition confined (paths : list string) (w w' : World) : Prop :=
  forall q, ~ In q paths -> w_fs w' !! q = w_fs w !! q.

(** All of the world but the clock and the oracle of faults. *)
Definition everything (w : World) :=
  (w_fs w, w_s3 w, w_pages w, w_queue w, w_sent w, w_health w).

(** All of it but the local files. *)
Definition surroundings (w : World) :=
  (w_s3 w, w_pages w, w_queue w, w_sent w, w_health w).

(** ** Messages *)

(** The update queue and the health state. *)
Definition bookkeeping (w : World) := (w_queue w, w_health w).

(** The clock does not go back. *)
Definition clock (w w' : World) : Prop := w_now w <= w_now w'.

(** Time passes: nothing but the clock and the oracle changes. *)
Definition passes (w w' : World) : Prop :=
  everything w' = everything w /\ w_now w <= w_now w'.

(** ** The bytes of a download *)

(** The body of an object: its chunks, one after the other. *)
Definition joined (chunks : list string) : string :=
  fold_right String.append EmptyString chunks.

Definition is_fault (e : Event) : bool :=
  match e with EvFault _ => true | _ => false end.

(** No call of the run failed. *)
Definition no_faults (ev : list Event) : bool := forallb (fun e => negb (is_fault e)) ev.

(** What a download leaves at its target: on success the body of the
    object, and no call has failed; on failure what was there before. *)
Record download_data (key lp : string) (w : World) (r : S3Service.DownloadResult)
    (w' : World) (ev : list Event) : Prop := {
  dd_installed :
    S3Service.success r = true ->
    no_faults ev = true
    /\ exists o chunks f,
         w_s3 w !! key = Some o /\ o_Body o = Some chunks
         /\ w_fs w' !! lp = Some f /\ f_data f = joined chunks;
  dd_kept :
    S3Service.success r = false -> w_fs w' !! lp = w_fs w !! lp }.


(** ** The listing *)




(** ** Records by kind of event *)

(** What [parseModelEvent] makes of the record [s3_record eventName key]. *)
Definition model_event (eventName key : string) : ModelSyncService.ModelUpdateEvent :=
  ModelSyncService.mkModelUpdateEvent
    (if JsString.includes eventName "ObjectRemoved"
     then ModelSyncService.model_deleted else ModelSyncService.model_updated)
    (JStr "gamania-voice-models") key (JNum 1000) (JStr "2024-01-01T00:00:00.000Z")
    (nth 0 (JsString.split_slash key) EmptyString)
    (nth 1 (JsString.split_slash key) EmptyString).

(** What [handleS3Event] goes on to do with that record once it has
    logged it. *)
Definition dispatch `{Crypto} (modelsBasePath eventName key : string) : M World unit :=
  if (length (JsString.split_slash key) <? 2)%nat then
    logger.warn ("Failed to parse model event for: " +:+ key)
  else if JsString.includes eventName "ObjectCreated"
          || JsString.includes eventName "ObjectModified" then
    ModelSyncService.handleModelUpdate modelsBasePath (model_event eventName key)
  else if JsString.includes eventName "ObjectRemoved" then
    ModelSyncService.handleModelDeletion modelsBasePath (model_event eventName key)
  else logger.debug ("Unsupported event type: " +:+ eventName).

(** ** The paths of a full sync *)


(** ** Messages of several records *)

(** The first record has a key that cannot be decoded; the second is the
    well-formed creation event of scenario A. *)
Definition undecodable_message : Message :=
  mkMessage "msg-5" "receipt-5"
            (Ok (JObj [("Records", JArr [s3_record "ObjectCreated:Put" "essential/voice/50%";
                                         s3_record "ObjectCreated:Put" model_key])])).

(** ** The integrity check, as a decision *)


(** * Proofs *)

(** ** Rules of the weakest precondition *)

Lemma wp_ret {S A} (a : A) (s : S) Q E : Q a s [] -> wp (ret a) s Q E.
Proof. intros HQ. exact HQ. Qed.

Lemma wp_throw {S A} (e : JsError) (s : S) (Q : A -> S -> list Event -> Prop) E :
  E e s [] -> wp (throw e) s Q E.
Proof. intros HE. exact HE. Qed.

Lemma wp_emit {S} (ev : Event) (s : S) Q E : Q tt s [ev] -> wp (emit ev) s Q E.
Proof. intros HQ. exact HQ. Qed.

Lemma wp_gets {S A} (f : S -> A) (s : S) Q E : Q (f s) s [] -> wp (gets f) s Q E.
Proof. intros HQ. exact HQ. Qed.

Lemma wp_modify {S} (f : S -> S) (s : S) Q E : Q tt (f s) [] -> wp (modify f) s Q E.
Proof. intros HQ. exact HQ. Qed.

Lemma wp_bind {S A B} (m : M S A) (k : A -> M S B) (s : S) Q E :
  wp m s
     (fun a s1 ev1 => wp (k a) s1 (fun b s2 ev2 => Q b s2 (ev1 ++ ev2))
                                  (fun e s2 ev2 => E e s2 (ev1 ++ ev2)))
     E ->
  wp (bind m k) s Q E.
Proof.
  unfold wp, bind. destruct (out_res (m s)) as [a|e]; simpl; [|tauto].
  destruct (out_res (k a (out_st (m s)))); simpl; tauto.
Qed.

Lemma wp_try {S A} (m : M S A) (h : JsError -> M S A) (s : S) Q E :
  wp m s Q
     (fun e s1 ev1 => wp (h e) s1 (fun a s2 ev2 => Q a s2 (ev1 ++ ev2))
                                  (fun e' s2 ev2 => E e' s2 (ev1 ++ ev2))) ->
  wp (try_catch m h) s Q E.
Proof.
  unfold wp, try_catch. destruct (out_res (m s)) as [a|e] eqn:Hm; simpl.
  - rewrite Hm. tauto.
  - destruct (out_res (h e (out_st (m s)))); simpl; tauto.
Qed.

Lemma wp_mono {S A} (m : M S A) (s : S) (Q Q' : A -> S -> list Event -> Prop)
    (E E' : JsError -> S -> list Event -> Prop) :
  wp m s Q E ->
  (forall a s' ev, Q a s' ev -> Q' a s' ev) ->
  (forall e s' ev, E e s' ev -> E' e s' ev) ->
  wp m s Q' E'.
Proof. unfold wp. destruct (out_res (m s)); auto. Qed.

Lemma wp_lift {L S A} (m : M S A) (l : L) (s : S) Q E :
  wp m s (fun a s' ev => Q a (l, s') ev) (fun e s' ev => E e (l, s') ev) ->
  wp (lift m) (l, s) Q E.
Proof. unfold wp, lift. simpl. destruct (out_res (m s)); auto. Qed.

Lemma wp_with_local {L S A} (init : L) (m : M (L * S) A) (s : S) Q E :
  wp m (init, s) (fun a ls ev => Q a (snd ls) ev) (fun e ls ev => E e (snd ls) ev) ->
  wp (with_local init m) s Q E.
Proof. unfold wp, with_local. simpl. destruct (out_res (m (init, s))); auto. Qed.

(** What a run returned, read back from [wp]. *)
Lemma wp_run {S A} (m : M S A) (s : S) Q E :
  wp m s Q E ->
  match out_res (m s) with
  | Ok a => Q a (out_st (m s)) (out_ev (m s))
  | Throw e => E e (out_st (m s)) (out_ev (m s))
  end.
Proof. intros H. exact H. Qed.

(** ** The string functions on examples *)

Example toLowerCase_ex : JsString.toLowerCase "A/Model.BIN" = "a/model.bin".
Proof. reflexivity. Qed.

Example split_slash_ex :
  JsString.split_slash "essential/voice/model.bin" = ["essential"; "voice"; "model.bin"].
Proof. reflexivity. Qed.

Example split_slash_trailing : JsString.split_slash "a/" = ["a"; ""].
Proof. reflexivity. Qed.

Example decode_ex1 :
  JsString.decodeURIComponent "essential/voice/my%20model%2B1.bin"
  = Ok "essential/voice/my model+1.bin".
Proof. reflexivity. Qed.

Example decode_ex2 : JsString.decodeURIComponent "a%E5%9C%93.pth"
  = Ok ("a" +:+ String (ascii_of_nat 229) (String (ascii_of_nat 156)
         (String (ascii_of_nat 147) ".pth"))).
Proof. reflexivity. Qed.

Example decode_bad1 : JsString.decodeURIComponent "a%2" = Throw (URIError "URI malformed").
Proof. reflexivity. Qed.

Example decode_bad2 : JsString.decodeURIComponent "a%E5%9C.pth" = Throw (URIError "URI malformed").
Proof. reflexivity. Qed.

Example decode_bad3 : JsString.decodeURIComponent "%C0%80" = Throw (URIError "URI malformed").
Proof. reflexivity. Qed.

Example dirname_ex1 : JsString.dirname "/models/essential/voice/model.bin" = "/models/essential/voice".
Proof. reflexivity. Qed.

Example dirname_ex2 : JsString.dirname "/model.bin" = "/".
Proof. reflexivity. Qed.

Example dirname_ex3 : JsString.dirname "model.bin" = ".".
Proof. reflexivity. Qed.

Example dirname_ex4 : JsString.dirname "a//b" = "a/".
Proof. reflexivity. Qed.

Example isModelFile_bin : FileValidator.isModelFile "essential/voice/Model.BIN" = true.
Proof. reflexivity. Qed.

Example isModelFile_png : FileValidator.isModelFile "essential/voice/cover.png" = false.
Proof. reflexivity. Qed.

Example isModelFile_undefined : FileValidator.isModelFile "undefined" = false.
Proof. reflexivity. Qed.

(** ** Steps of the world *)

Lemma rest_refl w : rest w w.
Proof. split; [reflexivity | lia]. Qed.

Lemma rest_trans w1 w2 w3 : rest w1 w2 -> rest w2 w3 -> rest w1 w3.
Proof. intros [H1 H2] [H3 H4]. split; [congruence | lia]. Qed.

Lemma later_refl w : later w w.
Proof. split; [reflexivity | apply rest_refl]. Qed.

Lemma later_trans w1 w2 w3 : later w1 w2 -> later w2 w3 -> later w1 w3.
Proof.
  intros [H1 H2] [H3 H4]. split; [congruence | eapply rest_trans; eauto].
Qed.

Lemma later_rest w w' : later w w' -> rest w w'.
Proof. intros [_ H]. exact H. Qed.

Lemma rest_set_fs f w : rest w (set_fs f w).
Proof. split; simpl; [reflexivity | lia]. Qed.

Lemma later_step t r w : later w (step_world t r w).
Proof. split; [reflexivity|]. split; [reflexivity|]. simpl. lia. Qed.

Create HintDb world discriminated.

#[export] Hint Resolve rest_refl later_refl later_rest rest_set_fs later_step : world.

#[export] Hint Extern 2 (rest _ _) => eapply rest_trans; [eassumption|] : world.

#[export] Hint Extern 2 (later _ _) => eapply later_trans; [eassumption|] : world.

(** ** The external calls *)

Lemma wp_tick w Q E :
  (forall w', later w w' -> Q tt w' []) ->
  (forall msg w', later w w' -> E (Error msg) w' [EvFault msg]) ->
  wp tick w Q E.
Proof.
  intros HQ HE. unfold wp, tick.
  destruct (w_oracle w) as [|t r]; simpl.
  - apply HQ. apply later_refl.
  - destruct (t_fault t); simpl; [apply HE | apply HQ]; apply later_step.
Qed.

Lemma wp_attempt failed w Q E :
  (forall w', later w w' -> Q tt w' []) ->
  (forall msg w', later w w' -> E (Error msg) w' [EvFault msg; failed]) ->
  wp (attempt failed) w Q E.
Proof.
  intros HQ HE. unfold attempt. apply wp_try. apply wp_tick.
  - exact HQ.
  - intros msg w' Hl. apply wp_bind. apply wp_emit. apply wp_throw.
    simpl. apply HE. exact Hl.
Qed.

Lemma wp_of_res {S A} (r : Res A) (s : S) Q E :
  match r with Ok a => Q a s [] | Throw e => E e s [] end ->
  wp (of_res r) s Q E.
Proof. intros H. unfold wp, of_res. simpl. destruct r; exact H. Qed.

(** Structural steps of a [wp] goal. *)
Ltac wp_step :=
  lazymatch goal with
  | |- wp (bind _ _) _ _ _ => apply wp_bind
  | |- wp (try_catch _ _) _ _ _ => apply wp_try
  | |- wp (ret _) _ _ _ => apply wp_ret
  | |- wp (throw _) _ _ _ => apply wp_throw
  | |- wp (emit _) _ _ _ => apply wp_emit
  | |- wp (gets _) _ _ _ => apply wp_gets
  | |- wp (modify _) _ _ _ => apply wp_modify
  | |- wp get_local _ _ _ => apply wp_gets
  | |- wp (modify_local _) _ _ _ => apply wp_modify
  | |- wp Date_now _ _ _ => apply wp_gets
  | |- wp (logger.debug _) _ _ _ => apply wp_emit
  | |- wp (logger.info _) _ _ _ => apply wp_emit
  | |- wp (logger.warn _) _ _ _ => apply wp_emit
  | |- wp (logger.error _) _ _ _ => apply wp_emit
  | |- wp (lift _) (_, _) _ _ => apply wp_lift
  | |- wp (with_local _ _) _ _ _ => apply wp_with_local
  | |- wp (attempt _) _ _ _ => apply wp_attempt; intros
  | |- wp tick _ _ _ => apply wp_tick; intros
  end; cbv beta.

Ltac wp_steps := repeat wp_step.

Lemma wp_pathExists p w Q E :
  (forall b w' ev, exists_outcome p w b w' ev -> Q b w' ev) ->
  wp (fs.pathExists p) w Q E.
Proof.
  intros HQ. unfold fs.pathExists. wp_steps.
  - destruct H as [Hfs Hr]. rewrite Hfs. simpl. apply HQ. constructor.
    split; assumption.
  - simpl. apply HQ. constructor. assumption.
Qed.

Lemma wp_stat p w Q E :
  (forall r w' ev, stat_outcome p w r w' ev ->
                   match r with Ok a => Q a w' ev | Throw e => E e w' ev end) ->
  wp (fs.stat p) w Q E.
Proof.
  intros HQ. unfold fs.stat. wp_steps.
  - destruct (w_fs w' !! p) as [f|] eqn:Hf; wp_steps; simpl.
    + apply (HQ (Ok _)). constructor; [assumption|]. destruct H as [<- _]. exact Hf.
    + apply (HQ (Throw _)). constructor; [assumption|]. destruct H as [<- _]. exact Hf.
  - apply (HQ (Throw _)). constructor. assumption.
Qed.

Lemma wp_remove p w Q E :
  (forall r w' ev, remove_outcome p w r w' ev ->
                   match r with Ok a => Q a w' ev | Throw e => E e w' ev end) ->
  wp (fs.remove p) w Q E.
Proof.
  intros HQ. unfold fs.remove. wp_steps.
  - simpl. apply (HQ (Ok tt)). destruct H as [Hfs Hr]. constructor.
    + simpl. rewrite Hfs. reflexivity.
    + eapply rest_trans; [exact Hr | apply rest_set_fs].
  - apply (HQ (Throw _)). constructor. assumption.
Qed.

Lemma wp_move src dst w Q E :
  (forall r w' ev, move_outcome src dst w r w' ev ->
                   match r with Ok a => Q a w' ev | Throw e => E e w' ev end) ->
  wp (fs.move src dst) w Q E.
Proof.
  intros HQ. unfold fs.move. wp_steps.
  - destruct H as [Hfs Hr].
    destruct (w_fs w' !! src) as [f|] eqn:Hf; wp_steps; simpl.
    + apply (HQ (Ok tt)). econstructor.
      * rewrite <- Hfs. exact Hf.
      * simpl. rewrite Hfs. reflexivity.
      * eapply rest_trans; [exact Hr | apply rest_set_fs].
    + apply (HQ (Throw _)). constructor; [split; assumption|].
      rewrite <- Hfs. exact Hf.
  - apply (HQ (Throw _)). constructor. assumption.
Qed.

Lemma wp_probe done failed w Q E :
  (forall r w' ev, probe_outcome done failed w r w' ev ->
                   match r with Ok a => Q a w' ev | Throw e => E e w' ev end) ->
  wp (attempt failed ;;; emit done) w Q E.
Proof.
  intros HQ. wp_steps.
  - simpl. apply (HQ (Ok tt)). constructor. assumption.
  - apply (HQ (Throw _)). constructor. assumption.
Qed.

Lemma wp_openWrite p w Q E :
  (forall r w' ev, open_outcome p w r w' ev ->
                   match r with Ok a => Q a w' ev | Throw e => E e w' ev end) ->
  wp (fs.openWrite p) w Q E.
Proof.
  intros HQ. unfold fs.openWrite. wp_steps.
  - simpl. apply (HQ (Ok tt)). destruct H as [Hfs Hr]. econstructor.
    + simpl. rewrite Hfs. reflexivity.
    + eapply rest_trans; [exact Hr | apply rest_set_fs].
  - apply (HQ (Throw _)). constructor. assumption.
Qed.

Lemma wp_writeChunk p chunk w Q E :
  (forall r w' ev, write_outcome p chunk w r w' ev ->
                   match r with Ok a => Q a w' ev | Throw e => E e w' ev end) ->
  wp (fs.writeChunk p chunk) w Q E.
Proof.
  intros HQ. unfold fs.writeChunk. wp_steps.
  - simpl. apply (HQ (Ok tt)). destruct H as [Hfs Hr]. econstructor.
    + simpl. rewrite Hfs. reflexivity.
    + eapply rest_trans; [exact Hr | apply rest_set_fs].
  - apply (HQ (Throw _)). constructor. assumption.
Qed.

Lemma wp_readAll p w Q E :
  (forall r w' ev, read_outcome p w r w' ev ->
                   match r with Ok a => Q a w' ev | Throw e => E e w' ev end) ->
  wp (fs.readAll p) w Q E.
Proof.
  intros HQ. unfold fs.readAll. wp_steps.
  - destruct (w_fs w' !! p) as [f|] eqn:Hf; wp_steps; simpl.
    + apply (HQ (Ok _)). constructor; [assumption|]. destruct H as [<- _]. exact Hf.
    + apply (HQ (Throw _)). constructor; [assumption|]. destruct H as [<- _]. exact Hf.
  - apply (HQ (Throw _)). constructor. assumption.
Qed.

Lemma wp_headObject key w Q E :
  (forall r w' ev, head_outcome key w r w' ev ->
                   match r with Ok a => Q a w' ev | Throw e => E e w' ev end) ->
  wp (s3Client.headObject key) w Q E.
Proof.
  intros HQ. unfold s3Client.headObject. wp_steps.
  - pose proof H as [_ [Hs3 _]].
    destruct (w_s3 w' !! key) as [o|] eqn:Ho; wp_steps; simpl.
    + apply (HQ (Ok _)). constructor; [assumption|]. rewrite <- Hs3. exact Ho.
    + apply (HQ (Throw _)). constructor; [assumption|]. rewrite <- Hs3. exact Ho.
  - apply (HQ (Throw _)). constructor. assumption.
Qed.

Lemma wp_getObject key w Q E :
  (forall r w' ev, get_outcome key w r w' ev ->
                   match r with Ok a => Q a w' ev | Throw e => E e w' ev end) ->
  wp (s3Client.getObject key) w Q E.
Proof.
  intros HQ. unfold s3Client.getObject. wp_steps.
  - pose proof H as [_ [Hs3 _]].
    destruct (w_s3 w' !! key) as [o|] eqn:Ho; wp_steps; simpl.
    + apply (HQ (Ok _)). constructor; [assumption|]. rewrite <- Hs3. exact Ho.
    + apply (HQ (Throw _)). constructor; [assumption|]. rewrite <- Hs3. exact Ho.
  - apply (HQ (Throw _)). constructor. assumption.
Qed.

Lemma wp_getObjectInfo key w Q E :
  (forall r w' ev, info_outcome key w r w' ev ->
                   match r with Ok a => Q a w' ev | Throw e => E e w' ev end) ->
  wp (S3Service.getObjectInfo key) w Q E.
Proof.
  intros HQ. unfold S3Service.getObjectInfo. wp_steps.
  apply wp_headObject. intros r w' ev Hout.
  destruct Hout; wp_steps; simpl.
  - apply (HQ (Ok _)). constructor; assumption.
  - apply (HQ (Ok _)). constructor; assumption.
  - apply (HQ (Throw _)). constructor; assumption.
Qed.

Lemma wp_checkDiskSpace d w Q E :
  (forall b w' ev, space_outcome d w b w' ev -> Q b w' ev) ->
  wp (FileValidator.checkDiskSpace d) w Q E.
Proof.
  intros HQ. unfold FileValidator.checkDiskSpace, fs.access. wp_steps; simpl.
  - apply HQ. constructor. assumption.
  - apply HQ. constructor. assumption.
Qed.

Lemma wp_cleanupTempFile p w Q E :
  (forall w' ev, cleanup_outcome p w w' ev -> Q tt w' ev) ->
  wp (FileValidator.cleanupTempFile p) w Q E.
Proof.
  intros HQ. unfold FileValidator.cleanupTempFile. wp_steps.
  apply wp_pathExists. intros b w1 ev1 H1. destruct H1 as [w1 H1|w1 msg H1].
  - destruct (w_fs w !! p) as [f|] eqn:Hf.
    + rewrite bool_decide_eq_true_2 by eauto. wp_steps.
      apply wp_remove. intros r w2 ev2 H2. destruct H2 as [w2 Hfs Hr|w2 msg H2].
      * wp_steps. simpl. apply HQ. apply cleanup_removed.
        -- rewrite Hf. eauto.
        -- rewrite Hfs. destruct H1 as [-> _]. reflexivity.
        -- eapply rest_trans; [apply later_rest; exact H1 | exact Hr].
      * wp_steps. simpl. apply HQ. apply cleanup_kept.
        -- rewrite Hf. eauto.
        -- eapply later_trans; eassumption.
    + rewrite bool_decide_eq_false_2 by (intros [? ?]; congruence).
      wp_steps. simpl. apply HQ. apply cleanup_absent; assumption.
  - wp_steps. simpl. apply HQ. apply cleanup_unprobed. assumption.
Qed.

Lemma cleanup_outcome_rest p w w' ev : cleanup_outcome p w w' ev -> rest w w'.
Proof. destruct 1; auto with world. Qed.

Lemma cleanup_outcome_gone p w w' ev :
  cleanup_outcome p w w' ev -> cleanup_ok p ev -> w_fs w' !! p = None.
Proof.
  intros Hc [Hx Hr]. destruct Hc as [w' [Hfs _] Hn|w' msg _|w' _ Hfs _|w' msg _ _].
  - rewrite Hfs. exact Hn.
  - exfalso. apply Hx. simpl. auto.
  - rewrite Hfs. apply lookup_delete_eq.
  - exfalso. apply Hr. simpl. auto.
Qed.

Lemma cleanup_outcome_other p q w w' ev :
  cleanup_outcome p w w' ev -> q <> p -> w_fs w' !! q = w_fs w !! q.
Proof.
  intros Hc Hne. destruct Hc as [w' [Hfs _] _|w' msg [Hfs _]|w' _ Hfs _|w' msg _ [Hfs _]];
    rewrite Hfs; try reflexivity.
  apply lookup_delete_ne. congruence.
Qed.


Lemma cleanup_outcome_probed p w w' ev :
  cleanup_outcome p w w' ev -> exists b, In (EvFs OpExists p b) ev.
Proof. destruct 1; eexists; simpl; eauto. Qed.

(** A run that cannot throw, read back as an equation. *)
Lemma wp_total {S A} (m : M S A) (s : S) (Q : A -> S -> list Event -> Prop) :
  wp m s Q (fun _ _ _ => False) ->
  exists a s' ev, m s = mkOut (Ok a) s' ev /\ Q a s' ev.
Proof.
  unfold wp. intros Hwp. destruct (m s) as [r s' ev]. simpl in Hwp.
  destruct r as [a|e]; [|contradiction]. eauto.
Qed.

Lemma wp_verify_size `{Crypto} p n w Q E :
  (forall b w' ev, verify_outcome p n w b w' ev -> Q b w' ev) ->
  wp (FileValidator.verifyFileIntegrity p (Some n) None) w Q E.
Proof.
  intros HQ. unfold FileValidator.verifyFileIntegrity. wp_steps.
  apply wp_stat. intros r w' ev Hout.
  destruct Hout as [w' f Hl Hf|w' Hl Hf|w' msg Hl]; cbn [from_option st_size id].
  - unfold FileValidator.truthy_num.
    destruct (n =? 0) eqn:Hn0; cbn [negb andb].
    + wp_steps. simpl. apply HQ. econstructor; eauto. left. lia.
    + destruct (file_size f =? n) eqn:Hsz; cbn [negb].
      * wp_steps. simpl. apply HQ. econstructor; eauto. right. lia.
      * wp_steps. simpl. apply HQ. econstructor; eauto; lia.
  - wp_steps. simpl. apply HQ. constructor; assumption.
  - wp_steps. simpl. apply HQ. constructor; assumption.
Qed.

Lemma verify_outcome_later p n w b w' ev : verify_outcome p n w b w' ev -> later w w'.
Proof. destruct 1; assumption. Qed.

Lemma data_bytes_app ev1 ev2 : data_bytes (ev1 ++ ev2) = data_bytes ev1 + data_bytes ev2.
Proof. induction ev1 as [|e r IH]; simpl; [reflexivity | rewrite IH; lia]. Qed.

Lemma string_length_app (a b : string) :
  String.length (a +:+ b) = (String.length a + String.length b)%nat.
Proof. induction a as [|c a IH]; simpl; [reflexivity | rewrite IH; reflexivity]. Qed.

Lemma wp_pump tmp chunks : forall l w Q E,
  (forall r l' w' ev, pump_outcome tmp l w r l' w' ev ->
     match r with Ok a => Q a (l', w') ev | Throw e => E e (l', w') ev end) ->
  wp (S3Service.pump tmp chunks) (l, w) Q E.
Proof.
  induction chunks as [|chunk chunks IH]; intros l w Q E HQ; simpl.
  - wp_steps. apply (HQ (Ok tt)). constructor; simpl; auto with world.
    + lia.
    + intros _ f Hf. exists f. split; [exact Hf | lia].
  - wp_steps.
    + (* the chunk arrived *)
      set (len := Z.of_nat (String.length chunk)).
      assert (Hpre : wp (if (l + len) mod (10 * 1024 * 1024) =? 0
                         then lift (logger.debug "Download progress") else ret tt)
                        (l + len, w')
                        (fun _ s ev => s = (l + len, w') /\ Forall (pump_event tmp) ev
                                       /\ data_bytes ev = 0)
                        (fun _ _ _ => False)).
      { destruct (_ =? 0); wp_steps; auto using Forall_nil.
        split; [reflexivity|]. split; [|reflexivity]. constructor; simpl; auto. }
      simpl fst. simpl snd.
      eapply wp_mono; [exact Hpre| |intros ? ? ? []].
      intros _ s ev0 (-> & Hev0 & Hb0). cbv beta. wp_steps.
      apply wp_writeChunk. intros r w2 ev2 Hw.
      destruct Hw as [w2 t Hfs2 Hr2|w2 msg Hl2].
      * apply IH. intros r l3 w3 ev3 [Hr3 Hev3 Hc3 Hs3].
        assert (Hlook : w_fs w2 !! tmp
                        = Some (mkFile (f_data (default (mkFile EmptyString t) (w_fs w' !! tmp))
                                        +:+ chunk) t)).
        { rewrite Hfs2. apply lookup_insert_eq. }
        assert (Hout : pump_outcome tmp l w r l3 w3
                         ([] ++ [] ++ [EvData tmp len] ++ [] ++ ev0
                          ++ ([] ++ [EvFs OpWrite tmp true]) ++ ev3)).
        { constructor.
          - eapply rest_trans; [apply later_rest; eassumption|].
            eapply rest_trans; eassumption.
          - simpl. constructor; [simpl; split; [reflexivity|unfold len; lia]|].
            apply Forall_app. split; [assumption|].
            constructor; [simpl; reflexivity | assumption].
          - simpl. rewrite data_bytes_app. simpl. rewrite Hc3, Hb0. lia.
          - intros Hok f Hf. destruct (Hs3 Hok _ Hlook) as (f' & Hf' & Hsz).
            exists f'. split; [exact Hf'|]. rewrite Hsz.
            simpl. rewrite data_bytes_app. simpl. rewrite Hb0.
            destruct H as [Hfs1 _]. rewrite Hfs1, Hf. simpl.
            unfold file_size. simpl. rewrite string_length_app. unfold len. lia. }
        destruct r; apply (HQ _ _ _ _ Hout).
      * assert (Hout : pump_outcome tmp l w (Throw (Error msg)) (l + len) w2
                         ([] ++ [] ++ [EvData tmp len] ++ [] ++ ev0
                          ++ [EvFault msg; EvFs OpWrite tmp false])).
        { constructor.
          - eapply rest_trans; apply later_rest; eassumption.
          - simpl. constructor; [simpl; split; [reflexivity|unfold len; lia]|].
            apply Forall_app. split; [assumption|].
            repeat constructor.
          - simpl. rewrite data_bytes_app. simpl. rewrite Hb0. lia.
          - discriminate. }
        apply (HQ _ _ _ _ Hout).
    + (* the stream failed *)
      apply (HQ (Throw _)). constructor; simpl; auto with world.
      * repeat constructor.
      * lia.
      * discriminate.
Qed.

(** ** The monitor of a staging file *)

Lemma same_refl p : same p p = true.
Proof. apply String.eqb_refl. Qed.

Lemma same_true p q : same p q = true -> p = q.
Proof. apply String.eqb_eq. Qed.

Lemma watch_all_app tmp ev1 : forall ph ev2,
  watch_all tmp ph (ev1 ++ ev2)
  = match watch_all tmp ph ev1 with
    | Some ph' => watch_all tmp ph' ev2
    | None => None
    end.
Proof.
  induction ev1 as [|e r IH]; intros ph ev2; simpl; [reflexivity|].
  destruct (watch tmp ph e); [apply IH | reflexivity].
Qed.

Lemma watch_all_split tmp pre e post : forall ph ph',
  watch_all tmp ph (pre ++ e :: post) = Some ph' ->
  exists ph1 ph2, watch_all tmp ph pre = Some ph1
                  /\ watch tmp ph1 e = Some ph2
                  /\ watch_all tmp ph2 post = Some ph'.
Proof.
  intros ph ph'. rewrite watch_all_app.
  destruct (watch_all tmp ph pre) as [ph1|]; [|discriminate]. simpl.
  destruct (watch tmp ph1 e) as [ph2|] eqn:He; [|discriminate]. eauto.
Qed.

Ltac watch_cases :=
  unfold while_writing, once_closed in *;
  repeat match goal with
         | H : context [if same ?p ?q then _ else _] |- _ =>
             let E := fresh "E" in
             destruct (same p q) eqn:E; [apply same_true in E; subst|]
         | H : context [match ?x with _ => _ end] |- _ => is_var x; destruct x
         end; simpl in *; simplify_eq; try congruence.

(** Leaving [Writing] takes a successful close. *)
Lemma watch_all_closed tmp pre : forall ph1,
  watch_all tmp Writing pre = Some ph1 -> ph1 <> Writing ->
  In (EvFs OpClose tmp true) pre.
Proof.
  induction pre as [|e r IH]; intros ph1 Hw Hne; simpl in Hw.
  - congruence.
  - destruct (watch tmp Writing e) as [ph|] eqn:He; [|discriminate].
    destruct ph.
    + right. eapply IH; eassumption.
    + left. unfold watch in He. watch_cases.
    + exfalso. unfold watch in He. watch_cases.
    + exfalso. unfold watch in He. watch_cases.
Qed.

(** Once closed, the phase never is [Writing] again. *)
Lemma watch_all_stays tmp ev : forall ph ph',
  watch_all tmp ph ev = Some ph' -> ph <> Writing -> ph' <> Writing.
Proof.
  induction ev as [|e r IH]; intros ph ph' Hw Hne; simpl in Hw.
  - congruence.
  - destruct (watch tmp ph e) as [ph1|] eqn:He; [|discriminate].
    eapply IH; [eassumption|].
    unfold watch in He. watch_cases.
Qed.

(** Reaching [Verified] takes a successful [fs.stat] and the line. *)
Lemma watch_all_verified tmp pre : forall ph,
  watch_all tmp ph pre = Some Verified ->
  (ph = Writing \/ ph = Closed -> In (EvFs OpStat tmp true) pre)
  /\ (ph <> Verified -> In (EvLog LInfo verified_msg) pre).
Proof.
  induction pre as [|e r IH]; intros ph Hw; simpl in Hw.
  - injection Hw as ->. split; [intros [?|?]; discriminate | congruence].
  - destruct (watch tmp ph e) as [ph1|] eqn:He; [|discriminate].
    destruct (IH _ Hw) as [IH1 IH2]. split.
    + intros Hph.
      destruct (decide (ph1 = Writing \/ ph1 = Closed)) as [Hd|Hd].
      * right. auto.
      * left. unfold watch in He. destruct Hph; subst ph; watch_cases;
          exfalso; apply Hd; auto.
    + intros Hph.
      destruct (decide (ph1 = Verified)) as [Hd|Hd].
      * left. subst ph1. unfold watch in He. watch_cases.
      * right. auto.
Qed.

Lemma watch_all_no_write tmp post : forall ph ph',
  watch_all tmp ph post = Some ph' -> ph <> Writing ->
  Forall (fun e => ~ writes_to tmp e) post.
Proof.
  induction post as [|e r IH]; intros ph ph' Hw Hne; simpl in Hw; constructor.
  - destruct (watch tmp ph e) as [ph1|] eqn:He; [|discriminate].
    intros Hwr. unfold watch in He.
    destruct e as [| |op p ok| |p n| |]; simpl in Hwr; try contradiction;
      [destruct op; try contradiction|]; subst; rewrite same_refl in He;
      destruct ph; simpl in He; congruence.
  - destruct (watch tmp ph e) as [ph1|] eqn:He; [|discriminate].
    eapply IH; [eassumption|].
    eapply (watch_all_stays tmp [e]); [simpl; rewrite He; reflexivity | assumption].
Qed.

Lemma watch_all_in_order tmp ev :
  is_Some (watch_all tmp Writing ev) -> in_order tmp ev.
Proof.
  intros [ph Hw]. constructor.
  - intros pre post op b Hop ->.
    apply watch_all_split in Hw as (ph1 & ph2 & H1 & H2 & _).
    apply (watch_all_closed tmp pre ph1 H1).
    intros ->. unfold watch in H2. rewrite same_refl in H2.
    destruct Hop; subst op; simpl in H2; discriminate.
  - intros pre post ->.
    apply watch_all_split in Hw as (ph1 & ph2 & H1 & H2 & H3).
    eapply watch_all_no_write; [exact H3|].
    intros ->. unfold watch in H2. rewrite same_refl in H2.
    destruct ph1; discriminate.
  - intros pre post dst b ->.
    apply watch_all_split in Hw as (ph1 & ph2 & H1 & H2 & _).
    assert (ph1 = Verified) as ->.
    { unfold watch in H2. rewrite same_refl in H2. destruct ph1; congruence. }
    destruct (watch_all_verified tmp pre Writing H1) as [Ha Hb].
    split; [apply Ha; auto | apply Hb; discriminate].
Qed.

Lemma pump_event_touches key lp ev :
  Forall (pump_event (lp +:+ ".tmp")) ev -> Forall (touches key lp) ev.
Proof.
  intros Hall. eapply Forall_impl; [exact Hall|]. intros e He.
  destruct e as [lvl msg| |op p ok| |p n| |]; simpl in *; try tauto.
  destruct op; try contradiction. auto.
Qed.

Lemma pump_event_watch tmp ev :
  Forall (pump_event tmp) ev -> watch_all tmp Writing ev = Some Writing.
Proof.
  induction 1 as [|e r He _ IH]; simpl; [reflexivity|].
  destruct e as [lvl msg| |op p ok| |p n| |]; simpl in He; try contradiction.
  - destruct lvl; try contradiction. exact IH.
  - exact IH.
  - destruct op; try contradiction. subst p. simpl. rewrite same_refl. exact IH.
  - destruct He as [-> _]. simpl. rewrite same_refl. exact IH.
Qed.

Ltac touches_tac :=
  repeat first
    [ apply List.Forall_nil
    | apply List.Forall_cons; [simpl; auto; fail |]
    | apply Forall_app; split
    | apply pump_event_touches; assumption
    | assumption ].

(** ** [pipeline] and [downloadFile] *)

Lemma wp_pipeline tmp chunks l w Q E :
  (forall r l' w' ev, pipeline_outcome tmp l w r l' w' ev ->
     match r with Ok a => Q a (l', w') ev | Throw e => E e (l', w') ev end) ->
  wp (S3Service.pipeline tmp chunks) (l, w) Q E.
Proof.
  intros HQ. unfold S3Service.pipeline. wp_steps.
  apply wp_openWrite. intros r w1 ev1 Ho.
  destruct Ho as [w1 t Hfs1 Hr1|w1 msg Hl1].
  - wp_steps. apply wp_pump. intros r l2 w2 ev2 [Hr2 Hev2 Hc2 Hs2].
    assert (Hf1 : w_fs w1 !! tmp = Some (mkFile EmptyString t)).
    { rewrite Hfs1. apply lookup_insert_eq. }
    destruct r as [[]|e].
    + wp_steps. unfold fs.closeWrite. apply wp_probe. intros r w3 ev3 Hc.
      destruct (Hs2 eq_refl _ Hf1) as (f' & Hf' & Hsz).
      destruct Hc as [w3 Hl3|w3 msg Hl3].
      * apply (HQ (Ok tt)). constructor.
        -- eapply rest_trans; [exact Hr1|]. eapply rest_trans; [exact Hr2|].
           apply later_rest. exact Hl3.
        -- simpl. rewrite !data_bytes_app. simpl. lia.
        -- simpl. rewrite same_refl. simpl. rewrite watch_all_app.
           rewrite (pump_event_watch _ _ Hev2). simpl. rewrite same_refl. reflexivity.
        -- intros key lp ->. simpl. touches_tac.
        -- intros _. exists f'. destruct Hl3 as [Hfs3 _]. rewrite Hfs3.
           split; [exact Hf'|]. rewrite Hsz. simpl. rewrite !data_bytes_app.
           unfold file_size. simpl. lia.
      * apply (HQ (Throw _)). constructor.
        -- eapply rest_trans; [exact Hr1|]. eapply rest_trans; [exact Hr2|].
           apply later_rest. exact Hl3.
        -- simpl. rewrite !data_bytes_app. simpl. lia.
        -- simpl. rewrite same_refl. simpl. rewrite watch_all_app.
           rewrite (pump_event_watch _ _ Hev2). simpl. reflexivity.
        -- intros key lp ->. simpl. touches_tac.
        -- discriminate.
    + apply (HQ (Throw _)). constructor.
      * eapply rest_trans; eassumption.
      * simpl. lia.
      * simpl. rewrite same_refl. simpl. apply pump_event_watch. assumption.
      * intros key lp ->. simpl. touches_tac.
      * discriminate.
  - apply (HQ (Throw _)). constructor.
    + apply later_rest. assumption.
    + simpl. lia.
    + simpl. rewrite same_refl. reflexivity.
    + intros key lp ->. touches_tac.
    + discriminate.
Qed.

Ltac world_tac :=
  unfold later, rest in *; simpl in *;
  repeat match goal with H : _ /\ _ |- _ => destruct H end;
  repeat split; first [congruence | lia].

Lemma tmp_neq (lp : string) : lp +:+ ".tmp" <> lp.
Proof.
  intros Heq. apply (f_equal String.length) in Heq.
  rewrite string_length_app in Heq. simpl in Heq. lia.
Qed.

(** A run of [downloadFile] that ended before the staging file was opened. *)
Ltac dl_unstaged_leaf :=
  constructor; simpl;
  [ world_tac
  | first [reflexivity | lia]
  | first [reflexivity | lia]
  | eauto
  | touches_tac
  | discriminate
  | intros _ Hin; exfalso; intuition discriminate ].

Lemma cleanup_ok_app_r p ev1 ev2 : cleanup_ok p (ev1 ++ ev2) -> cleanup_ok p ev2.
Proof.
  intros [Ha Hb]. split; intros Hin; [apply Ha | apply Hb]; apply in_or_app; auto.
Qed.

Lemma cleanup_ok_app_l p ev1 ev2 : cleanup_ok p (ev1 ++ ev2) -> cleanup_ok p ev1.
Proof.
  intros [Ha Hb]. split; intros Hin; [apply Ha | apply Hb]; apply in_or_app; auto.
Qed.

Lemma cleanup_outcome_bytes p w w' ev : cleanup_outcome p w w' ev -> data_bytes ev = 0.
Proof. destruct 1; reflexivity. Qed.

Lemma cleanup_outcome_watch tmp p w w' ev ph :
  cleanup_outcome p w w' ev -> watch_all tmp ph ev = Some ph.
Proof. destruct 1; simpl; destruct ph; reflexivity. Qed.

Lemma cleanup_outcome_touches key lp p w w' ev :
  cleanup_outcome p w w' ev -> p = lp \/ p = lp +:+ ".tmp" ->
  Forall (touches key lp) ev.
Proof.
  intros Hc Hp. destruct Hc; repeat (apply List.Forall_cons; [simpl; tauto|]);
    apply List.Forall_nil.
Qed.

Lemma verify_outcome_bytes p n w b w' ev : verify_outcome p n w b w' ev -> data_bytes ev = 0.
Proof. destruct 1; reflexivity. Qed.

Lemma verify_outcome_watch tmp n w b w' ev :
  verify_outcome tmp n w b w' ev ->
  exists ph, watch_all tmp Closed ev = Some ph /\ (b = true -> ph = Verified).
Proof.
  destruct 1; simpl; rewrite same_refl; simpl; eexists; (split; [reflexivity|]);
    first [reflexivity | discriminate].
Qed.

Lemma verify_outcome_touches key lp n w b w' ev :
  verify_outcome (lp +:+ ".tmp") n w b w' ev -> Forall (touches key lp) ev.
Proof.
  destruct 1; repeat (apply List.Forall_cons; [simpl; tauto|]); apply List.Forall_nil.
Qed.

Lemma verify_outcome_unprobed p n w b w' ev c :
  verify_outcome p n w b w' ev -> ~ In (EvFs OpExists p c) ev.
Proof. destruct 1; simpl; intuition discriminate. Qed.

Lemma move_outcome_bytes src dst w r w' ev : move_outcome src dst w r w' ev -> data_bytes ev = 0.
Proof. destruct 1; reflexivity. Qed.

Lemma move_outcome_rest src dst w r w' ev : move_outcome src dst w r w' ev -> rest w w'.
Proof. destruct 1; auto with world. Qed.

Lemma in_app_mid {A} (x : A) (l1 l2 l3 : list A) : In x l2 -> In x (l1 ++ l2 ++ l3).
Proof. intros Hin. apply in_or_app. right. apply in_or_app. left. exact Hin. Qed.

(** A failed download whose last step on the staging file was
    [cleanupTempFile]: [eva] are the events before it, [evz] the lines
    logged after it. *)
Lemma download_failed key lp w l wc w' ev eva evc evz :
  ev = eva ++ evc ++ evz ->
  rest w wc ->
  cleanup_outcome (lp +:+ ".tmp") wc w' evc ->
  l = data_bytes eva ->
  data_bytes evz = 0 ->
  is_Some (watch_all (lp +:+ ".tmp") Writing eva) ->
  (forall ph, watch_all (lp +:+ ".tmp") ph evz = Some ph) ->
  Forall (touches key lp) eva ->
  Forall (touches key lp) evz ->
  download_post key lp w (S3Service.mkDownloadResult false l (w_now w' - w_now w)) w' ev.
Proof.
  intros -> Hr Hc Hl Hz [ph Hw] Hwz Ht Htz. constructor; simpl.
  - eapply rest_trans; [exact Hr|]. eapply cleanup_outcome_rest; eassumption.
  - reflexivity.
  - rewrite !data_bytes_app, (cleanup_outcome_bytes _ _ _ _ Hc), Hz. lia.
  - rewrite watch_all_app, Hw. cbn beta iota.
    rewrite watch_all_app, (cleanup_outcome_watch _ _ _ _ _ ph Hc). cbn beta iota.
    rewrite Hwz. eauto.
  - apply Forall_app. split; [assumption|]. apply Forall_app. split; [|assumption].
    eapply cleanup_outcome_touches; [eassumption | auto].
  - discriminate.
  - intros _ _. split.
    + destruct (cleanup_outcome_probed _ _ _ _ Hc) as [b Hb]. exists b.
      apply in_app_mid. exact Hb.
    + intros Hok. apply cleanup_ok_app_r, cleanup_ok_app_l in Hok.
      eapply cleanup_outcome_gone; eassumption.
Qed.

Lemma downloadFile_spec `{Crypto} key lp w :
  wp (S3Service.downloadFile key lp) w
     (fun r w' ev => download_post key lp w r w' ev)
     (fun _ _ _ => False).
Proof.
  unfold S3Service.downloadFile. wp_steps.
  apply wp_getObjectInfo. intros r1 w1 ev1 Hinfo.
  destruct Hinfo as [w1 o Hl1 Ho|w1 Hl1 Ho|w1 msg Hl1]; cycle 1.
  - wp_steps. dl_unstaged_leaf.
  - wp_steps. dl_unstaged_leaf.
  - wp_steps. unfold fs.ensureDir. apply wp_probe. intros r2 w2 ev2 Hdir.
    destruct Hdir as [w2 Hl2|w2 msg Hl2]; cycle 1.
    { wp_steps. dl_unstaged_leaf. }
    wp_steps. apply wp_checkDiskSpace. intros b3 w3 ev3 Hsp.
    destruct Hsp as [w3 Hl3|w3 msg Hl3]; cycle 1.
    { cbn [negb]. wp_steps. dl_unstaged_leaf. }
    cbn [negb]. wp_steps. apply wp_getObject. intros r4 w4 ev4 Hget.
    destruct Hget as [w4 o' Hl4 Ho'|w4 Hl4 Ho'|w4 msg Hl4]; cycle 1.
    { wp_steps. dl_unstaged_leaf. }
    { wp_steps. dl_unstaged_leaf. }
    destruct (o_Body o') as [chunks|]; cycle 1.
    { wp_steps. dl_unstaged_leaf. }
    assert (Hr4 : rest w w4) by world_tac.
    clear Hl1 Hl2 Hl3 Hl4 Ho'.
    wp_steps. apply wp_pipeline. intros r5 l5 w5 ev5 Hpl.
    pose proof (pl_rest _ _ _ _ _ _ _ Hpl) as Hr5.
    pose proof (pl_count _ _ _ _ _ _ _ Hpl) as Hc5.
    pose proof (pl_watch _ _ _ _ _ _ _ Hpl) as Hw5.
    pose proof (pl_touches _ _ _ _ _ _ _ Hpl key lp eq_refl) as Ht5.
    destruct r5 as [[]|e5].
    + (* the staging file is written and closed *)
      wp_steps. apply wp_verify_size. intros b6 w6 ev6 Hver.
      pose proof (verify_outcome_later _ _ _ _ _ _ Hver) as Hl6.
      pose proof (verify_outcome_bytes _ _ _ _ _ _ Hver) as Hb6.
      pose proof (verify_outcome_touches key _ _ _ _ _ _ Hver) as Ht6.
      destruct (verify_outcome_watch _ _ _ _ _ _ Hver) as (ph6 & Hw6 & Hph6).
      destruct b6; cbn [negb].
      * (* verified: move the file *)
        specialize (Hph6 eq_refl). subst ph6.
        wp_steps. apply wp_move. intros r7 w7 ev7 Hmv.
        pose proof (move_outcome_rest _ _ _ _ _ _ Hmv) as Hr7.
        destruct Hmv as [w7 f Hsrc Hfs7 _|w7 Hl7 Hsrc|w7 msg Hl7].
        -- (* installed *)
           wp_steps. simpl. constructor; simpl.
           ++ world_tac.
           ++ reflexivity.
           ++ rewrite !data_bytes_app, Hb6. simpl. lia.
           ++ rewrite watch_all_app, Hw5. cbn beta iota.
              rewrite watch_all_app, Hw6. simpl. rewrite same_refl. eauto.
           ++ touches_tac.
           ++ intros _.
              destruct (pl_written _ _ _ _ _ _ _ Hpl eq_refl) as (f5 & Hf5 & Hsz5).
              inversion Hver as [w6' f6 _ Hf6 Hn| | |]; subst.
              exists o, f. rewrite Hfs7. repeat split.
              ** exact Ho.
              ** apply lookup_insert_eq.
              ** destruct Hl6 as [Hfs6 _]. rewrite Hfs6 in Hsrc.
                 assert (f = f5) by congruence. subst f. lia.
              ** assert (f6 = f5) by congruence. subst f6.
                 unfold remote_size. simpl in *. lia.
              ** rewrite lookup_insert_ne by (intros Heq; symmetry in Heq; revert Heq; apply tmp_neq).
                 apply lookup_delete_eq.
           ++ discriminate.
        -- (* the file to move is missing *)
           wp_steps. apply wp_cleanupTempFile. intros w8 ev8 Hc8. wp_steps. simpl.
           eapply (download_failed key lp w l5 w7 w8 _
                     (_ :: _ :: _ :: _ :: _ :: ev5 ++ ev6 ++ [EvMove (lp +:+ ".tmp") lp false])
                     ev8 [_]).
           ++ simpl. rewrite <- !app_assoc. reflexivity.
           ++ world_tac.
           ++ exact Hc8.
           ++ simpl. rewrite !data_bytes_app, Hb6. simpl. lia.
           ++ reflexivity.
           ++ simpl. rewrite watch_all_app, Hw5. cbn beta iota.
              rewrite watch_all_app, Hw6. simpl. rewrite ?same_refl. eauto.
           ++ intros ph. destruct ph; reflexivity.
           ++ touches_tac.
           ++ touches_tac.
        -- wp_steps. apply wp_cleanupTempFile. intros w8 ev8 Hc8. wp_steps. simpl.
           eapply (download_failed key lp w l5 w7 w8 _
                     (_ :: _ :: _ :: _ :: _ :: ev5 ++ ev6
                        ++ [EvFault msg; EvMove (lp +:+ ".tmp") lp false])
                     ev8 [_]).
           ++ simpl. rewrite <- !app_assoc. reflexivity.
           ++ world_tac.
           ++ exact Hc8.
           ++ simpl. rewrite !data_bytes_app, Hb6. simpl. lia.
           ++ reflexivity.
           ++ simpl. rewrite watch_all_app, Hw5. cbn beta iota.
              rewrite watch_all_app, Hw6. simpl. rewrite ?same_refl. eauto.
           ++ intros ph. destruct ph; reflexivity.
           ++ touches_tac.
           ++ touches_tac.
      * (* not verified: clean up, throw, clean up again *)
        wp_steps. apply wp_cleanupTempFile. intros w7 ev7 Hc7. wp_steps.
        apply wp_cleanupTempFile. intros w8 ev8 Hc8. wp_steps. simpl.
        pose proof (cleanup_outcome_rest _ _ _ _ Hc7) as Hr7.
        eapply (download_failed key lp w l5 w7 w8 _
                  (_ :: _ :: _ :: _ :: _ :: ev5 ++ ev6 ++ ev7) ev8 [_]).
        -- simpl. rewrite <- !app_assoc. reflexivity.
        -- world_tac.
        -- exact Hc8.
        -- simpl. rewrite !data_bytes_app, Hb6, (cleanup_outcome_bytes _ _ _ _ Hc7). lia.
        -- reflexivity.
        -- simpl. rewrite watch_all_app, Hw5. cbn beta iota.
           rewrite watch_all_app, Hw6. cbn beta iota.
           rewrite (cleanup_outcome_watch _ _ _ _ _ ph6 Hc7). eauto.
        -- intros ph. destruct ph; reflexivity.
        -- touches_tac. eapply cleanup_outcome_touches; [eassumption | auto].
        -- touches_tac.
    + (* the stream or the write failed *)
      wp_steps. apply wp_cleanupTempFile. intros w8 ev8 Hc8. wp_steps. simpl.
      eapply (download_failed key lp w l5 w5 w8 _
                (_ :: _ :: _ :: _ :: _ :: ev5) ev8 [_]).
      * simpl. rewrite <- !app_assoc. reflexivity.
      * world_tac.
      * exact Hc8.
      * simpl. lia.
      * reflexivity.
      * simpl. rewrite Hw5. eauto.
      * intros ph. destruct ph; reflexivity.
      * touches_tac.
      * touches_tac.
Qed.

(** ** [shouldUpdateFile] *)

Ltac no_fault :=
  let msg := fresh "msg" in
  let Hin := fresh "Hin" in
  intros [msg Hin]; simpl in Hin; intuition discriminate.

Ltac has_fault Hnf :=
  exfalso; apply Hnf; eexists; simpl; eauto.

Lemma shouldUpdateFile_spec key lp w :
  wp (S3Service.shouldUpdateFile key lp) w
     (fun b w' ev => update_post key lp w b w' ev)
     (fun _ _ _ => False).
Proof.
  unfold S3Service.shouldUpdateFile. wp_steps.
  apply wp_pathExists. intros b1 w1 ev1 Hex.
  destruct Hex as [w1 Hl1|w1 msg Hl1]; cycle 1.
  { (* the probe failed *)
    cbn [negb]. wp_steps. simpl. constructor.
    - assumption.
    - touches_tac.
    - reflexivity.
    - intros Hnf. has_fault Hnf.
    - intros Hnf. has_fault Hnf. }
  destruct (w_fs w !! lp) as [f|] eqn:Hf; cycle 1.
  { (* no local file *)
    rewrite bool_decide_eq_false_2 by (intros [? ?]; congruence).
    cbn [negb]. wp_steps. simpl. constructor.
    - assumption.
    - touches_tac.
    - reflexivity.
    - intros _. exists (w_now w). split; [world_tac|]. rewrite Hf. reflexivity.
    - intros _ [? ?]. congruence. }
  rewrite bool_decide_eq_true_2 by eauto. cbn [negb]. wp_steps.
  apply wp_getObjectInfo. intros r2 w2 ev2 Hinfo.
  destruct Hinfo as [w2 o Hl2 Ho|w2 Hl2 Ho|w2 msg Hl2].
  - (* the remote object is there *)
    wp_steps. apply wp_stat. intros r3 w3 ev3 Hst.
    assert (Hf1 : w_fs w1 !! lp = Some f).
    { destruct Hl1 as [-> _]. exact Hf. }
    assert (Hf2 : w_fs w2 !! lp = Some f).
    { destruct Hl2 as [-> _]. exact Hf1. }
    assert (Ho0 : w_s3 w !! key = Some o).
    { destruct Hl1 as [_ [<- _]]. exact Ho. }
    destruct Hst as [w3 f' Hl3 Hf'|w3 Hl3 Hf'|w3 msg Hl3].
    + assert (f' = f) by congruence. subst f'. cbn [st_size st_mtime].
      assert (Hpost : forall lvl msg b,
                 b = needsUpdate (Some f) (Some (S3Service.objectInfo_of (w_now w2) o)) ->
                 update_post key lp w b w3
                   ([EvFs OpExists lp true] ++
                    [EvS3 OpHead key true] ++ [EvFs OpStat lp true] ++ [EvLog lvl msg])).
      { intros lvl msg b Hb. constructor.
        - eauto using later_trans.
        - simpl. touches_tac.
        - intros Hfl. exfalso. revert Hfl. no_fault.
        - intros _. exists (w_now w2). split; [world_tac|].
          rewrite Hf, Ho0. simpl. exact Hb.
        - intros _ _ Hn. congruence. }
      destruct (negb (file_size f =? S3Service.size (S3Service.objectInfo_of (w_now w2) o)))
        eqn:Hsz.
      * wp_steps. simpl. apply Hpost. unfold needsUpdate. rewrite Hsz. reflexivity.
      * destruct (f_mtime f <? S3Service.lastModified (S3Service.objectInfo_of (w_now w2) o))
          eqn:Hmt.
        -- wp_steps. simpl. apply Hpost. unfold needsUpdate. rewrite Hsz, Hmt. reflexivity.
        -- wp_steps. simpl. apply Hpost. unfold needsUpdate. rewrite Hsz, Hmt. reflexivity.
    + congruence.
    + wp_steps. simpl. constructor.
      * eauto using later_trans.
      * touches_tac.
      * reflexivity.
      * intros Hnf. has_fault Hnf.
      * intros Hnf. has_fault Hnf.
  - (* the remote object is absent *)
    wp_steps. simpl. constructor.
    + eauto using later_trans.
    + touches_tac.
    + no_fault.
    + intros _. exists (w_now w). split; [world_tac|].
      assert (Ho0 : w_s3 w !! key = None).
      { destruct Hl1 as [_ [<- _]]. exact Ho. }
      rewrite Hf, Ho0. reflexivity.
    + intros _ _ _. simpl. auto.
  - (* the request failed *)
    wp_steps. simpl. constructor.
    + eauto using later_trans.
    + touches_tac.
    + reflexivity.
    + intros Hnf. has_fault Hnf.
    + intros Hnf. has_fault Hnf.
Qed.

Lemma downloadFile_run `{Crypto} key lp w :
  exists r w' ev,
    S3Service.downloadFile key lp w = mkOut (Ok r) w' ev
    /\ download_post key lp w r w' ev.
Proof. apply wp_total, downloadFile_spec. Qed.

Lemma shouldUpdateFile_run key lp w :
  exists b w' ev,
    S3Service.shouldUpdateFile key lp w = mkOut (Ok b) w' ev
    /\ update_post key lp w b w' ev.
Proof. apply wp_total, shouldUpdateFile_spec. Qed.

(** ** Downloads: totality, staging and order *)


(** Scenario A: the object is not there locally; the download installs its
    1000 bytes and reports them. *)
Example downloadFile_scenario_A :
  let o := @S3Service.downloadFile plain_digest model_key "/models/essential/voice/model.bin"
                                   (world0 []) in
  out_res o = Ok (S3Service.mkDownloadResult true 1000 0)
  /\ file_size <$> w_fs (out_st o) !! "/models/essential/voice/model.bin" = Some 1000
  /\ w_fs (out_st o) !! "/models/essential/voice/model.bin.tmp" = None.
Proof. vm_compute. repeat split; reflexivity. Qed.

(** A broken stream: a failure result with the 600 bytes that had arrived. *)
Example downloadFile_broken_stream :
  out_res (@S3Service.downloadFile plain_digest model_key "/models/essential/voice/model.bin"
                                   world_broken)
  = Ok (S3Service.mkDownloadResult false 600 40).
Proof. vm_compute. reflexivity. Qed.




(** C7: in every run of [downloadFile], a [fs.stat] or a digest of the
    staging file comes only after its write stream was closed
    successfully, nothing is written to the staging file after that close,
    and the staging file is moved to the final path only after a
    successful [fs.stat] and the line [verifyFileIntegrity] logs when it
    returns [true]. *)
Theorem C7_verify_after_close_move_after_verify `{Crypto} (s3Key localPath : string)
    (w : World) :
  let tmp := localPath +:+ ".tmp" in
  let ev := out_ev (S3Service.downloadFile s3Key localPath w) in
  (forall pre post op b,
      op = OpStat \/ op = OpRead ->
      ev = pre ++ EvFs op tmp b :: post -> In (EvFs OpClose tmp true) pre)
  /\ (forall pre post,
        ev = pre ++ EvFs OpClose tmp true :: post ->
        Forall (fun e => ~ writes_to tmp e) post)
  /\ (forall pre post dst b,
        ev = pre ++ EvMove tmp dst b :: post ->
        dst = localPath
        /\ In (EvFs OpStat tmp true) pre
        /\ In (EvLog LInfo verified_msg) pre).
Proof.
  intros tmp ev.
  destruct (downloadFile_run s3Key localPath w) as (r & w' & ev' & Hrun & Hpost).
  assert (Hev : ev = ev') by (subst ev; rewrite Hrun; reflexivity).
  destruct (watch_all_in_order tmp ev') as [H1 H2 H3]; [exact (dl_watch _ _ _ _ _ _ Hpost)|].
  rewrite Hev. split; [exact H1|]. split; [exact H2|].
  intros pre post dst b Heq. destruct (H3 _ _ _ _ Heq) as [Ha Hb].
  split; [|split; assumption].
  pose proof (dl_touches _ _ _ _ _ _ Hpost) as Ht. rewrite Heq in Ht.
  apply Forall_app in Ht as [_ Ht]. apply Forall_cons in Ht as [[_ Hd] _]. exact Hd.
Qed.

(** The steps of scenario A on the local files, in order. *)
Example downloadFile_trace_A :
  List.filter is_fs_event
         (out_ev (@S3Service.downloadFile plain_digest model_key "/models/m.bin" (world0 [])))
  = [EvFs OpEnsureDir "/models" true; EvFs OpAccess "/models" true;
     EvFs OpOpen "/models/m.bin.tmp" true;
     EvData "/models/m.bin.tmp" 600; EvFs OpWrite "/models/m.bin.tmp" true;
     EvData "/models/m.bin.tmp" 400; EvFs OpWrite "/models/m.bin.tmp" true;
     EvFs OpClose "/models/m.bin.tmp" true;
     EvFs OpStat "/models/m.bin.tmp" true;
     EvMove "/models/m.bin.tmp" "/models/m.bin" true].
Proof. vm_compute. reflexivity. Qed.

(** ** The update decision *)



(** The staleness decision on examples: sizes differ; same size and the
    remote object newer; same size and the local file at least as new. *)
Example shouldUpdateFile_size_differs :
  out_res (S3Service.shouldUpdateFile "a.bin" "/models/a.bin"
             (local_world (mkFile (bytes 5) 1000) (remote 7 900))) = Ok true.
Proof. vm_compute. reflexivity. Qed.

Example shouldUpdateFile_remote_newer :
  out_res (S3Service.shouldUpdateFile "a.bin" "/models/a.bin"
             (local_world (mkFile (bytes 5) 1000) (remote 5 1001))) = Ok true.
Proof. vm_compute. reflexivity. Qed.

Example shouldUpdateFile_up_to_date :
  out_res (S3Service.shouldUpdateFile "a.bin" "/models/a.bin"
             (local_world (mkFile (bytes 5) 1000) (remote 5 1000))) = Ok false.
Proof. vm_compute. reflexivity. Qed.

Example shouldUpdateFile_remote_absent :
  out_res (S3Service.shouldUpdateFile "b.bin" "/models/a.bin"
             (local_world (mkFile (bytes 5) 1000) (remote 5 1000))) = Ok false.
Proof. vm_compute. reflexivity. Qed.

(** ** [verifyFileIntegrity] fails closed *)

Lemma verifyFileIntegrity_spec `{Crypto} p es eh w :
  wp (FileValidator.verifyFileIntegrity p es eh) w
     (fun b w' ev =>
        later w w'
        /\ (b = true ->
            exists f, w_fs w !! p = Some f
                      /\ (FileValidator.truthy_num es = true -> es = Some (file_size f))
                      /\ (FileValidator.truthy_str eh = true
                          -> eh = Some (sha256_hex (f_data f)))))
     (fun _ _ _ => False).
Proof.
  unfold FileValidator.verifyFileIntegrity. wp_steps.
  apply wp_stat. intros r w1 ev1 Hst.
  destruct Hst as [w1 f Hl1 Hf|w1 Hl1 Hf|w1 msg Hl1]; cbn [st_size].
  - destruct (FileValidator.truthy_num es
              && negb (file_size f =? default 0 es)) eqn:Hsz.
    + wp_steps. split; [assumption | discriminate].
    + assert (Hsize : FileValidator.truthy_num es = true -> es = Some (file_size f)).
      { intros Ht. rewrite Ht in Hsz. simpl in Hsz.
        destruct es as [n|]; [|discriminate]. simpl in Hsz.
        f_equal. apply negb_false_iff in Hsz. lia. }
      wp_steps. destruct (FileValidator.truthy_str eh) eqn:Hh.
      * wp_steps. unfold FileValidator.calculateSHA256. wp_steps.
        apply wp_readAll. intros r2 w2 ev2 Hrd.
        destruct Hrd as [w2 f2 Hl2 Hf2|w2 Hl2 Hf2|w2 msg Hl2].
        -- assert (f2 = f) as ->.
           { destruct Hl1 as [Hfs _]. rewrite Hfs in Hf2. congruence. }
           wp_steps.
           destruct (negb (sha256_hex (f_data f) =? default EmptyString eh)%string) eqn:Hcmp.
           ++ wp_steps. split; [eauto using later_trans | discriminate].
           ++ wp_steps. split; [eauto using later_trans|]. intros _.
              exists f. repeat split; [assumption..|]. intros _.
              destruct eh as [h|]; [|discriminate]. simpl in Hcmp.
              apply negb_false_iff, String.eqb_eq in Hcmp. congruence.
        -- wp_steps. split; [eauto using later_trans | discriminate].
        -- wp_steps. split; [eauto using later_trans | discriminate].
      * wp_steps. split; [assumption|]. intros _. exists f.
        repeat split; [assumption..|discriminate].
  - wp_steps. split; [assumption | discriminate].
  - wp_steps. split; [assumption | discriminate].
Qed.

(** C5, as the code has it: [verifyFileIntegrity] never throws and returns
    [false] when the path does not exist, when an expected size other than
    0 differs from the size of the file, and when an expected hash other
    than the empty string differs from the digest of the file.  An
    expected size of 0 and an empty expected hash are not checked. *)
Theorem C5_verifyFileIntegrity_fails_closed `{Crypto} (filePath : string)
    (expectedSize : option Z) (expectedHash : option string) (w : World) :
  exists b w' ev,
    FileValidator.verifyFileIntegrity filePath expectedSize expectedHash w
    = mkOut (Ok b) w' ev
    /\ (w_fs w !! filePath = None -> b = false)
    /\ (forall f n, w_fs w !! filePath = Some f -> expectedSize = Some n ->
                    n <> 0 -> file_size f <> n -> b = false)
    /\ (forall f h, w_fs w !! filePath = Some f -> expectedHash = Some h ->
                    h <> EmptyString -> sha256_hex (f_data f) <> h -> b = false).
Proof.
  destruct (wp_total _ _ _ (verifyFileIntegrity_spec filePath expectedSize expectedHash w))
    as (b & w' & ev & Hrun & _ & Hpost).
  exists b, w', ev. split; [exact Hrun|].
  destruct b; [|repeat split; reflexivity].
  destruct (Hpost eq_refl) as (f0 & Hf0 & Hsz & Hh).
  repeat split.
  - congruence.
  - intros f n Hf -> Hn Hne. exfalso. apply Hne.
    assert (Some n = Some (file_size f0)) as Heq.
    { apply Hsz. simpl. apply negb_true_iff. lia. }
    injection Heq as ->. congruence.
  - intros f h Hf -> Hn Hne. exfalso. apply Hne.
    assert (Some h = Some (sha256_hex (f_data f0))) as Heq.
    { apply Hh. simpl. apply negb_true_iff. apply String.eqb_neq. exact Hn. }
    injection Heq as ->. congruence.
Qed.

(** C5 as stated fails: the expected size 0 is provided and differs from
    the 5 bytes of the file, and the verification succeeds. *)
Lemma C5_counterexample :
  file_size <$> w_fs (staged_world (bytes 5)) !! "/models/m.bin.tmp" = Some 5
  /\ out_res (@FileValidator.verifyFileIntegrity plain_digest "/models/m.bin.tmp"
                (Some 0) None (staged_world (bytes 5))) = Ok true.
Proof. vm_compute. split; reflexivity. Qed.

(** A size other than 0 is checked, and a missing file fails the check. *)
Example verifyFileIntegrity_mismatch :
  out_res (@FileValidator.verifyFileIntegrity plain_digest "/models/m.bin.tmp"
             (Some 7) None (staged_world (bytes 5))) = Ok false.
Proof. vm_compute. reflexivity. Qed.

Example verifyFileIntegrity_missing :
  out_res (@FileValidator.verifyFileIntegrity plain_digest "/models/other.tmp"
             (Some 5) None (staged_world (bytes 5))) = Ok false.
Proof. vm_compute. reflexivity. Qed.

(** ** The deletion path *)




(** ** The liveness flag *)

Lemma getHealth_unprocessed p start healthy :
  HealthCheckService.getHealth p (mkHealth None start healthy)
  = (HealthCheckService.mkHealthData
       (if healthy then "healthy" else "unhealthy")
       (HealthCheckService.p_uptime p) (HealthCheckService.p_date p)
       (HealthCheckService.p_memory p) None None,
     mkHealth None start healthy).
Proof. reflexivity. Qed.

Lemma poll_unprocessed readings : forall start healthy,
  poll readings (mkHealth None start healthy) = mkHealth None start healthy.
Proof.
  induction readings as [|p rest IH]; intros start healthy; simpl; [reflexivity|].
  apply IH.
Qed.

(** C10: while no message has been processed (the last-processed time is
    unset), [getHealth] leaves the stored health flag as it is, whatever
    the clock reads and however often it is called, and reports that flag;
    the idle rule flips the flag exactly when a last-processed time is set
    and lies more than 10 minutes back; and [updateLastProcessed] sets the
    time and resets the flag to healthy. *)
Theorem C10_health_flag_needs_a_processed_message
    (readings : list HealthCheckService.Process) (p : HealthCheckService.Process)
    (start now : Z) (healthy : bool) (this : Health) :
  poll readings (mkHealth None start healthy) = mkHealth None start healthy
  /\ poll readings (HealthCheckService.constructor start)
     = HealthCheckService.constructor start
  /\ HealthCheckService.status
       (fst (HealthCheckService.getHealth p (mkHealth None start healthy)))
     = (if healthy then "healthy" else "unhealthy")
  /\ (isHealthy (snd (HealthCheckService.getHealth p this)) <> isHealthy this <->
      isHealthy this = true
      /\ exists t, lastProcessedTime this = Some t
                   /\ 600000 < HealthCheckService.p_now' p - t)
  /\ HealthCheckService.updateLastProcessed now this
     = mkHealth (Some now) (startTime this) true.
Proof.
  split; [apply poll_unprocessed|].
  split; [apply poll_unprocessed|].
  split; [reflexivity|].
  split; [|reflexivity].
  unfold HealthCheckService.getHealth, HealthCheckService.maxIdleTime.
  destruct this as [[t|] st h]; simpl.
  - change (10 * 60 * 1000) with 600000.
    destruct (600000 <? HealthCheckService.p_now' p - t) eqn:Hidle; simpl.
    + apply Z.ltb_lt in Hidle. destruct h; split.
      * intros _. eauto.
      * intros _. discriminate.
      * intros Hne. congruence.
      * intros [Hh _]. discriminate.
    + apply Z.ltb_ge in Hidle. split.
      * intros Hne. congruence.
      * intros [_ (t' & Ht & Hlt)]. injection Ht as <-. lia.
  - split.
    + intros Hne. congruence.
    + intros [_ (t' & Ht & _)]. discriminate.
Qed.

(** Ten minutes and one millisecond after the last message the flag flips;
    with no message processed it does not, a year after the start. *)
Example getHealth_idle :
  isHealthy (snd (HealthCheckService.getHealth
                    (HealthCheckService.mkProcess 600001 600001 600001 600 0)
                    (mkHealth (Some 0) 0 true))) = false.
Proof. reflexivity. Qed.

Example getHealth_at_threshold :
  isHealthy (snd (HealthCheckService.getHealth
                    (HealthCheckService.mkProcess 600000 600000 600000 600 0)
                    (mkHealth (Some 0) 0 true))) = true.
Proof. reflexivity. Qed.

Example getHealth_never_processed :
  isHealthy (snd (HealthCheckService.getHealth
                    (HealthCheckService.mkProcess 31536000000 31536000000 31536000000
                                                  31536000 0)
                    (HealthCheckService.constructor 0))) = true.
Proof. reflexivity. Qed.

(** ** Full reconciliation isolates failures *)

Lemma wp_of_run {S A} (m : M S A) (s s' : S) (a : A) (ev : list Event) Q E :
  m s = mkOut (Ok a) s' ev -> Q a s' ev -> wp m s Q E.
Proof. intros Hrun HQ. unfold wp. rewrite Hrun. exact HQ. Qed.

Lemma reconcile_key_total `{Crypto} base key w :
  exists o w' ev, reconcile_key base key w = mkOut (Ok o) w' ev.
Proof.
  unfold reconcile_key, bind.
  destruct (shouldUpdateFile_run key (ModelSyncService.getLocalModelPath base key) w)
    as (b & w1 & ev1 & -> & _). cbn [out_res out_st out_ev].
  destruct b; [|simpl; eauto].
  destruct (downloadFile_run key (ModelSyncService.getLocalModelPath base key) w1)
    as (r & w2 & ev2 & -> & _). simpl. eauto.
Qed.

Lemma wp_syncModel `{Crypto} base key errs n w Q E :
  (forall o w' ev ev',
      reconcile_key base key w = mkOut (Ok o) w' ev' ->
      Q tt ((errs ++ failure_of key o, n + synced_of o), w') ev) ->
  wp (ModelSyncService.syncModel base key) ((errs, n), w) Q E.
Proof.
  intros HQ. unfold ModelSyncService.syncModel. wp_steps.
  destruct (shouldUpdateFile_run key (ModelSyncService.getLocalModelPath base key) w)
    as (b & w1 & ev1 & Hrun1 & _).
  eapply wp_of_run; [exact Hrun1|]. cbv beta.
  destruct b.
  - wp_steps.
    destruct (downloadFile_run key (ModelSyncService.getLocalModelPath base key) w1)
      as (r & w2 & ev2 & Hrun2 & _).
    eapply wp_of_run; [exact Hrun2|]. cbv beta.
    destruct (S3Service.success r) eqn:Hs; wp_steps; simpl.
    + replace errs with (errs ++ failure_of key Synced) at 1 by apply app_nil_r.
      eapply (HQ Synced). unfold reconcile_key, bind. rewrite Hrun1.
      cbn [out_res out_st out_ev]. rewrite Hrun2. simpl. rewrite Hs. reflexivity.
    + replace n with (n + synced_of Failed) at 1 by (simpl; lia).
      eapply (HQ Failed). unfold reconcile_key, bind. rewrite Hrun1.
      cbn [out_res out_st out_ev]. rewrite Hrun2. simpl. rewrite Hs. reflexivity.
  - wp_steps. simpl.
    replace errs with (errs ++ failure_of key UpToDate) at 1 by apply app_nil_r.
    replace n with (n + synced_of UpToDate) at 1 by (simpl; lia).
    eapply (HQ UpToDate). unfold reconcile_key, bind. rewrite Hrun1. simpl. reflexivity.
Qed.

Lemma wp_sync_loop `{Crypto} base keys : forall errs n w Q E,
  (forall outs w' ev ev',
      reconcile_all base keys w = mkOut (Ok outs) w' ev' ->
      length outs = length keys ->
      Q tt ((errs ++ failures keys outs, n + synced outs), w') ev) ->
  wp (ModelSyncService.for_each (ModelSyncService.syncModel base) keys) ((errs, n), w) Q E.
Proof.
  induction keys as [|key keys IH]; intros errs n w Q E HQ; simpl.
  - wp_steps.
    replace errs with (errs ++ failures [] []) at 1 by apply app_nil_r.
    replace n with (n + synced []) at 1 by (simpl; lia).
    eapply HQ; reflexivity.
  - wp_steps. apply wp_syncModel. intros o w1 ev1 ev1' Hrun1.
    apply IH. intros outs w2 ev2 ev2' Hrun2 Hlen.
    replace ((errs ++ failure_of key o) ++ failures keys outs)
      with (errs ++ failures (key :: keys) (o :: outs))
      by (simpl; rewrite app_assoc; reflexivity).
    replace (n + synced_of o + synced outs) with (n + synced (o :: outs))
      by (simpl; lia).
    eapply HQ.
    + cbn [reconcile_all]. unfold bind. rewrite Hrun1. cbn [out_res out_st out_ev].
      rewrite Hrun2. simpl. reflexivity.
    + simpl. rewrite Hlen. reflexivity.
Qed.

Lemma failures_none keys : forall outs,
  (forall j, outs !! j <> Some Failed) -> failures keys outs = [].
Proof.
  induction keys as [|key keys IH]; intros outs Hno; [reflexivity|].
  destruct outs as [|o outs]; [reflexivity|]. simpl.
  rewrite IH by (intros j; apply (Hno (S j))).
  destruct o; try reflexivity. exfalso. apply (Hno 0%nat). reflexivity.
Qed.

Lemma failures_one keys : forall outs i K,
  keys !! i = Some K -> outs !! i = Some Failed ->
  (forall j, j <> i -> outs !! j <> Some Failed) ->
  failures keys outs = ["Failed to download " +:+ K].
Proof.
  induction keys as [|key keys IH]; intros outs i K Hk Ho Hothers; [discriminate|].
  destruct outs as [|o outs]; [destruct i; discriminate|].
  destruct i as [|i]; simpl in *.
  - injection Hk as ->. injection Ho as ->. simpl.
    rewrite failures_none; [reflexivity|].
    intros j. apply (Hothers (S j)). discriminate.
  - rewrite (IH outs i K Hk Ho) by (intros j Hj; apply (Hothers (S j)); congruence).
    destruct o; try reflexivity. exfalso. apply (Hothers 0%nat); [discriminate|reflexivity].
Qed.

Lemma no_errors_iff (errs : list string) : (length errs =? 0)%nat = true <-> errs = [].
Proof. destruct errs; simpl; split; congruence. Qed.

(** C6: [triggerFullSync] never throws and treats every candidate key on
    its own.  When the listing succeeds with [keys], the run is the run of
    [reconcile_all] on all of them, one outcome for each key, whatever
    failed before; the summary reports the number of candidates, the
    number of keys synced, one error entry for each failed key, and the
    elapsed time; [success] holds exactly when the error list is empty.
    So when exactly one key [K] fails, the error list is the one entry that
    names [K].  When the listing itself fails, the summary carries that
    error alone. *)
Theorem C6_triggerFullSync_isolates_failures `{Crypto} (modelsBasePath : string)
    (w : World) :
  exists s w' ev,
    ModelSyncService.triggerFullSync modelsBasePath w = mkOut (Ok s) w' ev
    /\ (ModelSyncService.success s = true <-> ModelSyncService.errors s = [])
    /\ ModelSyncService.duration s = w_now w' - w_now w
    /\ match out_res (S3Service.listAllModels w) with
       | Throw e =>
           ModelSyncService.totalModels s = 0
           /\ ModelSyncService.syncedModels s = 0
           /\ ModelSyncService.errors s = [err_message e]
       | Ok keys =>
           exists outs ev',
             reconcile_all modelsBasePath keys (out_st (S3Service.listAllModels w))
             = mkOut (Ok outs) w' ev'
             /\ length outs = length keys
             /\ ModelSyncService.totalModels s = Z.of_nat (length keys)
             /\ ModelSyncService.syncedModels s = synced outs
             /\ ModelSyncService.errors s = failures keys outs
             /\ (forall i K,
                    keys !! i = Some K -> outs !! i = Some Failed ->
                    (forall j, j <> i -> outs !! j <> Some Failed) ->
                    ModelSyncService.errors s = ["Failed to download " +:+ K])
       end.
Proof.
  apply wp_total. unfold ModelSyncService.triggerFullSync. wp_steps.
  unfold wp at 1.
  destruct (S3Service.listAllModels w) as [[keys|e] w1 ev1]; cbn [out_res out_st out_ev].
  - destruct keys as [|key keys].
    + cbn [length Nat.eqb]. wp_steps. simpl.
      split; [tauto|]. split; [reflexivity|].
      exists [], []. repeat split; try reflexivity. intros i K Hk. destruct i; discriminate.
    + cbn [length Nat.eqb]. wp_steps. apply wp_sync_loop.
      intros outs w2 ev2 ev2' Hrun Hlen. wp_steps. simpl.
      split.
      * apply no_errors_iff.
      * split; [reflexivity|]. exists outs, ev2'.
        split; [exact Hrun|]. split; [exact Hlen|].
        split; [reflexivity|]. split; [reflexivity|]. split; [reflexivity|].
        intros i K Hk Ho Hothers.
        exact (failures_one (key :: keys) outs i K Hk Ho Hothers).
  - wp_steps. simpl. split; [split; discriminate|]. repeat split; reflexivity.
Qed.

Example triggerFullSync_one_failure :
  out_res (@ModelSyncService.triggerFullSync plain_digest "/models" three_models)
  = Ok (ModelSyncService.mkSyncSummary false 3 2 ["Failed to download a/b/two.bin"] 110).
Proof. vm_compute. reflexivity. Qed.

(** ** Local paths of an event *)















Ltac wp_res :=
  apply wp_of_res;
  match goal with |- match ?r with Ok _ => _ | Throw _ => _ end => destruct r end.

(** [parseModelEvent] only logs, changes nothing, and the event it builds
    carries the decoded key it was given. *)
Lemma parseModelEvent_spec record key w :
  wp (ModelSyncService.parseModelEvent record key) w
     (fun r w' ev =>
        w' = w /\ Forall is_log ev
        /\ forall event, r = Some event -> ModelSyncService.ev_key event = key)
     (fun _ _ _ => False).
Proof.
  unfold ModelSyncService.parseModelEvent. wp_steps.
  destruct (length (JsString.split_slash key) <? 2)%nat.
  { wp_steps. repeat split; [constructor | discriminate]. }
  repeat (wp_steps; try wp_res);
    (split; [reflexivity|]; split; [repeat constructor|]);
    intros event Hev; try discriminate.
  injection Hev as <-. reflexivity.
Qed.









(** Scenario A: a creation event for a key that is not there locally; the
    1000 bytes are installed and a notification with [size: 1000] is sent. *)
Example handleS3Event_scenario_A :
  let o := @ModelSyncService.handleS3Event plain_digest "/models"
             (s3_record "ObjectCreated:Put" model_key) (world0 []) in
  out_res o = Ok tt
  /\ file_size <$> w_fs (out_st o) !! "/models/essential/voice/model.bin" = Some 1000
  /\ w_sent (out_st o)
     = [mkSent (mkNotification model_key "/models/essential/voice/model.bin" 1000
                               1700000100000 0)
               "voice" "essential"].
Proof. vm_compute. repeat split; reflexivity. Qed.

(** Scenario B: a removal event deletes the local file, and raises nothing
    when the file is absent already. *)
Example handleS3Event_scenario_B :
  let o := @ModelSyncService.handleS3Event plain_digest "/models"
             (s3_record "ObjectRemoved:Delete" model_key) installed_world in
  let o' := @ModelSyncService.handleS3Event plain_digest "/models"
              (s3_record "ObjectRemoved:Delete" model_key) (out_st o) in
  out_res o = Ok tt /\ w_fs (out_st o) = ∅
  /\ out_res o' = Ok tt /\ w_fs (out_st o') = ∅.
Proof. vm_compute. repeat split; reflexivity. Qed.


(** ** Malformed records in a message *)

(** C1 fails on the code.  [handleMessage] throws the [TypeError] of
    reading [record.s3.object] for the first record; the well-formed second
    record is not processed (no call into the filesystem or the bucket is
    made, no file is installed, nothing is sent); and [processMessages]
    neither deletes the message nor marks it processed. *)
Lemma C1_malformed_record_fails_message :
  let o := @ModelSyncService.handleMessage plain_digest "/models" mixed_message
             (world_queue [mixed_message]) in
  let p := @ModelSyncService.processMessages plain_digest "/models"
             (world_queue [mixed_message]) in
  out_res o = Throw (TypeError "Cannot read properties of undefined (reading 'object')")
  /\ out_ev o = [EvLog LError ("Error parsing SQS message: "
                               +:+ "Cannot read properties of undefined (reading 'object')")]
  /\ w_fs (out_st o) = ∅
  /\ out_res p = Ok tt
  /\ w_fs (out_st p) = ∅
  /\ w_sent (out_st p) = []
  /\ w_queue (out_st p) = [mixed_message]
  /\ lastProcessedTime (w_health (out_st p)) = None.
Proof. vm_compute. repeat split; reflexivity. Qed.

(** The well-formed record alone is processed, and its message is deleted
    and marked processed. *)
Example processMessages_well_formed :
  let p := @ModelSyncService.processMessages plain_digest "/models"
             (world_queue [well_formed_message]) in
  out_res p = Ok tt
  /\ file_size <$> w_fs (out_st p) !! "/models/essential/voice/model.bin" = Some 1000
  /\ length (w_sent (out_st p)) = 1%nat
  /\ w_queue (out_st p) = []
  /\ lastProcessedTime (w_health (out_st p)) = Some 1700000100000.
Proof. vm_compute. repeat split; reflexivity. Qed.

Example handleMessage_skips_unparseable :
  let o := @ModelSyncService.handleMessage plain_digest "/models" unparseable_message
             (world_queue [unparseable_message]) in
  out_res o = Ok tt
  /\ In (EvLog LWarn "Failed to parse model event for: model.bin") (out_ev o)
  /\ In (EvLog LWarn "Failed to parse model event for: a/b/c.bin") (out_ev o)
  /\ file_size <$> w_fs (out_st o) !! "/models/essential/voice/model.bin" = Some 1000.
Proof. vm_compute. repeat split; tauto. Qed.

(** A record whose [s3.object] lacks the [key] is skipped as a file that
    is no model, at debug level. *)
Example handleS3Event_missing_key :
  out_ev (@ModelSyncService.handleS3Event plain_digest "/models"
            (JObj [("eventName", JStr "ObjectCreated:Put");
                   ("s3", JObj [("object", JObj [("size", JNum 3)])])])
            (world_queue []))
  = [EvLog LInfo "Processing S3 event: ObjectCreated:Put for undefined";
     EvLog LDebug "Skipping non-model file: undefined"].
Proof. vm_compute. reflexivity. Qed.

(** Scenario C: a body that is not JSON fails the message; the loop goes
    on. *)
Example processMessages_invalid_body :
  let msg := mkMessage "msg-4" "receipt-4" (Throw (SyntaxError "Unexpected token")) in
  let p := @ModelSyncService.processMessages plain_digest "/models" (world_queue [msg]) in
  out_res p = Ok tt /\ w_queue (out_st p) = [msg].
Proof. vm_compute. repeat split; reflexivity. Qed.

(** ** The liveness tracker between messages *)

(** The status [getHealth] reports is the flag it leaves. *)
Lemma getHealth_status_flag p this :
  HealthCheckService.status (fst (HealthCheckService.getHealth p this))
  = if isHealthy (snd (HealthCheckService.getHealth p this)) then "healthy" else "unhealthy".
Proof.
  unfold HealthCheckService.getHealth.
  destruct this as [[t|] st h]; simpl; [|reflexivity].
  destruct (HealthCheckService.maxIdleTime <? HealthCheckService.p_now' p - t); reflexivity.
Qed.

Lemma getHealth_keeps_unhealthy p this :
  isHealthy this = false ->
  isHealthy (snd (HealthCheckService.getHealth p this)) = false
  /\ lastProcessedTime (snd (HealthCheckService.getHealth p this)) = lastProcessedTime this.
Proof.
  intros Hh. unfold HealthCheckService.getHealth.
  destruct this as [[t|] st h]; simpl in *; [|auto].
  destruct (HealthCheckService.maxIdleTime <? HealthCheckService.p_now' p - t); simpl; auto.
Qed.

(** X23: Once the flag is unset, [getHealth] never sets it again: however
    often it is called and whatever the clock reads, the flag stays unset,
    the last-processed time stays as it is, and the status reported is
    [unhealthy].  Only [updateLastProcessed] and [setHealthy] set the
    flag. *)
Theorem getHealth_unhealthy_is_sticky (readings : list HealthCheckService.Process)
    (p : HealthCheckService.Process) (this : Health) :
  isHealthy this = false ->
  isHealthy (poll readings this) = false
  /\ lastProcessedTime (poll readings this) = lastProcessedTime this
  /\ HealthCheckService.status (fst (HealthCheckService.getHealth p (poll readings this)))
     = "unhealthy".
Proof.
  revert this. induction readings as [|q readings IH]; intros this Hh; simpl.
  - split; [exact Hh|]. split; [reflexivity|].
    rewrite getHealth_status_flag.
    destruct (getHealth_keeps_unhealthy p this Hh) as [-> _]. reflexivity.
  - destruct (getHealth_keeps_unhealthy q this Hh) as [Hh' Ht'].
    destruct (IH _ Hh') as (H1 & H2 & H3).
    split; [exact H1|]. split; [congruence | exact H3].
Qed.

Lemma getHealth_unhealthy_is_sticky_witness :
  isHealthy (poll [HealthCheckService.mkProcess 5 5 5 0 0]
                  (mkHealth (Some 0) 0 false)) = false.
Proof.
  apply (getHealth_unhealthy_is_sticky [HealthCheckService.mkProcess 5 5 5 0 0]
           (HealthCheckService.mkProcess 6 6 6 0 0) (mkHealth (Some 0) 0 false)).
  reflexivity.
Defined.

(** After [updateLastProcessed] at time [now], whatever the state was
    before, [getHealth] reports [now] as the last-processed time and
    reports [healthy] exactly as long as the clock is at most ten minutes
    past [now]. *)
Theorem updateLastProcessed_restores_health (p : HealthCheckService.Process)
    (now : Z) (this : Health) :
  let r := HealthCheckService.getHealth p (HealthCheckService.updateLastProcessed now this) in
  HealthCheckService.lastProcessed (fst r) = Some now
  /\ HealthCheckService.timeSinceLastProcess (fst r) = Some (HealthCheckService.p_now p - now)
  /\ lastProcessedTime (snd r) = Some now
  /\ (HealthCheckService.status (fst r) = "healthy"
      <-> HealthCheckService.p_now' p - now <= 600000)
  /\ (isHealthy (snd r) = true <-> HealthCheckService.p_now' p - now <= 600000).
Proof.
  unfold HealthCheckService.getHealth, HealthCheckService.updateLastProcessed,
    HealthCheckService.maxIdleTime. simpl.
  change (10 * 60 * 1000) with 600000.
  destruct (600000 <? HealthCheckService.p_now' p - now) eqn:Hidle; simpl.
  - apply Z.ltb_lt in Hidle. repeat split; try reflexivity; try (intros; discriminate || lia).
  - apply Z.ltb_ge in Hidle. repeat split; try reflexivity; intros; lia.
Qed.

(** ** The routes of the API *)

(** X30: [GET /health] answers 200 or 503: 503 exactly when the stored flag is
    unset already or a last-processed time is set and lies more than ten
    minutes back, and 200 exactly when the body says [healthy];
    [GET /ready] answers with the same code and leaves the same state. *)
Theorem health_route_status (p : HealthCheckService.Process) (this : Health) :
  let r := fst (ApiService.health p this) in
  (ApiService.res_status r = 200 \/ ApiService.res_status r = 503)
  /\ (ApiService.res_status r = 503 <->
      isHealthy this = false
      \/ exists t, lastProcessedTime this = Some t
                   /\ 600000 < HealthCheckService.p_now' p - t)
  /\ (ApiService.res_status r = 200 <->
      HealthCheckService.status (ApiService.res_body r) = "healthy")
  /\ (ApiService.res_body (fst (ApiService.ready p this)) = true <->
      ApiService.res_status r = 200)
  /\ ApiService.res_status (fst (ApiService.ready p this)) = ApiService.res_status r
  /\ snd (ApiService.ready p this) = snd (ApiService.health p this).
Proof.
  unfold ApiService.health, ApiService.ready, HealthCheckService.getHealth,
    HealthCheckService.maxIdleTime.
  change (10 * 60 * 1000) with 600000.
  destruct this as [[t|] st h]; simpl.
  - destruct (600000 <? HealthCheckService.p_now' p - t) eqn:Hidle; simpl.
    + apply Z.ltb_lt in Hidle.
      repeat split; auto; try discriminate; intros; eauto.
    + apply Z.ltb_ge in Hidle. destruct h; simpl;
        repeat split; auto; try discriminate; intros; auto.
      destruct H as [H|(t' & Ht & Hlt)]; [discriminate|].
      injection Ht as <-. lia.
  - destruct h; simpl; repeat split; auto; try discriminate; intros; auto.
    destruct H as [H|(t' & Ht & _)]; discriminate.
Qed.

Lemma answer_unprocessed probe p rt start :
  answer probe p rt (mkHealth None start true) = (200, mkHealth None start true).
Proof. destruct probe; reflexivity. Qed.

(** X25: A health service on which [updateLastProcessed] was never called (the
    routes do not call it) answers every request with 200, whatever the
    clock reads and however many requests are served. *)
Theorem fresh_health_service_always_answers_200
    (requests : list (Probe * HealthCheckService.Process * HealthCheckService.Runtime))
    (start : Z) :
  serve requests (HealthCheckService.constructor start)
  = (repeat 200 (length requests), HealthCheckService.constructor start).
Proof.
  unfold HealthCheckService.constructor.
  induction requests as [|[[probe p] rt] requests IH]; [reflexivity|].
  cbn [serve]. rewrite answer_unprocessed. cbn [fst snd].
  rewrite IH. reflexivity.
Qed.

(** X26: [GET /sync/status] calls [getHealth] before [getMetrics], so the
    status of the service and the health status among the metrics agree,
    and so do the two last-processed times; the answer is always 200. *)
Theorem sync_status_is_consistent (p p' : HealthCheckService.Process)
    (rt : HealthCheckService.Runtime) (this : Health) :
  let body := ApiService.res_body (fst (ApiService.sync_status p p' rt this)) in
  HealthCheckService.healthStatus (ApiService.status_metrics body)
  = ApiService.ss_status (ApiService.service body)
  /\ HealthCheckService.m_lastProcessed (ApiService.status_metrics body)
     = ApiService.ss_lastProcessed (ApiService.service body)
  /\ ApiService.res_status (fst (ApiService.sync_status p p' rt this)) = 200.
Proof.
  unfold ApiService.sync_status. cbn [fst snd ApiService.res_body ApiService.res_status
    ApiService.status_metrics ApiService.service ApiService.ss_status
    ApiService.ss_lastProcessed HealthCheckService.getMetrics
    HealthCheckService.healthStatus HealthCheckService.m_lastProcessed].
  rewrite getHealth_status_flag. split; [reflexivity|]. split; [|reflexivity].
  unfold HealthCheckService.getHealth.
  destruct this as [[t|] st h]; simpl; [|reflexivity].
  destruct (HealthCheckService.maxIdleTime <? HealthCheckService.p_now' p - t); reflexivity.
Qed.

(** X24: [GET /metrics] reports the stored flag and does not apply the idle
    rule: on a state that [GET /health] answers with 503 because the last
    message lies more than ten minutes back, the metrics still say
    [healthy] as long as [getHealth] has not run. *)
Theorem metrics_ignore_the_idle_rule (p p' : HealthCheckService.Process)
    (rt : HealthCheckService.Runtime) (this : Health) (t : Z) :
  isHealthy this = true ->
  lastProcessedTime this = Some t ->
  600000 < HealthCheckService.p_now' p - t ->
  HealthCheckService.healthStatus (ApiService.res_body (ApiService.metrics p' rt this))
  = "healthy"
  /\ ApiService.res_status (fst (ApiService.health p this)) = 503
  /\ HealthCheckService.healthStatus
       (ApiService.res_body (ApiService.metrics p' rt (snd (ApiService.health p this))))
     = "unhealthy".
Proof.
  intros Hh Ht Hidle. destruct this as [lp st h]. simpl in Hh, Ht. subst h lp.
  unfold ApiService.metrics, ApiService.health, HealthCheckService.getHealth,
    HealthCheckService.getMetrics, HealthCheckService.maxIdleTime. simpl.
  change (10 * 60 * 1000) with 600000.
  apply Z.ltb_lt in Hidle. rewrite Hidle. simpl. auto.
Qed.

Lemma metrics_ignore_the_idle_rule_witness :
  HealthCheckService.healthStatus
    (ApiService.res_body
       (ApiService.metrics (HealthCheckService.mkProcess 700000 700000 700000 700 0)
          (HealthCheckService.mkRuntime 0 ∅ "v18.0.0" "linux" "x64")
          (mkHealth (Some 0) 0 true)))
  = "healthy"
  /\ ApiService.res_status
       (fst (ApiService.health (HealthCheckService.mkProcess 700000 700000 700000 700 0)
               (mkHealth (Some 0) 0 true))) = 503.
Proof.
  pose proof (metrics_ignore_the_idle_rule
                (HealthCheckService.mkProcess 700000 700000 700000 700 0)
                (HealthCheckService.mkProcess 700000 700000 700000 700 0)
                (HealthCheckService.mkRuntime 0 ∅ "v18.0.0" "linux" "x64")
                (mkHealth (Some 0) 0 true) 0 eq_refl eq_refl ltac:(simpl; lia))
    as (H1 & H2 & _).
  split; [exact H1 | exact H2].
Defined.

(** ** Starting the service *)

Lemma env_set_or env name fallback :
  env_set env name = true ->
  env !! name = Some (env_or env name fallback)
  /\ env_or env name fallback <> EmptyString.
Proof.
  unfold env_set, env_or. destruct (env !! name) as [v|]; [|discriminate].
  destruct (String.eqb v EmptyString) eqn:Hv; [discriminate|].
  intros _. split; [reflexivity|]. apply String.eqb_neq. exact Hv.
Qed.

Lemma env_unset_or env name :
  env_set env name = false -> env_or env name EmptyString = EmptyString.
Proof.
  unfold env_set, env_or. destruct (env !! name) as [v|]; [|reflexivity].
  destruct (String.eqb v EmptyString); [reflexivity | discriminate].
Qed.

(** X28: [main] and [isReady] filter the same five variables.  With one of them
    unset [main] exits with the code 1 and logs the names [isReady] reports
    as missing, in the order of the list, joined by a comma and a space.
    With all five set the constructor still needs the notification queue:
    without [SQS_NOTIFICATION_QUEUE_URL] the process exits with the code 1
    although [isReady] reports ready; with it the service is constructed
    from the environment. *)
Theorem main_starts_or_exits (env : Env) :
  (HealthCheckService.ready (HealthCheckService.isReady env) = true
   <-> HealthCheckService.missingEnvVars (HealthCheckService.isReady env) = None)
  /\ Index.main env
     = match HealthCheckService.missingEnvVars (HealthCheckService.isReady env) with
       | Some missing =>
           Index.Exited 1 ("Failed to start Model Sync Service: "
                           +:+ "Missing required environment variables: "
                           +:+ String.concat ", " missing)
       | None =>
           if env_set env "SQS_NOTIFICATION_QUEUE_URL" then
             Index.Started
               (ModelSyncService.mkConfig
                  (env_or env "AWS_REGION" "us-west-2")
                  (S3Service.constructor env)
                  (env_or env "SQS_UPDATE_QUEUE_URL" EmptyString)
                  (env_or env "SQS_NOTIFICATION_QUEUE_URL" EmptyString)
                  (env_or env "MODELS_BASE_PATH" "/models"))
           else
             Index.Exited 1 ("Failed to start Model Sync Service: "
                             +:+ "SQS queue URLs are required")
       end.
Proof.
  unfold HealthCheckService.isReady, Index.main.
  change Index.requiredEnvVars with HealthCheckService.requiredEnvVars.
  cbn [HealthCheckService.ready HealthCheckService.missingEnvVars].
  set (missing := List.filter _ HealthCheckService.requiredEnvVars).
  destruct missing as [|name others] eqn:Hmissing.
  - split; [split; reflexivity|]. cbn [length Nat.ltb Nat.leb].
    assert (Hq : env_set env "SQS_UPDATE_QUEUE_URL" = true).
    { destruct (env_set env "SQS_UPDATE_QUEUE_URL") eqn:Hq; [reflexivity|].
      assert (Hin : In "SQS_UPDATE_QUEUE_URL" (@nil string)).
      { rewrite <- Hmissing. subst missing. apply filter_In. split.
        - simpl. tauto.
        - rewrite Hq. reflexivity. }
      destruct Hin. }
    unfold ModelSyncService.constructor.
    destruct (env_set_or env "SQS_UPDATE_QUEUE_URL" EmptyString Hq) as [_ Hne].
    apply String.eqb_neq in Hne. rewrite Hne. cbn [orb].
    destruct (env_set env "SQS_NOTIFICATION_QUEUE_URL") eqn:Hn.
    + destruct (env_set_or env "SQS_NOTIFICATION_QUEUE_URL" EmptyString Hn) as [_ Hne'].
      apply String.eqb_neq in Hne'. rewrite Hne'. reflexivity.
    + rewrite (env_unset_or env _ Hn). reflexivity.
  - split; [split; discriminate|]. reflexivity.
Qed.

Lemma main_started_inv (env : Env) (service : ModelSyncService.Config) :
  Index.main env = Index.Started service ->
  List.filter (fun name => negb (env_set env name)) HealthCheckService.requiredEnvVars = []
  /\ ModelSyncService.constructor env = Ok service.
Proof.
  unfold Index.main. change Index.requiredEnvVars with HealthCheckService.requiredEnvVars.
  destruct (List.filter _ HealthCheckService.requiredEnvVars) as [|name others];
    cbn [length Nat.ltb Nat.leb]; [|discriminate].
  destruct (ModelSyncService.constructor env); intros Heq;
    [injection Heq as <-; auto | discriminate].
Qed.

(** X29: When [main] constructs the service, every queue and bucket setting is
    the value of its environment variable and none of the built-in
    defaults for the region and the bucket is in use; the base path is
    [MODELS_BASE_PATH], or [/models] without one, and is not empty. *)
Theorem main_started_from_environment (env : Env) (service : ModelSyncService.Config) :
  Index.main env = Index.Started service ->
  env !! "AWS_REGION" = Some (ModelSyncService.region service)
  /\ env !! "S3_BUCKET_NAME"
     = Some (S3Service.bucketName (ModelSyncService.s3Service service))
  /\ env !! "AWS_REGION" = Some (S3Service.region (ModelSyncService.s3Service service))
  /\ env !! "SQS_UPDATE_QUEUE_URL" = Some (ModelSyncService.updateQueueUrl service)
  /\ env !! "SQS_NOTIFICATION_QUEUE_URL"
     = Some (ModelSyncService.notificationQueueUrl service)
  /\ ModelSyncService.updateQueueUrl service <> EmptyString
  /\ ModelSyncService.notificationQueueUrl service <> EmptyString
  /\ ModelSyncService.modelsBasePath service = env_or env "MODELS_BASE_PATH" "/models"
  /\ ModelSyncService.modelsBasePath service <> EmptyString
  /\ HealthCheckService.ready (HealthCheckService.isReady env) = true.
Proof.
  intros Hmain. destruct (main_started_inv env service Hmain) as [Hmissing Hctor].
  assert (Hall : forall name, In name HealthCheckService.requiredEnvVars ->
                              env_set env name = true).
  { intros name Hin. destruct (env_set env name) eqn:Hs; [reflexivity|].
    assert (Hm : In name (@nil string)).
    { rewrite <- Hmissing. apply filter_In. split; [exact Hin|]. rewrite Hs. reflexivity. }
    destruct Hm. }
  assert (Hn : env_set env "SQS_NOTIFICATION_QUEUE_URL" = true).
  { destruct (env_set env "SQS_NOTIFICATION_QUEUE_URL") eqn:Hn; [reflexivity|].
    unfold ModelSyncService.constructor in Hctor.
    rewrite (env_unset_or env _ Hn), orb_true_r in Hctor. discriminate. }
  unfold ModelSyncService.constructor in Hctor.
  destruct (_ || _); [discriminate|]. injection Hctor as <-.
  cbn [ModelSyncService.region ModelSyncService.s3Service ModelSyncService.updateQueueUrl
       ModelSyncService.notificationQueueUrl ModelSyncService.modelsBasePath
       S3Service.constructor S3Service.bucketName S3Service.region].
  pose proof (env_set_or env "AWS_REGION" "us-west-2"
                (Hall "AWS_REGION" ltac:(simpl; tauto))) as [Hr _].
  pose proof (env_set_or env "S3_BUCKET_NAME" "gamania-voice-models"
                (Hall "S3_BUCKET_NAME" ltac:(simpl; tauto))) as [Hb _].
  pose proof (env_set_or env "SQS_UPDATE_QUEUE_URL" EmptyString
                (Hall "SQS_UPDATE_QUEUE_URL" ltac:(simpl; tauto))) as [Hu Hu'].
  pose proof (env_set_or env "SQS_NOTIFICATION_QUEUE_URL" EmptyString Hn) as [Hnq Hnq'].
  repeat split; try assumption.
  - unfold env_or. destruct (env !! "MODELS_BASE_PATH") as [v|]; [|discriminate].
    destruct (String.eqb v EmptyString) eqn:Hv; [discriminate|].
    apply String.eqb_neq. exact Hv.
  - unfold HealthCheckService.isReady. cbn [HealthCheckService.ready].
    rewrite Hmissing. reflexivity.
Qed.

Lemma main_started_from_environment_witness :
  full_env !! "S3_BUCKET_NAME" = Some "voice-models"
  /\ HealthCheckService.ready (HealthCheckService.isReady full_env) = true.
Proof.
  pose proof (main_started_from_environment full_env
                (ModelSyncService.mkConfig "ap-northeast-1"
                   (S3Service.mkConfig "ap-northeast-1" "voice-models")
                   "https://sqs.example/update" "https://sqs.example/notify" "/models")
                ltac:(vm_compute; reflexivity))
    as (_ & Hb & _ & _ & _ & _ & _ & _ & _ & Hr).
  split; [exact Hb | exact Hr].
Defined.

(** ** Which keys are model files *)

Lemma string_length_ind (P : string -> Prop) :
  (forall s, (forall t, (String.length t < String.length s)%nat -> P t) -> P s) ->
  forall s, P s.
Proof.
  intros Hstep s.
  assert (H : forall n t, (String.length t < n)%nat -> P t).
  { induction n as [|n IH]; intros t Hlt; [lia|].
    apply Hstep. intros u Hu. apply IH. lia. }
  apply (H (S (String.length s))). lia.
Qed.

Lemma toLowerCase_cons c s :
  JsString.toLowerCase (String c s)
  = match s with
    | String c2 (String c3 r) =>
        if ((nat_of_ascii c =? 226) && (nat_of_ascii c2 =? 132)
            && (nat_of_ascii c3 =? 170))%nat
        then String "k" (JsString.toLowerCase r)
        else String (JsString.lower_ascii c) (JsString.toLowerCase s)
    | _ => String (JsString.lower_ascii c) (JsString.toLowerCase s)
    end.
Proof. destruct s as [|c2 [|c3 r]]; reflexivity. Qed.

(** Lowering a key lowers what comes before an ASCII character and what
    comes from it on separately. *)
Lemma toLowerCase_app t : starts_ascii t = true -> forall s,
  JsString.toLowerCase (s +:+ t) = JsString.toLowerCase s +:+ JsString.toLowerCase t.
Proof.
  intros Ht s. induction s as [s IH] using string_length_ind.
  destruct s as [|c [|c2 [|c3 r]]].
  - reflexivity.
  - (* the key ends here: [t] starts with an ASCII character *)
    change (String c EmptyString +:+ t) with (String c t).
    rewrite (toLowerCase_cons c t).
    change (JsString.toLowerCase (String c EmptyString) +:+ JsString.toLowerCase t)
      with (String (JsString.lower_ascii c) (JsString.toLowerCase t)).
    destruct t as [|d [|d2 t]]; try reflexivity.
    simpl in Ht. unfold is_ascii in Ht. apply Nat.ltb_lt in Ht.
    destruct (nat_of_ascii d =? 132)%nat eqn:Hd; [apply Nat.eqb_eq in Hd; lia|].
    rewrite andb_false_r. reflexivity.
  - change (String c (String c2 EmptyString) +:+ t) with (String c (String c2 t)).
    rewrite (toLowerCase_cons c (String c2 t)).
    assert (Hrest : JsString.toLowerCase (String c2 t)
                    = JsString.toLowerCase (String c2 EmptyString)
                      +:+ JsString.toLowerCase t).
    { apply (IH (String c2 EmptyString)). simpl. lia. }
    change (JsString.toLowerCase (String c (String c2 EmptyString)))
      with (String (JsString.lower_ascii c) (JsString.toLowerCase (String c2 EmptyString))).
    destruct t as [|d t].
    + rewrite Hrest. reflexivity.
    + simpl in Ht. unfold is_ascii in Ht. apply Nat.ltb_lt in Ht.
      destruct (nat_of_ascii d =? 170)%nat eqn:Hd; [apply Nat.eqb_eq in Hd; lia|].
      rewrite andb_false_r. rewrite Hrest. reflexivity.
  - change (String c (String c2 (String c3 r)) +:+ t)
      with (String c (String c2 (String c3 (r +:+ t)))).
    rewrite (toLowerCase_cons c (String c2 (String c3 (r +:+ t)))).
    rewrite (toLowerCase_cons c (String c2 (String c3 r))).
    destruct ((nat_of_ascii c =? 226) && (nat_of_ascii c2 =? 132)
              && (nat_of_ascii c3 =? 170))%nat.
    + rewrite (IH r) by (simpl; lia). reflexivity.
    + change (String c2 (String c3 (r +:+ t))) with (String c2 (String c3 r) +:+ t).
      rewrite (IH (String c2 (String c3 r))) by (simpl; lia). reflexivity.
Qed.

Lemma string_app_assoc (a b c : string) : (a +:+ b) +:+ c = a +:+ (b +:+ c).
Proof.
  induction a as [|x a IH]; [reflexivity|].
  change (String x ((a +:+ b) +:+ c) = String x (a +:+ (b +:+ c))).
  rewrite IH. reflexivity.
Qed.

Lemma string_app_nil_r (a : string) : a +:+ EmptyString = a.
Proof.
  induction a as [|x a IH]; [reflexivity|].
  change (String x (a +:+ EmptyString) = String x a). rewrite IH. reflexivity.
Qed.

Lemma string_rev_app_acc s : forall acc,
  String.rev_app s acc = String.rev_app s EmptyString +:+ acc.
Proof.
  induction s as [|c s IH]; intros acc; [reflexivity|].
  change (String.rev_app s (String c acc)
          = String.rev_app s (String c EmptyString) +:+ acc).
  rewrite (IH (String c acc)), (IH (String c EmptyString)), string_app_assoc.
  reflexivity.
Qed.

Lemma string_rev_cons c s : String.rev (String c s) = String.rev s +:+ String c EmptyString.
Proof. unfold String.rev. apply (string_rev_app_acc s (String c EmptyString)). Qed.

Lemma string_rev_app a b : String.rev (a +:+ b) = String.rev b +:+ String.rev a.
Proof.
  induction a as [|c a IH].
  - symmetry. apply string_app_nil_r.
  - change (String c a +:+ b) with (String c (a +:+ b)).
    rewrite !string_rev_cons, IH, string_app_assoc. reflexivity.
Qed.

Lemma string_prefix_app a b : String.prefix a (a +:+ b) = true.
Proof.
  induction a as [|c a IH]; [destruct b; reflexivity|].
  change (String c a +:+ b) with (String c (a +:+ b)). simpl.
  destruct (ascii_dec c c); [exact IH | contradiction].
Qed.

Lemma endsWith_app s suffix : JsString.endsWith (s +:+ suffix) suffix = true.
Proof. unfold JsString.endsWith. rewrite string_rev_app. apply string_prefix_app. Qed.

Lemma lower_ascii_dot c : JsString.lower_ascii c = "."%char -> c = "."%char.
Proof.
  destruct c as [[] [] [] [] [] [] [] []]; vm_compute; intros Heq;
    first [reflexivity | discriminate Heq].
Qed.

Lemma lowered_dot_starts_ascii suffix r :
  JsString.toLowerCase suffix = String "." r -> starts_ascii suffix = true.
Proof.
  destruct suffix as [|c s]; [reflexivity|]. rewrite toLowerCase_cons.
  intros Heq.
  assert (Hc : JsString.lower_ascii c = "."%char).
  { destruct s as [|c2 [|c3 t]]; try (injection Heq as Heq _; exact Heq).
    destruct ((nat_of_ascii c =? 226) && (nat_of_ascii c2 =? 132)
              && (nat_of_ascii c3 =? 170))%nat;
      [discriminate | injection Heq as Heq _; exact Heq]. }
  apply lower_ascii_dot in Hc. subst c. reflexivity.
Qed.

(** X1: A key that ends in one of the seven extensions, in any ASCII case, is a
    model file, whatever comes before the extension. *)
Theorem isModelFile_by_extension (stem suffix : string) :
  In (JsString.toLowerCase suffix) FileValidator.modelExtensions ->
  FileValidator.isModelFile (stem +:+ suffix) = true.
Proof.
  intros Hin. unfold FileValidator.isModelFile.
  assert (Hdot : exists r, JsString.toLowerCase suffix = String "." r).
  { simpl in Hin.
    repeat (destruct Hin as [Hin|Hin]; [rewrite <- Hin; eexists; reflexivity|]).
    destruct Hin. }
  destruct Hdot as [r Hdot].
  rewrite (toLowerCase_app suffix (lowered_dot_starts_ascii suffix r Hdot)).
  apply existsb_exists. exists (JsString.toLowerCase suffix).
  split; [exact Hin | apply endsWith_app].
Qed.

Lemma isModelFile_by_extension_witness :
  FileValidator.isModelFile ("essential/voice/Model" +:+ ".ONNX") = true.
Proof.
  apply (isModelFile_by_extension "essential/voice/Model" ".ONNX").
  vm_compute. tauto.
Defined.

(** X2: The empty key and every key that ends in a slash, as the marker of a
    folder does, is no model file. *)
Theorem isModelFile_rejects_folders (key : string) :
  FileValidator.isModelFile EmptyString = false
  /\ FileValidator.isModelFile (key +:+ "/") = false.
Proof.
  split; [reflexivity|]. unfold FileValidator.isModelFile.
  rewrite (toLowerCase_app "/" eq_refl).
  change (JsString.toLowerCase "/") with "/".
  unfold JsString.endsWith. rewrite string_rev_app.
  change (String.rev "/") with "/". 
  change ("/" +:+ String.rev (JsString.toLowerCase key))
    with (String "/" (String.rev (JsString.toLowerCase key))).
  reflexivity.
Qed.

(** ** Keys as the event carries them *)

Lemma tokens_literal s :
  has_percent s = false ->
  JsString.tokens s = Some (map JsString.Lit (list_ascii_of_string s)).
Proof.
  induction s as [|c s IH]; simpl; [reflexivity|].
  destruct (Ascii.eqb c "%"); [discriminate|]. simpl.
  intros Hs. rewrite (IH Hs). reflexivity.
Qed.

Lemma decode_literal l :
  JsString.decode_tokens (map JsString.Lit l) (JsString.mkUtf8 0 0 0)
  = Some (string_of_list_ascii l).
Proof. induction l as [|c l IH]; simpl; [reflexivity | rewrite IH; reflexivity]. Qed.

Lemma decodeURIComponent_literal s :
  has_percent s = false -> JsString.decodeURIComponent s = Ok s.
Proof.
  intros Hs. unfold JsString.decodeURIComponent.
  rewrite (tokens_literal s Hs), decode_literal, string_of_list_ascii_of_string.
  reflexivity.
Qed.

Lemma tokens_dangling s : JsString.tokens (s +:+ "%") = None.
Proof.
  induction s as [s IH] using string_length_ind.
  destruct s as [|c s]; [reflexivity|].
  change (String c s +:+ "%") with (String c (s +:+ "%")).
  cbn [JsString.tokens].
  destruct (Ascii.eqb c "%").
  - destruct s as [|h1 [|h2 r]].
    + reflexivity.
    + change (String h1 EmptyString +:+ "%") with (String h1 "%").
      cbn beta iota. change (JsString.hex_digit "%") with (@None Z).
      destruct (JsString.hex_digit h1); reflexivity.
    + change (String h1 (String h2 r) +:+ "%") with (String h1 (String h2 (r +:+ "%"))).
      cbn beta iota. rewrite (IH r) by (simpl; lia).
      destruct (JsString.hex_digit h1), (JsString.hex_digit h2); reflexivity.
  - rewrite (IH s) by (simpl; lia). reflexivity.
Qed.

Lemma record_key_s3_record eventName key :
  record_key (s3_record eventName key) = JsString.decodeURIComponent key.
Proof. reflexivity. Qed.

(** X10: A key without a percent sign is taken as it stands: nothing but the
    escapes [%XX] is decoded, so a plus sign stays a plus sign. *)
Theorem handleS3Event_takes_plain_keys_literally (eventName key : string) :
  has_percent key = false ->
  JsString.decodeURIComponent key = Ok key
  /\ record_key (s3_record eventName key) = Ok key.
Proof.
  intros Hs. rewrite record_key_s3_record.
  split; apply decodeURIComponent_literal; exact Hs.
Qed.

Lemma handleS3Event_takes_plain_keys_literally_witness :
  record_key (s3_record "ObjectCreated:Put" "essential/voice/my+model.bin")
  = Ok "essential/voice/my+model.bin".
Proof.
  apply (handleS3Event_takes_plain_keys_literally
           "ObjectCreated:Put" "essential/voice/my+model.bin").
  reflexivity.
Defined.

Lemma wp_throws {S A} (m : M S A) (s : S) (e : JsError) :
  wp m s (fun _ _ _ => False) (fun e' s' ev => e' = e /\ s' = s /\ ev = []) ->
  m s = mkOut (Throw e) s [].
Proof.
  unfold wp. destruct (m s) as [[a|e'] s' ev]; simpl; [tauto|].
  intros (-> & -> & ->). reflexivity.
Qed.

Lemma handleS3Event_key_error `{Crypto} base record e w :
  record_key record = Throw e ->
  ModelSyncService.handleS3Event base record w = mkOut (Throw e) w [].
Proof.
  intros Hkey. apply wp_throws.
  unfold ModelSyncService.handleS3Event, record_key in *.
  wp_steps. apply wp_of_res.
  destruct (JsValue.get record "s3") as [s3|]; [|injection Hkey as <-; auto].
  wp_steps. apply wp_of_res.
  destruct (JsValue.get s3 "object") as [object|]; [|injection Hkey as <-; auto].
  wp_steps. apply wp_of_res.
  destruct (JsValue.get object "key") as [rawKey|]; [|injection Hkey as <-; auto].
  wp_steps. apply wp_of_res. rewrite Hkey. auto.
Qed.

(** X11: A record whose key ends in a percent sign that starts no escape makes
    [handleS3Event] throw the [URIError] of [decodeURIComponent] before it
    logs or does anything, whatever the rest of the key and the kind of the
    event. *)
Theorem handleS3Event_rejects_dangling_percent `{Crypto}
    (modelsBasePath eventName key : string) (w : World) :
  ModelSyncService.handleS3Event modelsBasePath (s3_record eventName (key +:+ "%")) w
  = mkOut (Throw (URIError "URI malformed")) w [].
Proof.
  apply handleS3Event_key_error. rewrite record_key_s3_record.
  unfold JsString.decodeURIComponent. rewrite tokens_dangling. reflexivity.
Qed.

(** ** What a computation leaves as it is *)

Section Preserves.
Context {S : Type} (R : S -> S -> Prop) `{!PreOrder R}.

Lemma preserves_ret {A} (a : A) : preserves R (ret a).
Proof. intros s. simpl. reflexivity. Qed.

Lemma preserves_throw {A} e : preserves R (@throw S A e).
Proof. intros s. simpl. reflexivity. Qed.

Lemma preserves_emit e : preserves R (emit e).
Proof. intros s. simpl. reflexivity. Qed.

Lemma preserves_gets {A} (f : S -> A) : preserves R (gets f).
Proof. intros s. simpl. reflexivity. Qed.

Lemma preserves_of_res {A} (r : Res A) : preserves R (of_res r).
Proof. intros s. simpl. reflexivity. Qed.

Lemma preserves_modify (f : S -> S) : (forall s, R s (f s)) -> preserves R (modify f).
Proof. intros Hf s. simpl. apply Hf. Qed.

Lemma preserves_bind {A B} (m : M S A) (k : A -> M S B) :
  preserves R m -> (forall a, preserves R (k a)) -> preserves R (bind m k).
Proof.
  intros Hm Hk s. unfold bind. specialize (Hm s).
  destruct (out_res (m s)) as [a|e]; simpl; [|exact Hm].
  etransitivity; [exact Hm | apply Hk].
Qed.

Lemma preserves_try {A} (m : M S A) (h : JsError -> M S A) :
  preserves R m -> (forall e, preserves R (h e)) -> preserves R (try_catch m h).
Proof.
  intros Hm Hh s. unfold try_catch. specialize (Hm s).
  destruct (out_res (m s)) as [a|e]; simpl; [exact Hm|].
  etransitivity; [exact Hm | apply Hh].
Qed.

Lemma preserves_for_each {A} (body : A -> M S unit) (items : list A) :
  (forall x, preserves R (body x)) ->
  preserves R (ModelSyncService.for_each body items).
Proof.
  intros Hbody. induction items as [|x items IH]; simpl.
  - apply preserves_ret.
  - apply preserves_bind; [apply Hbody | intros _; exact IH].
Qed.

Global Instance on_snd_preorder {L} : PreOrder (@on_snd L S R).
Proof.
  split.
  - intros ls. unfold on_snd. reflexivity.
  - intros a b c Hab Hbc. unfold on_snd in *. etransitivity; eassumption.
Qed.

Lemma preserves_lift {L A} (m : M S A) : preserves R m -> preserves (@on_snd L S R) (lift m).
Proof. intros Hm ls. unfold on_snd, lift. simpl. apply Hm. Qed.

Lemma preserves_with_local {L A} (init : L) (m : M (L * S) A) :
  preserves (on_snd R) m -> preserves R (with_local init m).
Proof. intros Hm s. unfold with_local. simpl. apply (Hm (init, s)). Qed.

Lemma preserves_modify_local {L} (f : L -> L) : preserves (@on_snd L S R) (modify_local f).
Proof. intros ls. unfold on_snd. simpl. reflexivity. Qed.

Lemma preserves_get_local {L} : preserves (@on_snd L S R) get_local.
Proof. intros ls. unfold on_snd. simpl. reflexivity. Qed.

End Preserves.

Global Instance keeps_preorder {V} (view : World -> V) : PreOrder (keeps view).
Proof.
  split.
  - intros w. reflexivity.
  - intros a b c Hab Hbc. unfold keeps in *. congruence.
Qed.

Global Instance confined_preorder paths : PreOrder (confined paths).
Proof.
  split.
  - intros w q _. reflexivity.
  - intros a b c Hab Hbc q Hq. rewrite (Hbc q Hq). apply Hab, Hq.
Qed.

Ltac preserves_leaf lemma := apply lemma; typeclasses eauto.

Ltac preserves_step :=
  lazymatch goal with
  | |- preserves _ (bind _ _) =>
      apply preserves_bind; [typeclasses eauto .. | | intros ?]
  | |- preserves _ (try_catch _ _) =>
      apply preserves_try; [typeclasses eauto .. | | intros ?]
  | |- preserves _ (ret _) => preserves_leaf @preserves_ret
  | |- preserves _ (throw _) => preserves_leaf @preserves_throw
  | |- preserves _ (of_res _) => preserves_leaf @preserves_of_res
  | |- preserves _ (emit _) => preserves_leaf @preserves_emit
  | |- preserves _ (gets _) => preserves_leaf @preserves_gets
  | |- preserves _ get_local => preserves_leaf @preserves_get_local
  | |- preserves _ (modify_local _) => preserves_leaf @preserves_modify_local
  | |- preserves _ Date_now => preserves_leaf @preserves_gets
  | |- preserves _ (logger.debug _) => preserves_leaf @preserves_emit
  | |- preserves _ (logger.info _) => preserves_leaf @preserves_emit
  | |- preserves _ (logger.warn _) => preserves_leaf @preserves_emit
  | |- preserves _ (logger.error _) => preserves_leaf @preserves_emit
  | |- preserves _ (lift _) => apply preserves_lift
  | |- preserves _ (with_local _ _) => apply preserves_with_local
  | |- preserves _ (if ?b then _ else _) => destruct b
  | |- preserves _ (match ?x with _ => _ end) => destruct x
  end.

(** The calls into the filesystem and the bucket, for a relation that the
    passing of time respects and that allows writing the paths
    [writable]. *)
Section Frame.
Variable R : World -> World -> Prop.
Variable writable : string -> Prop.
Context `{!PreOrder R}.
Hypothesis R_step : forall t rest w, R w (step_world t rest w).
Hypothesis R_delete : forall p w, writable p -> R w (set_fs (delete p) w).
Hypothesis R_insert : forall p f w, writable p -> R w (set_fs (<[p := f]>) w).

Lemma preserves_tick : preserves R tick.
Proof.
  intros w. unfold tick. destruct (w_oracle w) as [|t rest]; simpl; [reflexivity|].
  destruct (t_fault t); simpl; apply R_step.
Qed.

Lemma preserves_attempt failed : preserves R (attempt failed).
Proof. unfold attempt. repeat first [apply preserves_tick | preserves_step]. Qed.

Ltac frame_step :=
  first [ apply preserves_tick | apply preserves_attempt | preserves_step ].

Lemma preserves_pathExists p : preserves R (fs.pathExists p).
Proof. unfold fs.pathExists. repeat frame_step. Qed.

Lemma preserves_stat p : preserves R (fs.stat p).
Proof. unfold fs.stat. repeat frame_step. Qed.

Lemma preserves_remove p : writable p -> preserves R (fs.remove p).
Proof.
  intros Hp. unfold fs.remove. repeat frame_step.
  apply preserves_modify. intros w. apply R_delete, Hp.
Qed.

Lemma preserves_move src dst :
  writable src -> writable dst -> preserves R (fs.move src dst).
Proof.
  intros Hs Hd. unfold fs.move. repeat frame_step.
  apply preserves_modify. intros w.
  transitivity (set_fs (delete src) w); [apply R_delete, Hs|].
  exact (R_insert dst f (set_fs (delete src) w) Hd).
Qed.

Lemma preserves_ensureDir d : preserves R (fs.ensureDir d).
Proof. unfold fs.ensureDir. repeat frame_step. Qed.

Lemma preserves_access d : preserves R (fs.access d).
Proof. unfold fs.access. repeat frame_step. Qed.

Lemma preserves_openWrite p : writable p -> preserves R (fs.openWrite p).
Proof.
  intros Hp. unfold fs.openWrite. repeat frame_step.
  apply preserves_modify. intros w. apply R_insert, Hp.
Qed.

Lemma preserves_writeChunk p chunk : writable p -> preserves R (fs.writeChunk p chunk).
Proof.
  intros Hp. unfold fs.writeChunk. repeat frame_step.
  apply preserves_modify. intros w. apply R_insert, Hp.
Qed.

Lemma preserves_closeWrite p : preserves R (fs.closeWrite p).
Proof. unfold fs.closeWrite. repeat frame_step. Qed.

Lemma preserves_readAll p : preserves R (fs.readAll p).
Proof. unfold fs.readAll. repeat frame_step. Qed.

Lemma preserves_headObject key : preserves R (s3Client.headObject key).
Proof. unfold s3Client.headObject. repeat frame_step. Qed.

Lemma preserves_getObject key : preserves R (s3Client.getObject key).
Proof. unfold s3Client.getObject. repeat frame_step. Qed.

Lemma preserves_listPage page : preserves R (s3Client.listPage page).
Proof. unfold s3Client.listPage. repeat frame_step. Qed.

Lemma preserves_getObjectInfo key : preserves R (S3Service.getObjectInfo key).
Proof.
  unfold S3Service.getObjectInfo.
  repeat first [apply preserves_headObject | frame_step].
Qed.

Lemma preserves_verifyFileIntegrity `{Crypto} p es eh :
  preserves R (FileValidator.verifyFileIntegrity p es eh).
Proof.
  unfold FileValidator.verifyFileIntegrity, FileValidator.calculateSHA256.
  repeat first [apply preserves_stat | apply preserves_readAll | frame_step].
Qed.

Lemma preserves_checkDiskSpace d : preserves R (FileValidator.checkDiskSpace d).
Proof.
  unfold FileValidator.checkDiskSpace. repeat first [apply preserves_access | frame_step].
Qed.

Lemma preserves_cleanupTempFile p :
  writable p -> preserves R (FileValidator.cleanupTempFile p).
Proof.
  intros Hp. unfold FileValidator.cleanupTempFile.
  repeat first [apply preserves_pathExists | apply preserves_remove; exact Hp | frame_step].
Qed.

Lemma preserves_pump tmp chunks :
  writable tmp -> preserves (on_snd R) (S3Service.pump tmp chunks).
Proof.
  intros Hp. induction chunks as [|chunk chunks IH]; simpl.
  - frame_step.
  - repeat first [ exact IH | apply preserves_writeChunk; exact Hp | frame_step ].
Qed.

Lemma preserves_pipeline tmp chunks :
  writable tmp -> preserves (on_snd R) (S3Service.pipeline tmp chunks).
Proof.
  intros Hp. unfold S3Service.pipeline.
  repeat first [ apply preserves_pump; exact Hp | apply preserves_openWrite; exact Hp
               | apply preserves_closeWrite | frame_step ].
Qed.

Lemma preserves_downloadFile `{Crypto} key lp :
  writable lp -> writable (lp +:+ ".tmp") ->
  preserves R (S3Service.downloadFile key lp).
Proof.
  intros Hlp Htmp. unfold S3Service.downloadFile.
  repeat first
    [ apply preserves_getObjectInfo | apply preserves_ensureDir
    | apply preserves_checkDiskSpace | apply preserves_getObject
    | apply preserves_pipeline; exact Htmp
    | apply preserves_verifyFileIntegrity
    | apply preserves_cleanupTempFile; exact Htmp
    | apply preserves_move; assumption
    | frame_step ].
Qed.

Lemma preserves_shouldUpdateFile key lp : preserves R (S3Service.shouldUpdateFile key lp).
Proof.
  unfold S3Service.shouldUpdateFile.
  repeat first [ apply preserves_pathExists | apply preserves_getObjectInfo
               | apply preserves_stat | frame_step ].
Qed.

Lemma preserves_listLoop rest : forall page models,
  preserves R (S3Service.listLoop page rest models).
Proof.
  induction rest as [|next rest IH]; intros page models; simpl.
  - repeat first [apply preserves_listPage | frame_step].
  - repeat first [apply preserves_listPage | apply IH | frame_step].
Qed.

Lemma preserves_listAllModels : preserves R S3Service.listAllModels.
Proof.
  unfold S3Service.listAllModels. repeat first [apply preserves_listLoop | frame_step].
Qed.

End Frame.




Lemma confined_weaken paths paths' w w' :
  (forall p, In p paths -> In p paths') -> confined paths w w' -> confined paths' w w'.
Proof. intros Hsub Hc q Hq. apply Hc. intros Hin. apply Hq, Hsub, Hin. Qed.

(** X4: The checks only look: [shouldUpdateFile], [verifyFileIntegrity],
    [checkDiskSpace], [getObjectInfo] and [listAllModels] leave the local
    files, the bucket, both queues and the health state as they find them,
    whether they return or throw and whatever fails on the way. *)
Theorem checks_are_read_only `{Crypto} (key path : string) (expectedSize : option Z)
    (expectedHash : option string) (w : World) :
  everything (out_st (S3Service.shouldUpdateFile key path w)) = everything w
  /\ everything (out_st (FileValidator.verifyFileIntegrity path expectedSize expectedHash w))
     = everything w
  /\ everything (out_st (FileValidator.checkDiskSpace path w)) = everything w
  /\ everything (out_st (S3Service.getObjectInfo key w)) = everything w
  /\ everything (out_st (S3Service.listAllModels w)) = everything w.
Proof.
  assert (Hstep : forall t rest w0, keeps everything w0 (step_world t rest w0))
    by reflexivity.
  repeat split.
  - exact (preserves_shouldUpdateFile (keeps everything) Hstep key path w).
  - exact (preserves_verifyFileIntegrity (keeps everything) Hstep path expectedSize
             expectedHash w).
  - exact (preserves_checkDiskSpace (keeps everything) Hstep path w).
  - exact (preserves_getObjectInfo (keeps everything) Hstep key w).
  - exact (preserves_listAllModels (keeps everything) Hstep w).
Qed.

(** The same for the service, for a relation that allows writing every
    local path. *)
Section ServiceFrame.
Variable R : World -> World -> Prop.
Context `{!PreOrder R} `{Crypto}.
Hypothesis R_step : forall t rest w, R w (step_world t rest w).
Hypothesis R_delete : forall p w, R w (set_fs (delete p) w).
Hypothesis R_insert : forall p f w, R w (set_fs (<[p := f]>) w).

Let anywhere : string -> Prop := fun _ => True.

Lemma preserves_syncModel base key :
  preserves (on_snd R) (ModelSyncService.syncModel base key).
Proof.
  unfold ModelSyncService.syncModel.
  repeat first
    [ apply (preserves_shouldUpdateFile R R_step)
    | apply (preserves_downloadFile R anywhere R_step (fun p w _ => R_delete p w)
               (fun p f w _ => R_insert p f w)); exact I
    | preserves_step ].
Qed.

Lemma preserves_triggerFullSync base : preserves R (ModelSyncService.triggerFullSync base).
Proof.
  unfold ModelSyncService.triggerFullSync.
  repeat first
    [ apply (preserves_listAllModels R R_step)
    | apply preserves_for_each; [typeclasses eauto | intros ?; apply preserves_syncModel]
    | preserves_step ].
Qed.

Lemma preserves_handleModelDeletion base event :
  preserves R (ModelSyncService.handleModelDeletion base event).
Proof.
  unfold ModelSyncService.handleModelDeletion.
  repeat first
    [ apply (preserves_cleanupTempFile R anywhere R_step (fun p w _ => R_delete p w));
      exact I
    | preserves_step ].
Qed.

Lemma preserves_parseModelEvent record key :
  preserves R (ModelSyncService.parseModelEvent record key).
Proof.
  intros w. pose proof (parseModelEvent_spec record key w) as Hspec.
  unfold wp in Hspec.
  destruct (out_res (ModelSyncService.parseModelEvent record key w)); [|contradiction].
  destruct Hspec as [-> _]. reflexivity.
Qed.

Hypothesis R_sent : forall f w, R w (set_sent f w).

Lemma preserves_sendMessage msg : preserves R (sqsClient.sendMessage msg).
Proof.
  unfold sqsClient.sendMessage.
  repeat first [ apply (preserves_attempt R R_step)
               | apply preserves_modify; intros w; apply R_sent
               | preserves_step ].
Qed.

Lemma preserves_handleModelUpdate base event :
  preserves R (ModelSyncService.handleModelUpdate base event).
Proof.
  unfold ModelSyncService.handleModelUpdate, ModelSyncService.notifyApplications.
  repeat first
    [ apply (preserves_shouldUpdateFile R R_step)
    | apply (preserves_downloadFile R anywhere R_step (fun p w _ => R_delete p w)
               (fun p f w _ => R_insert p f w)); exact I
    | apply preserves_sendMessage
    | preserves_step ].
Qed.

Lemma preserves_handleS3Event base record :
  preserves R (ModelSyncService.handleS3Event base record).
Proof.
  unfold ModelSyncService.handleS3Event.
  repeat first
    [ apply preserves_parseModelEvent
    | apply preserves_handleModelUpdate
    | apply preserves_handleModelDeletion
    | preserves_step ].
Qed.

Lemma preserves_handleMessage base message :
  preserves R (ModelSyncService.handleMessage base message).
Proof.
  unfold ModelSyncService.handleMessage.
  repeat first
    [ apply preserves_for_each; [typeclasses eauto | intros ?; apply preserves_handleS3Event]
    | preserves_step ].
Qed.

Hypothesis R_queue : forall f w, R w (set_queue f w).
Hypothesis R_health : forall f w, R w (set_health f w).

Lemma preserves_receive : preserves R sqsClient.receive.
Proof.
  unfold sqsClient.receive.
  repeat first [ apply (preserves_attempt R R_step) | preserves_step ].
Qed.

Lemma preserves_processMessage base message :
  preserves R (ModelSyncService.processMessage base message).
Proof.
  unfold ModelSyncService.processMessage, ModelSyncService.deleteMessage,
    ModelSyncService.updateLastProcessed, sqsClient.deleteMessage.
  repeat first
    [ apply preserves_handleMessage
    | apply (preserves_attempt R R_step)
    | apply preserves_modify; intros w; first [apply R_queue | apply R_health]
    | preserves_step ].
Qed.

Lemma processMessages_unfold base :
  ModelSyncService.processMessages base
  = try_catch
      (let! messages := sqsClient.receive in
       match messages with
       | [] => ret tt
       | _ =>
           logger.info ("Received " +:+ pretty (Z.of_nat (length messages))
                        +:+ " messages from SQS") ;;;
           ModelSyncService.for_each (ModelSyncService.processMessage base) messages
       end)
      (fun error =>
         logger.error ("Error receiving messages from SQS: " +:+ err_message error)).
Proof. reflexivity. Qed.

Lemma preserves_processMessages base : preserves R (ModelSyncService.processMessages base).
Proof.
  rewrite processMessages_unfold.
  repeat first
    [ apply preserves_receive
    | apply preserves_for_each; [typeclasses eauto | intros ?; apply preserves_processMessage]
    | preserves_step ].
Qed.

End ServiceFrame.


(** X21: A full sync is silent: it sends no notification, takes nothing from
    the update queue, does not mark a message as processed, and never
    writes to the bucket. *)
Theorem triggerFullSync_is_silent `{Crypto} (modelsBasePath : string) (w : World) :
  surroundings (out_st (ModelSyncService.triggerFullSync modelsBasePath w))
  = surroundings w.
Proof.
  exact (preserves_triggerFullSync (keeps surroundings) (fun _ _ _ => eq_refl)
           (fun _ _ => eq_refl) (fun _ _ _ => eq_refl) modelsBasePath w).
Qed.

(** X15: The deletion path is silent too: no notification is sent for a model
    that was removed, and nothing but the local files changes. *)
Theorem handleModelDeletion_is_silent (modelsBasePath : string)
    (event : ModelSyncService.ModelUpdateEvent) (w : World) :
  surroundings (out_st (ModelSyncService.handleModelDeletion modelsBasePath event w))
  = surroundings w.
Proof.
  exact (preserves_handleModelDeletion (keeps surroundings) (fun _ _ _ => eq_refl)
           (fun _ _ => eq_refl) modelsBasePath event w).
Qed.

(** ** One message at a time *)

Lemma passes_refl w : passes w w.
Proof. split; [reflexivity | lia]. Qed.


Lemma passes_step t rest w : passes w (step_world t rest w).
Proof. split; [reflexivity | simpl; lia]. Qed.

Lemma wp_tick_passes w Q E :
  (forall w', passes w w' -> Q tt w' []) ->
  (forall msg w', passes w w' -> E (Error msg) w' [EvFault msg]) ->
  wp tick w Q E.
Proof.
  intros HQ HE. unfold wp, tick. destruct (w_oracle w) as [|t rest]; simpl.
  - apply HQ, passes_refl.
  - destruct (t_fault t) as [msg|]; simpl; [apply HE | apply HQ]; apply passes_step.
Qed.

Lemma wp_attempt_passes failed w Q E :
  (forall w', passes w w' -> Q tt w' []) ->
  (forall msg w', passes w w' -> E (Error msg) w' [EvFault msg; failed]) ->
  wp (attempt failed) w Q E.
Proof.
  intros HQ HE. unfold attempt. apply wp_try. apply wp_tick_passes.
  - exact HQ.
  - intros msg w' Hp. wp_steps. simpl. apply HE, Hp.
Qed.

Lemma wp_deleteMessage receiptHandle w Q E :
  (forall w1, passes w w1 ->
     Q tt (set_queue (filter (fun m => m_ReceiptHandle m ≠ receiptHandle)) w1)
       [EvSqs OpDelete true]) ->
  (forall msg w', passes w w' -> E (Error msg) w' [EvFault msg; EvSqs OpDelete false]) ->
  wp (sqsClient.deleteMessage receiptHandle) w Q E.
Proof.
  intros HQ HE. unfold sqsClient.deleteMessage. apply wp_bind.
  apply wp_attempt_passes.
  - intros w1 Hp. wp_steps. simpl. apply HQ, Hp.
  - exact HE.
Qed.

Lemma wp_sendMessage msg w Q E :
  (forall w1, passes w w1 -> Q tt (set_sent (fun q => q ++ [msg]) w1) [EvSqs OpSend true]) ->
  (forall m w', passes w w' -> E (Error m) w' [EvFault m; EvSqs OpSend false]) ->
  wp (sqsClient.sendMessage msg) w Q E.
Proof.
  intros HQ HE. unfold sqsClient.sendMessage. apply wp_bind.
  apply wp_attempt_passes.
  - intros w1 Hp. wp_steps. simpl. apply HQ, Hp.
  - exact HE.
Qed.

Lemma wp_receive w Q E :
  (forall w', passes w w' -> Q (firstn 10 (w_queue w')) w' [EvSqs OpReceive true]) ->
  (forall msg w', passes w w' -> E (Error msg) w' [EvFault msg; EvSqs OpReceive false]) ->
  wp sqsClient.receive w Q E.
Proof.
  intros HQ HE. unfold sqsClient.receive. apply wp_bind.
  apply wp_attempt_passes.
  - intros w1 Hp. wp_steps. simpl. apply HQ, Hp.
  - exact HE.
Qed.

Lemma wp_of_throw {S A} (m : M S A) (s s' : S) (e : JsError) (ev : list Event)
    (Q : A -> S -> list Event -> Prop) E :
  m s = mkOut (Throw e) s' ev -> E e s' ev -> wp m s Q E.
Proof. intros Hrun HE. unfold wp. rewrite Hrun. exact HE. Qed.

Lemma wp_returns {S A} (m : M S A) (s : S) (Q : A -> S -> list Event -> Prop) :
  wp m s Q (fun _ _ _ => False) ->
  exists a, out_res (m s) = Ok a /\ Q a (out_st (m s)) (out_ev (m s)).
Proof.
  unfold wp. destruct (out_res (m s)) as [a|e]; [eauto | contradiction].
Qed.

Lemma handleMessage_keeps_bookkeeping `{Crypto} base message w :
  bookkeeping (out_st (ModelSyncService.handleMessage base message w)) = bookkeeping w.
Proof.
  exact (preserves_handleMessage (keeps bookkeeping) (fun _ _ _ => eq_refl)
           (fun _ _ => eq_refl) (fun _ _ _ => eq_refl) (fun _ _ => eq_refl) base message w).
Qed.

(** X18: What the loop of [processMessages] does with one message never throws.
    When [handleMessage] throws, the error is logged and that is all: the
    message stays in the queue and the health state is as it was.  When
    [handleMessage] returns, the message is marked as processed (the
    last-processed time is the clock, the flag is set) even when deleting
    it failed; the message is then out of the queue, or the failed deletion
    was logged and the queue is as it was. *)
Theorem processMessage_acknowledges_success_only `{Crypto} (modelsBasePath : string)
    (message : Message) (w : World) :
  let h := ModelSyncService.handleMessage modelsBasePath message w in
  let o := ModelSyncService.processMessage modelsBasePath message w in
  out_res o = Ok tt
  /\ match out_res h with
     | Throw e =>
         out_st o = out_st h
         /\ out_ev o = out_ev h ++ [EvLog LError ("Error processing message: "
                                                  +:+ err_message e)]
         /\ w_queue (out_st o) = w_queue w
         /\ w_health (out_st o) = w_health w
     | Ok _ =>
         w_health (out_st o)
         = mkHealth (Some (w_now (out_st o))) (startTime (w_health w)) true
         /\ (w_queue (out_st o)
             = filter (fun m => m_ReceiptHandle m ≠ m_ReceiptHandle message) (w_queue w)
             \/ (w_queue (out_st o) = w_queue w
                 /\ In (EvSqs OpDelete false) (out_ev o)
                 /\ exists msg, In (EvLog LError ("Failed to delete SQS message: " +:+ msg))
                                   (out_ev o)))
     end.
Proof.
  intros h o. subst h o.
  pose proof (handleMessage_keeps_bookkeeping modelsBasePath message w) as Hkeep.
  destruct (ModelSyncService.handleMessage modelsBasePath message w)
    as [[[]|e] w1 ev1] eqn:Hrun; cbn [out_res out_st out_ev] in *;
    injection Hkeep as Hq Hh.
  - assert (Hwp : wp (ModelSyncService.processMessage modelsBasePath message) w
                     (fun _ w' ev =>
                        w_health w' = mkHealth (Some (w_now w')) (startTime (w_health w)) true
                        /\ (w_queue w'
                            = filter (fun m => m_ReceiptHandle m ≠ m_ReceiptHandle message)
                                     (w_queue w)
                            \/ (w_queue w' = w_queue w
                                /\ In (EvSqs OpDelete false) ev
                                /\ exists msg,
                                     In (EvLog LError ("Failed to delete SQS message: "
                                                       +:+ msg)) ev)))
                     (fun _ _ _ => False)).
    { unfold ModelSyncService.processMessage. wp_steps.
      eapply wp_of_run; [exact Hrun|]. cbv beta. wp_steps.
      unfold ModelSyncService.deleteMessage. wp_steps. apply wp_deleteMessage.
      - intros w2 [Hev _]. unfold ModelSyncService.updateLastProcessed. wp_steps.
        injection Hev as _ _ _ Hq2 _ Hh2. simpl.
        rewrite Hq2, Hh2, Hq, Hh. auto.
      - intros msg w2 [Hev _]. wp_steps.
        unfold ModelSyncService.updateLastProcessed. wp_steps.
        injection Hev as _ _ _ Hq2 _ Hh2. simpl.
        rewrite Hq2, Hh2, Hq, Hh. split; [reflexivity|]. right.
        split; [reflexivity|]. split.
        + apply in_or_app. right. simpl. auto.
        + exists msg. apply in_or_app. right. simpl. auto. }
    apply wp_returns in Hwp. destruct Hwp as ([] & Hres & Hpost).
    split; [exact Hres | exact Hpost].
  - assert (Hwp : wp (ModelSyncService.processMessage modelsBasePath message) w
                     (fun _ w' ev =>
                        w' = w1
                        /\ ev = ev1 ++ [EvLog LError ("Error processing message: "
                                                      +:+ err_message e)])
                     (fun _ _ _ => False)).
    { unfold ModelSyncService.processMessage. wp_steps.
      eapply wp_of_throw; [exact Hrun|]. cbv beta. wp_steps. auto. }
    apply wp_returns in Hwp. destruct Hwp as ([] & Hres & -> & ->).
    repeat split; assumption.
Qed.

Lemma wp_is {S A} (m : M S A) (s : S) (o : Out S A) :
  wp m s (fun a s' ev => o = mkOut (Ok a) s' ev) (fun e s' ev => o = mkOut (Throw e) s' ev) ->
  m s = o.
Proof.
  unfold wp. destruct (m s) as [[a|e] s' ev]; simpl; intros ->; reflexivity.
Qed.

(** X16: [handleMessage] by the shape of the body.  A body that is no JSON, or
    the JSON [null], makes it log and rethrow the error, so that the
    message stays in the queue.  A body whose [Records] is anything but an
    array is skipped with a warning, and a body with no records at all is
    skipped without one: [handleMessage] returns, nothing has changed, and
    the loop goes on to delete the message. *)
Theorem handleMessage_by_shape_of_body `{Crypto} (modelsBasePath : string)
    (message : Message) (w : World) :
  let o := ModelSyncService.handleMessage modelsBasePath message w in
  let failed e :=
    mkOut (@Throw unit e) w [EvLog LError ("Error parsing SQS message: " +:+ err_message e)] in
  match m_Body message with
  | Throw e => o = failed e
  | Ok body =>
      match JsValue.get body "Records" with
      | Throw e => o = failed e
      | Ok (JArr []) => o = mkOut (Ok tt) w []
      | Ok (JArr (_ :: _)) => True
      | Ok _ => o = mkOut (Ok tt) w [EvLog LWarn "Invalid S3 event format, skipping"]
      end
  end.
Proof.
  cbv zeta.
  destruct (m_Body message) as [body|e] eqn:Hbody.
  - destruct (JsValue.get body "Records") as [records|e] eqn:Hrecords.
    + assert (Hskip : (forall items, records <> JArr items) ->
                      ModelSyncService.handleMessage modelsBasePath message w
                      = mkOut (Ok tt) w [EvLog LWarn "Invalid S3 event format, skipping"]).
      { intros Hother. apply wp_is. unfold ModelSyncService.handleMessage.
        wp_steps. apply wp_of_res. rewrite Hbody. wp_steps.
        apply wp_of_res. rewrite Hrecords.
        destruct records; try (wp_steps; reflexivity).
        exfalso. eapply Hother. reflexivity. }
      destruct records as [| |b|n|s|items|members]; try (apply Hskip; discriminate).
      destruct items; [|exact I].
      apply wp_is. unfold ModelSyncService.handleMessage.
      wp_steps. apply wp_of_res. rewrite Hbody. wp_steps.
      apply wp_of_res. rewrite Hrecords. cbn [ModelSyncService.for_each].
      wp_steps. reflexivity.
    + apply wp_is. unfold ModelSyncService.handleMessage.
      wp_steps. apply wp_of_res. rewrite Hbody. wp_steps.
      apply wp_of_res. rewrite Hrecords. wp_steps. reflexivity.
  - apply wp_is. unfold ModelSyncService.handleMessage.
    wp_steps. apply wp_of_res. rewrite Hbody. wp_steps. reflexivity.
Qed.

(** ** The main loop *)

Global Instance clock_preorder : PreOrder clock.
Proof. split; unfold clock; [intros w; lia | intros a b c; lia]. Qed.

Lemma clock_step t rest w : clock w (step_world t rest w).
Proof. unfold clock. simpl. lia. Qed.

Lemma try_catch_returns {S A} (m : M S A) (h : JsError -> M S A) (s : S) :
  (forall e s', exists a, out_res (h e s') = Ok a) ->
  exists a, out_res (try_catch m h s) = Ok a.
Proof.
  intros Hh. unfold try_catch. destruct (out_res (m s)) as [a|e] eqn:Hm.
  - exists a. exact Hm.
  - simpl. apply Hh.
Qed.

Lemma try_catch_unused {S A} (m : M S A) (h : JsError -> M S A) (s : S) (a : A) :
  out_res (m s) = Ok a -> try_catch m h s = m s.
Proof. intros Hm. unfold try_catch. rewrite Hm. reflexivity. Qed.

Lemma processMessages_returns `{Crypto} base w :
  out_res (ModelSyncService.processMessages base w) = Ok tt.
Proof.
  unfold ModelSyncService.processMessages.
  match goal with |- out_res (try_catch ?m ?h w) = _ =>
    destruct (try_catch_returns m h w) as [[] Hres]; [|exact Hres] end.
  intros e s'. exists tt. reflexivity.
Qed.

(** X20: The back-off of the main loop is never taken.  [processMessages]
    catches whatever is thrown, so a round of the loop is
    [processMessages] followed by the pause of five seconds: it never
    throws, lasts five seconds at least, and never writes to the bucket. *)
Theorem start_round_never_backs_off `{Crypto} (modelsBasePath : string) (w : World) :
  let o := ModelSyncService.start_round modelsBasePath w in
  o = (ModelSyncService.processMessages modelsBasePath ;;; ModelSyncService.sleep 5000) w
  /\ out_res o = Ok tt
  /\ w_now w + 5000 <= w_now (out_st o)
  /\ w_s3 (out_st o) = w_s3 w.
Proof.
  intros o. subst o.
  pose proof (processMessages_returns modelsBasePath w) as Hres.
  pose proof (preserves_processMessages clock clock_step
                (fun _ _ => reflexivity _) (fun _ _ _ => reflexivity _)
                (fun _ _ => reflexivity _) (fun _ _ => reflexivity _)
                (fun _ _ => reflexivity _) modelsBasePath w) as Hclock.
  pose proof (preserves_processMessages (keeps w_s3) (fun _ _ _ => eq_refl)
                (fun _ _ => eq_refl) (fun _ _ _ => eq_refl)
                (fun _ _ => eq_refl) (fun _ _ => eq_refl)
                (fun _ _ => eq_refl) modelsBasePath w) as Hs3.
  assert (Hround : out_res ((ModelSyncService.processMessages modelsBasePath
                             ;;; ModelSyncService.sleep 5000) w) = Ok tt).
  { unfold bind. rewrite Hres. reflexivity. }
  unfold ModelSyncService.start_round.
  rewrite (try_catch_unused _ _ _ _ Hround).
  split; [reflexivity|]. split; [exact Hround|].
  unfold bind. rewrite Hres. unfold clock, keeps in *. simpl. split; [lia | exact Hs3].
Qed.


(** ** The bytes of a download *)

Lemma no_faults_app ev1 ev2 : no_faults (ev1 ++ ev2) = no_faults ev1 && no_faults ev2.
Proof. apply forallb_app. Qed.

Lemma no_faults_faulted ev : no_faults ev = true -> ~ faulted ev.
Proof.
  intros Hno [msg Hin]. unfold no_faults in Hno. rewrite forallb_forall in Hno.
  specialize (Hno _ Hin). discriminate.
Qed.

Ltac calm :=
  rewrite ?no_faults_app;
  repeat match goal with H : no_faults _ = true |- _ => rewrite H; clear H end;
  reflexivity.

Lemma confined_later paths w w' : later w w' -> confined paths w w'.
Proof. intros [Hfs _] q _. rewrite Hfs. reflexivity. Qed.

Lemma confined_trans paths w1 w2 w3 :
  confined paths w1 w2 -> confined paths w2 w3 -> confined paths w1 w3.
Proof. intros H1 H2. etransitivity; eassumption. Qed.

Lemma wp_pump_data tmp chunks : forall l w f Q E,
  w_fs w !! tmp = Some f ->
  (forall lw' ev,
      confined [tmp] w (snd lw') -> no_faults ev = true ->
      (exists f', w_fs (snd lw') !! tmp = Some f'
                  /\ f_data f' = f_data f +:+ joined chunks) ->
      Q tt lw' ev) ->
  (forall e lw' ev, confined [tmp] w (snd lw') -> E e lw' ev) ->
  wp (S3Service.pump tmp chunks) (l, w) Q E.
Proof.
  induction chunks as [|chunk chunks IH]; intros l w f Q E Hf HQ HE; simpl.
  - wp_steps. apply HQ; [reflexivity | reflexivity |].
    exists f. split; [exact Hf|]. simpl. symmetry. apply string_app_nil_r.
  - wp_steps.
    + set (len := Z.of_nat (String.length chunk)).
      assert (Hpre : wp (if (l + len) mod (10 * 1024 * 1024) =? 0
                         then lift (logger.debug "Download progress") else ret tt)
                        (l + len, w')
                        (fun _ s ev => s = (l + len, w') /\ no_faults ev = true)
                        (fun _ _ _ => False)).
      { destruct (_ =? 0); wp_steps; auto. }
      simpl fst. simpl snd.
      eapply wp_mono; [exact Hpre| |intros ? ? ? []].
      intros _ s ev0 (-> & Hev0). cbv beta. wp_steps.
      apply wp_writeChunk. intros r w2 ev2 Hw.
      destruct H as [Hfs1 _].
      destruct Hw as [w2 t Hfs2 Hr2|w2 msg [Hfs2 _]].
      * assert (Hlook : w_fs w2 !! tmp = Some (mkFile (f_data f +:+ chunk) t)).
        { rewrite Hfs2, Hfs1, Hf. apply lookup_insert_eq. }
        assert (Hc2 : confined [tmp] w w2).
        { intros q Hq. rewrite Hfs2, Hfs1. apply lookup_insert_ne.
          intros ->. apply Hq. simpl. auto. }
        apply (IH _ _ _ _ _ Hlook).
        -- intros lw' ev Hc Hno (f' & Hf' & Hdata). apply HQ.
           ++ eapply confined_trans; eassumption.
           ++ calm.
           ++ exists f'. split; [exact Hf'|]. rewrite Hdata. simpl.
              rewrite string_app_assoc. reflexivity.
        -- intros e lw' ev Hc. apply HE. eapply confined_trans; eassumption.
      * apply HE. simpl. intros q _. rewrite Hfs2, Hfs1. reflexivity.
    + apply HE. simpl. apply confined_later. assumption.
Qed.

Lemma wp_pipeline_data tmp chunks l w Q E :
  (forall lw' ev,
      confined [tmp] w (snd lw') -> no_faults ev = true ->
      (exists f, w_fs (snd lw') !! tmp = Some f /\ f_data f = joined chunks) ->
      Q tt lw' ev) ->
  (forall e lw' ev, confined [tmp] w (snd lw') -> E e lw' ev) ->
  wp (S3Service.pipeline tmp chunks) (l, w) Q E.
Proof.
  intros HQ HE. unfold S3Service.pipeline. wp_steps.
  apply wp_openWrite. intros r w1 ev1 Ho.
  destruct Ho as [w1 t Hfs1 Hr1|w1 msg Hl1].
  - assert (Hc1 : confined [tmp] w w1).
    { intros q Hq. rewrite Hfs1. apply lookup_insert_ne. intros ->. apply Hq. simpl. auto. }
    assert (Hf1 : w_fs w1 !! tmp = Some (mkFile EmptyString t)).
    { rewrite Hfs1. apply lookup_insert_eq. }
    wp_steps. apply (wp_pump_data _ _ _ _ _ _ _ Hf1).
    + intros [l2 w2] ev2 Hc2 Hno2 (f2 & Hf2 & Hdata). simpl in Hc2, Hf2.
      wp_steps. unfold fs.closeWrite. apply wp_probe. intros r w3 ev3 Hc.
      destruct Hc as [w3 Hl3|w3 msg Hl3].
      * apply HQ.
        -- simpl. eapply confined_trans; [exact Hc1|].
           eapply confined_trans; [exact Hc2 | apply confined_later, Hl3].
        -- calm.
        -- exists f2. destruct Hl3 as [Hfs3 _]. simpl. rewrite Hfs3.
           split; [exact Hf2 | exact Hdata].
      * apply HE. simpl. eapply confined_trans; [exact Hc1|].
        eapply confined_trans; [exact Hc2 | apply confined_later, Hl3].
    + intros e [l2 w2] ev2 Hc2. apply HE. simpl in *.
      eapply confined_trans; eassumption.
  - apply HE. simpl. apply confined_later, Hl1.
Qed.

Lemma not_in_staging (lp : string) : ~ In lp [lp +:+ ".tmp"].
Proof. simpl. intros [Heq|[]]. exact (tmp_neq lp Heq). Qed.

Ltac kept lp :=
  repeat match goal with
         | H : later _ _ |- _ => destruct H as [? _]
         | H : cleanup_outcome (lp +:+ ".tmp") _ _ _ |- _ =>
             apply (fun Hc => cleanup_outcome_other _ lp _ _ _ Hc
                                (fun Heq => tmp_neq lp (eq_sym Heq))) in H
         | H : confined [lp +:+ ".tmp"] _ _ |- _ =>
             specialize (H lp (not_in_staging lp))
         end;
  congruence.

Ltac dd_leaf lp :=
  wp_steps; simpl; constructor; simpl; [discriminate | intros _; kept lp].

Lemma downloadFile_data_spec `{Crypto} key lp w :
  wp (S3Service.downloadFile key lp) w
     (fun r w' ev => download_data key lp w r w' ev)
     (fun _ _ _ => False).
Proof.
  unfold S3Service.downloadFile. wp_steps.
  apply wp_getObjectInfo. intros r1 w1 ev1 Hinfo.
  destruct Hinfo as [w1 o Hl1 Ho|w1 Hl1 Ho|w1 msg Hl1]; cycle 1.
  - dd_leaf lp.
  - dd_leaf lp.
  - wp_steps. unfold fs.ensureDir. apply wp_probe. intros r2 w2 ev2 Hdir.
    destruct Hdir as [w2 Hl2|w2 msg Hl2]; cycle 1.
    { dd_leaf lp. }
    wp_steps. apply wp_checkDiskSpace. intros b3 w3 ev3 Hsp.
    destruct Hsp as [w3 Hl3|w3 msg Hl3]; cycle 1.
    { cbn [negb]. dd_leaf lp. }
    cbn [negb]. wp_steps. apply wp_getObject. intros r4 w4 ev4 Hget.
    destruct Hget as [w4 o' Hl4 Ho'|w4 Hl4 Ho'|w4 msg Hl4]; cycle 1.
    { dd_leaf lp. }
    { dd_leaf lp. }
    assert (Hs3 : w_s3 w !! key = Some o').
    { destruct Hl1 as [_ [H1 _]], Hl2 as [_ [H2 _]], Hl3 as [_ [H3 _]].
      rewrite <- H1, <- H2, <- H3. exact Ho'. }
    destruct (o_Body o') as [chunks|] eqn:Hbody; cycle 1.
    { dd_leaf lp. }
    wp_steps. apply wp_pipeline_data.
    + intros [l5 w5] ev5 Hc5 Hno5 (f5 & Hf5 & Hdata). simpl in Hc5, Hf5.
      wp_steps. apply wp_verify_size. intros b6 w6 ev6 Hver.
      pose proof (verify_outcome_later _ _ _ _ _ _ Hver) as Hl6.
      destruct b6; cbn [negb].
      * wp_steps. apply wp_move. intros r7 w7 ev7 Hmv.
        destruct Hmv as [w7 f Hsrc Hfs7 _|w7 Hl7 Hsrc|w7 msg Hl7].
        -- wp_steps. simpl. constructor; simpl; [|discriminate].
           intros _. split.
           ++ inversion Hver; subst. calm.
           ++ exists o', chunks, f. split; [exact Hs3|]. split; [exact Hbody|].
              rewrite Hfs7. split; [apply lookup_insert_eq|].
              destruct Hl6 as [Hfs6 _]. rewrite Hfs6 in Hsrc.
              assert (f = f5) by congruence. subst f. exact Hdata.
        -- wp_steps. apply wp_cleanupTempFile. intros w8 ev8 Hc8. dd_leaf lp.
        -- wp_steps. apply wp_cleanupTempFile. intros w8 ev8 Hc8. dd_leaf lp.
      * wp_steps. apply wp_cleanupTempFile. intros w7 ev7 Hc7. wp_steps.
        apply wp_cleanupTempFile. intros w8 ev8 Hc8. dd_leaf lp.
    + intros e [l5 w5] ev5 Hc5. simpl in Hc5.
      wp_steps. apply wp_cleanupTempFile. intros w8 ev8 Hc8. dd_leaf lp.
Qed.

(** X7: A download that reports success has installed the body of the object,
    byte for byte: the file at the target holds the chunks of the body one
    after the other, and not one call of the run has failed. *)
Theorem downloadFile_installs_the_body `{Crypto} (s3Key localPath : string) (w : World)
    (r : S3Service.DownloadResult) :
  out_res (S3Service.downloadFile s3Key localPath w) = Ok r ->
  S3Service.success r = true ->
  ~ faulted (out_ev (S3Service.downloadFile s3Key localPath w))
  /\ exists o chunks f,
       w_s3 w !! s3Key = Some o /\ o_Body o = Some chunks
       /\ w_fs (out_st (S3Service.downloadFile s3Key localPath w)) !! localPath = Some f
       /\ f_data f = joined chunks.
Proof.
  intros Hres Hok.
  pose proof (wp_run _ _ _ _ (downloadFile_data_spec s3Key localPath w)) as Hspec.
  rewrite Hres in Hspec.
  destruct (dd_installed _ _ _ _ _ _ Hspec Hok) as [Hno Hdata].
  split; [apply no_faults_faulted, Hno | exact Hdata].
Qed.

Lemma downloadFile_installs_the_body_witness :
  ~ faulted (out_ev (@S3Service.downloadFile plain_digest model_key "/models/m.bin"
                       (world0 [])))
  /\ exists o chunks f,
       w_s3 (world0 []) !! model_key = Some o /\ o_Body o = Some chunks
       /\ w_fs (out_st (@S3Service.downloadFile plain_digest model_key "/models/m.bin"
                          (world0 []))) !! "/models/m.bin" = Some f
       /\ f_data f = joined chunks.
Proof.
  apply (@downloadFile_installs_the_body plain_digest model_key "/models/m.bin" (world0 [])
           (S3Service.mkDownloadResult true 1000 0)).
  - vm_compute. reflexivity.
  - reflexivity.
Defined.



(** ** The listing *)











(** ** Updates and their notifications *)

Lemma wp_notifyApplications notification w Q E :
  (forall w1 ev,
      passes w w1 ->
      Q tt (set_sent (fun q => q ++ [mkSent notification
                                      (ModelSyncService.or_unknown
                                         (JsString.split_slash (n_path notification) !! 1%nat))
                                      (ModelSyncService.or_unknown
                                         (JsString.split_slash (n_path notification) !! 0%nat))])
                     w1) ev) ->
  (forall msg w' ev, passes w w' -> E (Error msg) w' ev) ->
  wp (ModelSyncService.notifyApplications notification) w Q E.
Proof.
  intros HQ HE. unfold ModelSyncService.notifyApplications.
  apply wp_try. apply wp_bind. apply wp_sendMessage.
  - intros w1 Hp. wp_steps. apply HQ, Hp.
  - intros msg w1 Hp. wp_steps. apply HE, Hp.
Qed.

Lemma handleModelUpdate_spec `{Crypto} base event w :
  let key := ModelSyncService.ev_key event in
  let lp := ModelSyncService.getLocalModelPath base key in
  wp (ModelSyncService.handleModelUpdate base event) w
     (fun _ w' _ =>
        (w_sent w' = w_sent w /\ w_fs w' = w_fs w)
        \/ exists f t d,
             w_fs w' !! lp = Some f
             /\ w_fs w' !! (lp +:+ ".tmp") = None
             /\ w_sent w'
                = w_sent w ++ [mkSent (mkNotification key lp (file_size f) t d)
                                 (ModelSyncService.or_unknown (JsString.split_slash key !! 1%nat))
                                 (ModelSyncService.or_unknown (JsString.split_slash key !! 0%nat))]
             /\ w_now w <= t <= w_now w')
     (fun _ w' _ => w_sent w' = w_sent w).
Proof.
  intros key lp. unfold ModelSyncService.handleModelUpdate. fold key. fold lp.
  wp_steps.
  destruct (shouldUpdateFile_run key lp w) as (b & w1 & ev1 & Hrun1 & Hpost1).
  pose proof (preserves_shouldUpdateFile (keeps w_sent) (fun _ _ _ => eq_refl) key lp w)
    as Hsent1. unfold keeps in Hsent1. rewrite Hrun1 in Hsent1. simpl in Hsent1.
  destruct (up_later _ _ _ _ _ _ Hpost1) as [Hfs1 [_ Hnow1]].
  eapply wp_of_run; [exact Hrun1|]. cbv beta.
  destruct b; cbn [negb].
  - wp_steps.
    destruct (downloadFile_run key lp w1) as (r & w2 & ev2 & Hrun2 & Hpost2).
    pose proof (preserves_downloadFile (keeps w_sent) (fun _ => True)
                  (fun _ _ _ => eq_refl) (fun _ _ _ => eq_refl) (fun _ _ _ _ => eq_refl)
                  key lp I I w1) as Hsent2.
    unfold keeps in Hsent2. rewrite Hrun2 in Hsent2. simpl in Hsent2.
    destruct (dl_rest _ _ _ _ _ _ Hpost2) as [_ Hnow2].
    eapply wp_of_run; [exact Hrun2|]. cbv beta.
    destruct (S3Service.success r) eqn:Hok.
    + destruct (dl_installed _ _ _ _ _ _ Hpost2 Hok) as (o & f & _ & Hf & Hsize & _ & Htmp).
      wp_steps. apply wp_notifyApplications.
      * intros w3 ev3 [Hev3 Hnow3]. right. exists f, (w_now w2), (S3Service.duration r).
        injection Hev3 as Hfs3 _ _ _ Hsent3 _. simpl.
        rewrite Hfs3, Hsent3, Hsent2, Hsent1, Hsize. repeat split; auto; lia.
      * intros msg w3 ev3 [Hev3 _]. wp_steps. simpl.
        injection Hev3 as _ _ _ _ Hsent3 _. congruence.
    + wp_steps. simpl. congruence.
  - wp_steps. simpl. left. split; congruence.
Qed.

(** X14: A notification is sent for an installed model, and for nothing else.
    In every run of [handleModelUpdate] the bucket, the update queue and
    the health state stay as they are.  When it throws, nothing was sent.
    When it returns, either the model was up to date, and then no file has
    changed and nothing was sent, or the file is at its local path, no
    staging file is left, and exactly one notification was added to the
    queue: it carries the key, the local path and the size of that file,
    and its two attributes are the second and the first segment of the key
    ([unknown] for a missing or empty one). *)
Theorem handleModelUpdate_notifies_after_install `{Crypto} (modelsBasePath : string)
    (event : ModelSyncService.ModelUpdateEvent) (w : World) :
  let key := ModelSyncService.ev_key event in
  let localPath := ModelSyncService.getLocalModelPath modelsBasePath key in
  let o := ModelSyncService.handleModelUpdate modelsBasePath event w in
  w_s3 (out_st o) = w_s3 w
  /\ bookkeeping (out_st o) = bookkeeping w
  /\ match out_res o with
     | Throw _ => w_sent (out_st o) = w_sent w
     | Ok _ =>
         (w_sent (out_st o) = w_sent w /\ w_fs (out_st o) = w_fs w)
         \/ exists f t d,
              w_fs (out_st o) !! localPath = Some f
              /\ w_fs (out_st o) !! (localPath +:+ ".tmp") = None
              /\ w_sent (out_st o)
                 = w_sent w
                   ++ [mkSent (mkNotification key localPath (file_size f) t d)
                         (ModelSyncService.or_unknown (JsString.split_slash key !! 1%nat))
                         (ModelSyncService.or_unknown (JsString.split_slash key !! 0%nat))]
              /\ w_now w <= t <= w_now (out_st o)
     end.
Proof.
  intros key localPath o. subst o.
  split; [|split].
  - exact (preserves_handleModelUpdate (keeps w_s3) (fun _ _ _ => eq_refl)
             (fun _ _ => eq_refl) (fun _ _ _ => eq_refl) (fun _ _ => eq_refl)
             modelsBasePath event w).
  - exact (preserves_handleModelUpdate (keeps bookkeeping) (fun _ _ _ => eq_refl)
             (fun _ _ => eq_refl) (fun _ _ _ => eq_refl) (fun _ _ => eq_refl)
             modelsBasePath event w).
  - exact (wp_run _ _ _ _ (handleModelUpdate_spec modelsBasePath event w)).
Qed.

(** ** Records by kind of event *)

Ltac get_member :=
  match goal with
  | |- context [JsValue.get ?v ?k] =>
      let r := eval vm_compute in (JsValue.get v k) in
      change (JsValue.get v k) with r
  end.

Lemma parseModelEvent_s3_record eventName key w Q E :
  (length (JsString.split_slash key) <? 2)%nat = false ->
  Q (Some (model_event eventName key)) w [] ->
  wp (ModelSyncService.parseModelEvent (s3_record eventName key) key) w Q E.
Proof.
  intros Hlen HQ. unfold ModelSyncService.parseModelEvent. rewrite Hlen.
  wp_steps. get_member. apply wp_of_res. wp_steps.
  cbn [JsValue.includes]. apply wp_of_res. wp_steps.
  get_member. apply wp_of_res. wp_steps.
  get_member. apply wp_of_res. wp_steps.
  get_member. apply wp_of_res. wp_steps.
  get_member. apply wp_of_res. wp_steps.
  get_member. apply wp_of_res. wp_steps.
  get_member. apply wp_of_res. wp_steps.
  exact HQ.
Qed.

Lemma wp_same_run {S A} (m : M S A) (s : S)
    (Q : A -> S -> list Event -> Prop) (E : JsError -> S -> list Event -> Prop) :
  (forall o, o = m s ->
             match out_res o with
             | Ok a => Q a (out_st o) (out_ev o)
             | Throw e => E e (out_st o) (out_ev o)
             end) ->
  wp m s Q E.
Proof. intros Hrun. exact (Hrun (m s) eq_refl). Qed.

(** X13: A well-formed record for a model file is logged and then handed on by
    the name of its event alone: to the update path when the name contains
    [ObjectCreated] or [ObjectModified], else to the deletion path when it
    contains [ObjectRemoved], else nowhere (any other event is logged as
    unsupported and changes nothing); a key of one segment is given up with
    a warning.  The run is the run of that handler after one log line. *)
Theorem handleS3Event_dispatches_by_event_name `{Crypto}
    (modelsBasePath eventName key : string) (w : World) :
  has_percent key = false ->
  FileValidator.isModelFile key = true ->
  let o := ModelSyncService.handleS3Event modelsBasePath (s3_record eventName key) w in
  let h := dispatch modelsBasePath eventName key w in
  out_res o = out_res h
  /\ out_st o = out_st h
  /\ out_ev o = EvLog LInfo ("Processing S3 event: " +:+ eventName +:+ " for " +:+ key)
                :: out_ev h.
Proof.
  intros Hplain Hmodel o h. subst o h.
  assert (Hwp : wp (ModelSyncService.handleS3Event modelsBasePath (s3_record eventName key)) w
                   (fun _ w' ev =>
                      let h := dispatch modelsBasePath eventName key w in
                      out_res h = Ok tt /\ w' = out_st h
                      /\ ev = EvLog LInfo ("Processing S3 event: " +:+ eventName
                                           +:+ " for " +:+ key) :: out_ev h)
                   (fun e w' ev =>
                      let h := dispatch modelsBasePath eventName key w in
                      out_res h = Throw e /\ w' = out_st h
                      /\ ev = EvLog LInfo ("Processing S3 event: " +:+ eventName
                                           +:+ " for " +:+ key) :: out_ev h)).
  { unfold ModelSyncService.handleS3Event.
    wp_steps. get_member. apply wp_of_res. wp_steps.
    get_member. apply wp_of_res. wp_steps.
    get_member. apply wp_of_res. wp_steps.
    cbn [JsValue.toString]. rewrite (decodeURIComponent_literal key Hplain).
    apply wp_of_res. wp_steps.
    get_member. apply wp_of_res. wp_steps.
    rewrite Hmodel. cbn [negb JsValue.toString]. unfold dispatch.
    destruct (length (JsString.split_slash key) <? 2)%nat eqn:Hlen.
    - unfold ModelSyncService.parseModelEvent. rewrite Hlen. wp_steps.
      simpl. auto.
    - wp_steps. apply parseModelEvent_s3_record; [exact Hlen|].
      cbn [JsValue.includes]. wp_steps. apply wp_of_res. wp_steps.
      destruct (JsString.includes eventName "ObjectCreated"); cbn [orb].
      + wp_steps. apply wp_same_run. intros o ->.
        destruct (ModelSyncService.handleModelUpdate modelsBasePath
                    (model_event eventName key) w) as [[[]|e] w' ev]; simpl; auto.
      + wp_steps. apply wp_of_res. wp_steps.
        destruct (JsString.includes eventName "ObjectModified").
        * apply wp_same_run. intros o ->.
          destruct (ModelSyncService.handleModelUpdate modelsBasePath
                      (model_event eventName key) w) as [[[]|e] w' ev]; simpl; auto.
        * wp_steps. apply wp_of_res. wp_steps.
          destruct (JsString.includes eventName "ObjectRemoved").
          -- apply wp_same_run. intros o ->.
             destruct (ModelSyncService.handleModelDeletion modelsBasePath
                         (model_event eventName key) w) as [[[]|e] w' ev]; simpl; auto.
          -- wp_steps. simpl. auto. }
  unfold wp in Hwp. cbv zeta in Hwp.
  destruct (out_res (ModelSyncService.handleS3Event modelsBasePath
                       (s3_record eventName key) w)) as [[]|e];
    destruct Hwp as (-> & -> & ->); auto.
Qed.

Lemma handleS3Event_dispatches_by_event_name_witness :
  w_fs (out_st (@ModelSyncService.handleS3Event plain_digest "/models"
                  (s3_record "ObjectRemoved:Delete" model_key) installed_world))
  = w_fs (out_st (@ModelSyncService.handleModelDeletion "/models"
                    (model_event "ObjectRemoved:Delete" model_key) installed_world)).
Proof.
  destruct (@handleS3Event_dispatches_by_event_name plain_digest "/models"
              "ObjectRemoved:Delete" model_key installed_world eq_refl eq_refl)
    as (_ & Hst & _).
  rewrite Hst. reflexivity.
Defined.



(** ** Full sync on request *)

Lemma wp_result {S A} (m : M S A) (s : S) (r : A) :
  wp m s (fun a _ _ => a = r) (fun _ _ _ => False) -> out_res (m s) = Ok r.
Proof.
  unfold wp. destruct (out_res (m s)) as [a|e]; [intros ->; reflexivity | contradiction].
Qed.

Lemma triggerFullSync_returns `{Crypto} base w :
  exists s, out_res (ModelSyncService.triggerFullSync base w) = Ok s
            /\ (ModelSyncService.success s = true <-> ModelSyncService.errors s = []).
Proof.
  apply (wp_returns _ _ (fun s _ _ => ModelSyncService.success s = true
                                      <-> ModelSyncService.errors s = [])).
  unfold ModelSyncService.triggerFullSync. wp_steps.
  unfold wp at 1.
  destruct (S3Service.listAllModels w) as [[keys|e] w1 ev1]; cbn [out_res out_st out_ev].
  - destruct keys as [|key keys].
    + cbn [length Nat.eqb]. wp_steps. simpl. tauto.
    + cbn [length Nat.eqb]. wp_steps. apply wp_sync_loop.
      intros outs w2 ev2 ev2' Hrun Hlen. wp_steps. simpl. apply no_errors_iff.
  - wp_steps. simpl. split; discriminate.
Qed.

(** X27: [POST /sync/full] never answers 500: [triggerFullSync] does not throw,
    so the handler for an error is never run.  The answer is 200 when the
    summary has no error and 207 when it has one, the body carries the
    summary, and the request, like the full sync, sends no notification and
    leaves the update queue, the health state and the bucket alone. *)
Theorem sync_full_answers_200_or_207 `{Crypto} (modelsBasePath : string) (w : World) :
  let o := ApiService.sync_full modelsBasePath w in
  surroundings (out_st o) = surroundings w
  /\ exists summary,
       out_res (ModelSyncService.triggerFullSync modelsBasePath w) = Ok summary
       /\ out_res o
          = Ok (if ModelSyncService.success summary
                then ApiService.mkResponse 200
                       (ApiService.mkSyncReply true "Full sync completed successfully"
                                               (Some summary) None)
                else ApiService.mkResponse 207
                       (ApiService.mkSyncReply false "Full sync completed with errors"
                                               (Some summary) None))
       /\ (ModelSyncService.success summary = true <-> ModelSyncService.errors summary = []).
Proof.
  intros o. subst o. split.
  - revert w. change (preserves (keeps surroundings) (ApiService.sync_full modelsBasePath)).
    unfold ApiService.sync_full.
    repeat first
      [ apply (preserves_triggerFullSync (keeps surroundings) (fun _ _ _ => eq_refl)
                 (fun _ _ => eq_refl) (fun _ _ _ => eq_refl))
      | preserves_step ].
  - destruct (triggerFullSync_returns modelsBasePath w) as (summary & Hres & Hok).
    exists summary. split; [exact Hres|]. split; [|exact Hok].
    apply wp_result. unfold ApiService.sync_full. wp_steps.
    unfold wp at 1. rewrite Hres.
    destruct (ModelSyncService.success summary); wp_steps; reflexivity.
Qed.







(** ** Messages of several records *)

Lemma for_each_stops {S A} (body : A -> M S unit) (pre : list A) (x : A) (post : list A)
    (s : S) (e : JsError) :
  out_res (ModelSyncService.for_each body pre s) = Ok tt ->
  out_res (body x (out_st (ModelSyncService.for_each body pre s))) = Throw e ->
  let o := ModelSyncService.for_each body (pre ++ x :: post) s in
  out_res o = Throw e
  /\ out_st o = out_st (body x (out_st (ModelSyncService.for_each body pre s)))
  /\ out_ev o = out_ev (ModelSyncService.for_each body pre s)
                ++ out_ev (body x (out_st (ModelSyncService.for_each body pre s))).
Proof.
  revert s. induction pre as [|y pre IH]; intros s Hpre Hx; cbn [app ModelSyncService.for_each].
  - cbn [ModelSyncService.for_each] in Hx. unfold ret in Hx. cbn [out_st] in Hx.
    unfold bind. rewrite Hx. cbn [out_res out_st out_ev ModelSyncService.for_each ret app].
    auto.
  - cbn [ModelSyncService.for_each] in Hpre, Hx. unfold bind in Hpre, Hx |- *.
    destruct (out_res (body y s)) as [[]|e'] eqn:Hy; [|discriminate].
    cbn [out_res out_st out_ev] in *.
    destruct (IH (out_st (body y s)) Hpre Hx) as (H1 & H2 & H3).
    rewrite H1, H2, H3, app_assoc. auto.
Qed.

(** X17: [handleMessage] stops at the first record that fails.  When the
    records before it are handled and handling it throws, [handleMessage]
    logs and rethrows that error from the state the failed record left
    behind: the records after it are not handled, whatever they are. *)
Theorem handleMessage_stops_at_first_failure `{Crypto} (modelsBasePath : string)
    (message : Message) (body : Js) (pre : list Js) (record : Js) (post : list Js)
    (e : JsError) (w : World) :
  m_Body message = Ok body ->
  JsValue.get body "Records" = Ok (JArr (pre ++ record :: post)) ->
  let before :=
    ModelSyncService.for_each (ModelSyncService.handleS3Event modelsBasePath) pre w in
  let failing := ModelSyncService.handleS3Event modelsBasePath record (out_st before) in
  out_res before = Ok tt ->
  out_res failing = Throw e ->
  let o := ModelSyncService.handleMessage modelsBasePath message w in
  out_res o = Throw e
  /\ out_st o = out_st failing
  /\ out_ev o = out_ev before ++ out_ev failing
                ++ [EvLog LError ("Error parsing SQS message: " +:+ err_message e)].
Proof.
  intros Hbody Hrecords before failing Hbefore Hfailing o. subst before failing o.
  destruct (for_each_stops (ModelSyncService.handleS3Event modelsBasePath)
              pre record post w e Hbefore Hfailing) as (H1 & H2 & H3).
  cbv zeta in H1, H2, H3.
  unfold ModelSyncService.handleMessage, try_catch, bind, of_res.
  rewrite Hbody. cbn [out_res out_st out_ev]. rewrite Hrecords. cbn [out_res out_st out_ev].
  rewrite H1. cbn [out_res out_st out_ev app logger.error emit throw bind].
  rewrite H2, H3, <- app_assoc. auto.
Qed.

Lemma handleMessage_stops_at_first_failure_witness :
  let o := @ModelSyncService.handleMessage plain_digest "/models" undecodable_message
             (world_queue [undecodable_message]) in
  out_res o = Throw (URIError "URI malformed") /\ w_fs (out_st o) = ∅.
Proof.
  destruct (@handleMessage_stops_at_first_failure plain_digest "/models"
              undecodable_message
              (JObj [("Records", JArr [s3_record "ObjectCreated:Put" "essential/voice/50%";
                                       s3_record "ObjectCreated:Put" model_key])])
              [] (s3_record "ObjectCreated:Put" "essential/voice/50%")
              [s3_record "ObjectCreated:Put" model_key]
              (URIError "URI malformed") (world_queue [undecodable_message])
              eq_refl eq_refl eq_refl
              ltac:(vm_compute; reflexivity))
    as (Hres & Hst & _).
  split; [exact Hres|]. rewrite Hst. reflexivity.
Defined.

(** ** An empty queue *)

(** X19: [processMessages] never throws, and with an empty queue it does
    nothing: whether the request for messages succeeds or fails, no file,
    queue or health state has changed afterwards. *)
Theorem processMessages_is_idle_on_an_empty_queue `{Crypto} (modelsBasePath : string)
    (w : World) :
  let o := ModelSyncService.processMessages modelsBasePath w in
  out_res o = Ok tt
  /\ (w_queue w = [] -> everything (out_st o) = everything w).
Proof.
  intros o. subst o. split; [apply processMessages_returns|].
  intros Hempty.
  assert (Hwp : wp (ModelSyncService.processMessages modelsBasePath) w
                   (fun _ w' _ => everything w' = everything w)
                   (fun _ _ _ => False)).
  { unfold ModelSyncService.processMessages. apply wp_try. apply wp_bind.
    apply wp_receive.
    - intros w1 [Hev _].
      assert (Hq : w_queue w1 = []) by (injection Hev; intros; congruence).
      rewrite Hq. cbn [firstn]. wp_steps. exact Hev.
    - intros msg w1 [Hev _]. wp_steps. exact Hev. }
  unfold wp in Hwp.
  destruct (out_res (ModelSyncService.processMessages modelsBasePath w));
    [exact Hwp | contradiction].
Qed.

Lemma processMessages_is_idle_on_an_empty_queue_witness :
  everything (out_st (@ModelSyncService.processMessages plain_digest "/models"
                        (world_queue [])))
  = everything (world_queue []).
Proof.
  apply (@processMessages_is_idle_on_an_empty_queue plain_digest "/models" (world_queue [])).
  reflexivity.
Defined.

(** ** The integrity check, as a decision *)


(** ** What [HeadObject] tells *)


